(** * ModalEffect: the event-driven modal synthesis core

    A shallow embedding of the C++ DSP core of ModalEffect
    (SynthEngine, EventQueue, NodeManager, VoiceAllocator, ModalVoice,
    NodeCharacter) and the properties its specification states about it.

    Conventions.
    - Unsigned and signed machine integers are values of [Z]; every cast the
      source performs is written out with [to_uint32] / [to_int32] / [to_int8].
    - A C [float] is modelled by its rational value ([Q]); the comparisons
      [<] and [>] of the source are the order of [Q]. Rounding and the
      non-numeric values (NaN, infinities) are outside this model.
    - Fixed C arrays are lists, read with [!!] and written with [<[i:=x]>];
      the representation invariants ([wf]) record their fixed lengths.
    - Every object is a record and every method a function from the old
      object to the new one. Output buffers are addresses into a memory of
      floats. A rendering function returns an [option]: [None] stands for
      a control loop that does not come to an end.
    - The numeric kernel (modal_node.c, audio_synth.c) and the topology
      engine are interfaces, [ModalCore] and [Topology]: the properties
      hold for every implementation of them. *)

From Stdlib Require Import ZArith QArith Qabs Lia Bool String.
From stdpp Require Import base tactics option list.

#[local] Open Scope string_scope.
#[local] Open Scope Z_scope.

(* ===================================================================== *)
(** ** Machine integers and floats *)
(* ===================================================================== *)

Definition to_uint8 (z : Z) : Z := z mod 256.
Definition to_uint32 (z : Z) : Z := z mod 2 ^ 32.
Definition to_int32 (z : Z) : Z := (z + 2 ^ 31) mod 2 ^ 32 - 2 ^ 31.
Definition to_int8 (z : Z) : Z := (z + 128) mod 256 - 128.

Definition INT32_MAX : Z := 2 ^ 31 - 1.
Definition UINT32_MAX : Z := 2 ^ 32 - 1.

Definition float : Type := Q.

(** [x < y] on floats, as a boolean. *)
Definition flt (x y : float) : bool := negb (Qle_bool y x).

(** A complex amplitude: real and imaginary part. *)
Definition modal_complex_t : Type := (float * float)%type.

Definition czero : modal_complex_t := (0%Q, 0%Q).

(** [cabsf]: the modulus. The square root is the integer square root of
    the numerator scaled by the denominator, which is exact on the squares of
    rationals and rounds down elsewhere. *)
Definition qsqrt (x : Q) : Q :=
  Qmake (Z.sqrt (Qnum x * Zpos (Qden x))) (Qden x).

Definition cabsf (z : modal_complex_t) : float :=
  qsqrt (fst z * fst z + snd z * snd z)%Q.

(* ===================================================================== *)
(** ** SynthEngine.h: events and the fixed-size event queue *)
(* ===================================================================== *)

Inductive EventType := NoteOn | NoteOff | CC | PitchBend | ParameterChange.

(** The union of [SynthEvent], as a tagged sum: one constructor per member
    of the union, carrying that member's fields. *)
Inductive EventData :=
  | noteOn_data (note : Z) (velocity : float) (chan : Z)
  | noteOff_data (note : Z)
  | cc_data (cc : Z) (value : float)
  | pitchBend_data (value : float)
  | parameter_data (paramId : Z) (value : float).

Record SynthEvent := mkSynthEvent {
  sampleOffset : Z;   (* int32_t *)
  data : EventData
}.

Definition type (e : SynthEvent) : EventType :=
  match data e with
  | noteOn_data _ _ _ => NoteOn
  | noteOff_data _ => NoteOff
  | cc_data _ _ => CC
  | pitchBend_data _ => PitchBend
  | parameter_data _ _ => ParameterChange
  end.

Module EventQueue.

Definition MAX_EVENTS : Z := 512.

(** [events_] is the fixed array of [MAX_EVENTS] slots, [count_] the
    number of slots in use. *)
Record t := mk {
  events_ : list SynthEvent;
  count_ : Z
}.

Definition wf (q : t) : Prop :=
  length (events_ q) = Z.to_nat MAX_EVENTS /\ 0 <= count_ q <= MAX_EVENTS.

(** The constructor sets [count_] to 0; the slots hold whatever [fill]
    is. *)
Definition new (fill : SynthEvent) : t :=
  {| events_ := replicate (Z.to_nat MAX_EVENTS) fill; count_ := 0 |}.

Definition push (q : t) (event : SynthEvent) : t * bool :=
  if MAX_EVENTS <=? count_ q then (q, false)
  else ({| events_ := <[Z.to_nat (count_ q) := event]> (events_ q);
           count_ := count_ q + 1 |}, true).

Definition count (q : t) : Z := count_ q.

(** [operator[]] *)
Definition get (q : t) (idx : Z) : option SynthEvent :=
  events_ q !! Z.to_nat idx.

Definition clear (q : t) : t := {| events_ := events_ q; count_ := 0 |}.

(** The events a consumer sees: indices [0 .. count()-1], in order. *)
Definition contents (q : t) : list SynthEvent :=
  take (Z.to_nat (count_ q)) (events_ q).

(** A producer pushing a sequence of events, ignoring the results. *)
Fixpoint push_all (q : t) (es : list SynthEvent) : t :=
  match es with
  | [] => q
  | e :: es' => push_all (fst (push q e)) es'
  end.

End EventQueue.

(* ===================================================================== *)
(** ** modal_node.h: the C core of one resonator node *)
(* ===================================================================== *)

Definition MAX_MODES : Z := 4.
Definition MAX_NEIGHBORS : Z := 8.
Definition CONTROL_RATE_HZ : Z := 500.
Definition CONTROL_DT : float := (1 # 500)%Q.

Inductive node_personality_t :=
  | PERSONALITY_RESONATOR
  | PERSONALITY_SELF_OSCILLATOR.

Inductive wave_shape_t :=
  | WAVE_SHAPE_SINE
  | WAVE_SHAPE_SAWTOOTH
  | WAVE_SHAPE_TRIANGLE
  | WAVE_SHAPE_SQUARE
  | WAVE_SHAPE_PULSE_25
  | WAVE_SHAPE_PULSE_10
  | WAVE_SHAPE_COUNT.

Record mode_params_t := mk_mode_params {
  omega : float;
  gamma : float;
  weight : float;
  shape : wave_shape_t;
  active : bool
}.

Record mode_state_t := mk_mode_state {
  a : modal_complex_t;
  a_dot : modal_complex_t;
  params : mode_params_t
}.

Record excitation_envelope_t := mk_excitation {
  env_strength : float;
  env_duration_ms : float;
  env_elapsed_ms : float;
  env_phase_hint : float;
  env_active : bool
}.

Record modal_node_t := mk_modal_node {
  node_id : Z;
  personality : node_personality_t;
  modes : list mode_state_t;            (* mode_state_t modes[MAX_MODES] *)
  excitation : excitation_envelope_t;
  coupling_strength : float;
  global_damping : float;
  num_neighbors : Z;
  neighbor_ids : list Z;                (* uint8_t neighbor_ids[MAX_NEIGHBORS] *)
  carrier_freq_hz : float;
  audio_gain : float;
  step_count : Z;
  running : bool
}.

Record poke_event_t := mk_poke {
  source_node_id : Z;
  strength : float;
  phase_hint : float;
  mode_weights : list float             (* float mode_weights[MAX_MODES] *)
}.

Definition mode_params_zero : mode_params_t :=
  mk_mode_params 0%Q 0%Q 0%Q WAVE_SHAPE_SINE false.

Definition mode_state_zero : mode_state_t :=
  mk_mode_state czero czero mode_params_zero.

(** [node->modes[k]] *)
Definition mode_at (node : modal_node_t) (k : Z) : mode_state_t :=
  default mode_state_zero (modes node !! Z.to_nat k).

Definition set_modes (node : modal_node_t) (ms : list mode_state_t) : modal_node_t :=
  mk_modal_node (node_id node) (personality node) ms (excitation node)
    (coupling_strength node) (global_damping node) (num_neighbors node)
    (neighbor_ids node) (carrier_freq_hz node) (audio_gain node)
    (step_count node) (running node).

Definition set_personality (node : modal_node_t) (p : node_personality_t) : modal_node_t :=
  mk_modal_node (node_id node) p (modes node) (excitation node)
    (coupling_strength node) (global_damping node) (num_neighbors node)
    (neighbor_ids node) (carrier_freq_hz node) (audio_gain node)
    (step_count node) (running node).

Definition set_global_damping (node : modal_node_t) (d : float) : modal_node_t :=
  mk_modal_node (node_id node) (personality node) (modes node) (excitation node)
    (coupling_strength node) d (num_neighbors node)
    (neighbor_ids node) (carrier_freq_hz node) (audio_gain node)
    (step_count node) (running node).

Definition set_shape (m : mode_state_t) (s : wave_shape_t) : mode_state_t :=
  mk_mode_state (a m) (a_dot m)
    (mk_mode_params (omega (params m)) (gamma (params m)) (weight (params m))
       s (active (params m))).

Definition set_a (m : mode_state_t) (z : modal_complex_t) : mode_state_t :=
  mk_mode_state z (a_dot m) (params m).

(** Modelled from the spec: modal_node.c is not among the sources, only its
    header. [modal_node_reset] "clears all mode amplitudes to zero" (the
    header: "Reset node state (clear all modes)"); the amplitude and its
    derivative of every mode become zero, the mode parameters stay. *)
Definition modal_node_reset (node : modal_node_t) : modal_node_t :=
  set_modes node
    (map (fun m => mk_mode_state czero czero (params m)) (modes node)).

(** Modelled from the spec: [modal_node_get_amplitude] "returns the weighted
    sum of |a_k| across active modes". *)
Definition modal_node_get_amplitude (node : modal_node_t) : float :=
  foldr (fun m acc =>
           if active (params m) then (weight (params m) * cabsf (a m) + acc)%Q
           else acc)
        0%Q (modes node).

(* ===================================================================== *)
(** ** audio_synth.c: the synthesizer state next to a node *)
(* ===================================================================== *)

Record audio_synth_t := mk_audio_synth {
  synth_sample_rate : float;
  master_gain : float;
  muted : bool;
  phase_accumulator : list Z;           (* uint32_t [MAX_MODES] *)
  mode_gains : list float;
  amplitude_smooth : list float;
  synth_initialized : bool
}.

(** [memset(synth, 0, sizeof(audio_synth_t))] *)
Definition audio_synth_zero : audio_synth_t :=
  mk_audio_synth 0%Q 0%Q false
    (replicate (Z.to_nat MAX_MODES) 0)
    (replicate (Z.to_nat MAX_MODES) 0%Q)
    (replicate (Z.to_nat MAX_MODES) 0%Q) false.

(** The [node] pointer the synthesizer keeps always points to the node of
    the voice that owns it; the model passes that node where it is read. *)
Definition audio_synth_init (sample_rate : float) : audio_synth_t :=
  mk_audio_synth sample_rate 1%Q false
    (replicate (Z.to_nat MAX_MODES) 0)
    (replicate (Z.to_nat MAX_MODES) 1%Q)
    (replicate (Z.to_nat MAX_MODES) 0%Q) true.

Definition audio_synth_reset_phase (synth : audio_synth_t) : audio_synth_t :=
  mk_audio_synth (synth_sample_rate synth) (master_gain synth) (muted synth)
    (replicate (Z.to_nat MAX_MODES) 0)
    (mode_gains synth)
    (replicate (Z.to_nat MAX_MODES) 0%Q) (synth_initialized synth).

(* ===================================================================== *)
(** ** The numeric primitives the engine is built on *)
(* ===================================================================== *)

(** The operations of modal_node.c (declared in modal_node.h), of libm and
    the sample loop of audio_synth.c compute with exponentials, powers and
    trigonometric functions. The engine only calls them; they are an
    interface here, and every statement below holds for each implementation
    of it. [audio_synth_render synth node outL outR n] fills the first [n]
    samples of both buffers. *)
Class ModalCore := {
  midi_to_freq : Z -> float;
  freq_to_omega : float -> float;
  powf : float -> float -> float;
  modal_node_init : Z -> node_personality_t -> modal_node_t;
  modal_node_set_mode : modal_node_t -> Z -> float -> float -> float -> modal_node_t;
  modal_node_step : modal_node_t -> modal_node_t;
  modal_node_apply_poke : modal_node_t -> poke_event_t -> modal_node_t;
  modal_node_start : modal_node_t -> modal_node_t;
  audio_synth_render :
    audio_synth_t -> modal_node_t -> list float -> list float -> Z ->
    audio_synth_t * list float * list float
}.

(* ===================================================================== *)
(** ** Bounded loops and buffers *)
(* ===================================================================== *)

(** [while_fuel p step x] runs [step] until it answers [inl] (the loop
    condition failed) and at most [p] times; [inr] is the state reached when
    the budget is used up. Only the steps that are needed are evaluated. *)
Fixpoint while_fuel {A : Type} (p : positive) (step : A -> A + A) (x : A) : A + A :=
  match p with
  | xH => step x
  | xO p' =>
      match while_fuel p' step x with
      | inl r => inl r
      | inr y => while_fuel p' step y
      end
  | xI p' =>
      match step x with
      | inl r => inl r
      | inr y =>
          match while_fuel p' step y with
          | inl r => inl r
          | inr z => while_fuel p' step z
          end
      end
  end.

(** [memset(buf + p, 0, n * sizeof(float))] *)
Definition memset_zero (buf : list float) (p n : Z) : list float :=
  foldl (fun b j => <[(Z.to_nat p + j)%nat := 0%Q]> b) buf (seq 0 (Z.to_nat n)).

(** [buf[p] += x] *)
Definition add_at (buf : list float) (p : nat) (x : float) : list float :=
  <[p := (default 0%Q (buf !! p) + x)%Q]> buf.

(** [for j < n: { buf[pL + j] += srcL[j]; buf[pR + j] += srcR[j]; }] *)
Definition mix_into (buf : list float) (pL pR : Z) (srcL srcR : list float) (n : Z)
  : list float :=
  foldl (fun b j =>
           add_at (add_at b (Z.to_nat pL + j)%nat (default 0%Q (srcL !! j)))
                  (Z.to_nat pR + j)%nat (default 0%Q (srcR !! j)))
        buf (seq 0 (Z.to_nat n)).

(** [static_cast<uint32_t>(x)] of a float: truncation toward zero. *)
Definition float_to_uint32 (x : float) : Z :=
  to_uint32 (Z.quot (Qnum x) (Zpos (Qden x))).

(* ===================================================================== *)
(** ** ModalVoice.cpp: one voice (a node, its synthesizer, its state) *)
(* ===================================================================== *)

Module ModalVoice.

Inductive State := Inactive | Attack | Sustain | Release.

Inductive CouplingMode := ComplexDiffusion | MagnitudePressure.

Record t := mk {
  voice_id_ : Z;
  state_ : State;
  midi_note_ : Z;
  velocity_ : float;
  pitch_bend_ : float;
  age_ : Z;                           (* uint32_t *)
  samples_since_update_ : Z;          (* uint32_t *)
  samples_per_update_ : Z;            (* uint32_t *)
  sample_rate_ : float;
  node_ : modal_node_t;
  synth_ : audio_synth_t
}.

Definition set_state (v : t) (s : State) : t :=
  mk (voice_id_ v) s (midi_note_ v) (velocity_ v) (pitch_bend_ v) (age_ v)
     (samples_since_update_ v) (samples_per_update_ v) (sample_rate_ v)
     (node_ v) (synth_ v).

Definition set_age (v : t) (n : Z) : t :=
  mk (voice_id_ v) (state_ v) (midi_note_ v) (velocity_ v) (pitch_bend_ v) n
     (samples_since_update_ v) (samples_per_update_ v) (sample_rate_ v)
     (node_ v) (synth_ v).

Definition set_pitch_bend (v : t) (b : float) : t :=
  mk (voice_id_ v) (state_ v) (midi_note_ v) (velocity_ v) b (age_ v)
     (samples_since_update_ v) (samples_per_update_ v) (sample_rate_ v)
     (node_ v) (synth_ v).

Definition set_samples_since_update (v : t) (n : Z) : t :=
  mk (voice_id_ v) (state_ v) (midi_note_ v) (velocity_ v) (pitch_bend_ v)
     (age_ v) n (samples_per_update_ v) (sample_rate_ v) (node_ v) (synth_ v).

Definition set_node (v : t) (n : modal_node_t) : t :=
  mk (voice_id_ v) (state_ v) (midi_note_ v) (velocity_ v) (pitch_bend_ v)
     (age_ v) (samples_since_update_ v) (samples_per_update_ v)
     (sample_rate_ v) n (synth_ v).

Definition set_synth (v : t) (s : audio_synth_t) : t :=
  mk (voice_id_ v) (state_ v) (midi_note_ v) (velocity_ v) (pitch_bend_ v)
     (age_ v) (samples_since_update_ v) (samples_per_update_ v)
     (sample_rate_ v) (node_ v) s.

(** Modelled from the spec: ModalVoice.h (the class declaration with its
    inline accessors) is not among the sources. An instance is live
    ("active") unless its state is [Inactive]; its age is the counter the
    control-rate update increments. *)
Definition isActive (v : t) : bool :=
  match state_ v with Inactive => false | _ => true end.

Definition getAge (v : t) : Z := age_ v.

Definition getState (v : t) : State := state_ v.

Definition getModalNode (v : t) : modal_node_t := node_ v.

Definition getAmplitude (v : t) : float := modal_node_get_amplitude (node_ v).

Definition setPersonality (v : t) (p : node_personality_t) : t :=
  set_node v (set_personality (node_ v) p).

Definition setGlobalDamping (v : t) (damping : float) : t :=
  set_node v (set_global_damping (node_ v) damping).

Definition reset (v : t) : t :=
  mk (voice_id_ v) Inactive (midi_note_ v) (velocity_ v) (pitch_bend_ v) 0
     0 (samples_per_update_ v) (sample_rate_ v)
     (modal_node_reset (node_ v)) (synth_ v).

Definition noteOff (v : t) : t :=
  match state_ v with
  | Inactive => v
  | _ => set_state v Release
  end.

(** [a += s] for a real [s]. *)
Definition cadd_real (z : modal_complex_t) (s : float) : modal_complex_t :=
  ((fst z + s)%Q, snd z).

Definition cadd (z w : modal_complex_t) : modal_complex_t :=
  ((fst z + fst w)%Q, (snd z + snd w)%Q).

Definition cscale (z : modal_complex_t) (s : float) : modal_complex_t :=
  ((fst z * s)%Q, (snd z * s)%Q).

Definition applyCoupling (v : t) (coupling_inputs : list float) : t :=
  set_node v
    (set_modes (node_ v)
       (imap (fun k m =>
                if active (params m) then
                  set_a m (cadd_real (a m)
                             (coupling_strength (node_ v)
                              * default 0%Q (coupling_inputs !! k)
                              * CONTROL_DT)%Q)
                else m)
             (modes (node_ v)))).

Definition applyCouplingMode0 (v : t) (coupling0 : modal_complex_t) : t :=
  if active (params (mode_at (node_ v) 0)) then
    set_node v
      (set_modes (node_ v)
         (<[0%nat := set_a (mode_at (node_ v) 0)
                       (cadd (a (mode_at (node_ v) 0))
                             (cscale coupling0 CONTROL_DT))]>
            (modes (node_ v))))
  else v.

(** The budget of the control loop of [renderAudio]: the loop counts a
    32-bit counter down, and wraps around at most once. *)
Definition LOOP_BUDGET : positive := (2 ^ 33)%positive.

Section WithCore.
Context {core : ModalCore}.

Definition new (voice_id : Z) : t :=
  mk voice_id Inactive 60 0%Q 0%Q 0 0 0 48000%Q
     (modal_node_init voice_id PERSONALITY_RESONATOR) audio_synth_zero.

Definition setMode (v : t) (mode_idx : Z) (freq_hz damping weight : float) : t :=
  if MAX_MODES <=? mode_idx then v
  else set_node v
         (modal_node_set_mode (node_ v) mode_idx (freq_to_omega freq_hz)
            damping weight).

Definition getBaseFrequency (v : t) : float :=
  (midi_to_freq (midi_note_ v) * powf 2 (pitch_bend_ v * 2 / 12))%Q.

Definition updateFrequencies (v : t) : t :=
  let base_freq := getBaseFrequency v in
  let v := setMode v 0 (base_freq * 1)%Q
             (gamma (params (mode_at (node_ v) 0)))
             (weight (params (mode_at (node_ v) 0))) in
  let v := setMode v 1 (base_freq * 1.01)%Q
             (gamma (params (mode_at (node_ v) 1)))
             (weight (params (mode_at (node_ v) 1))) in
  let v := setMode v 2 (base_freq * 2)%Q
             (gamma (params (mode_at (node_ v) 2)))
             (weight (params (mode_at (node_ v) 2))) in
  setMode v 3 (base_freq * 3)%Q
    (gamma (params (mode_at (node_ v) 3)))
    (weight (params (mode_at (node_ v) 3))).

Definition initialize (v : t) (sample_rate : float) : t :=
  let v := mk (voice_id_ v) (state_ v) (midi_note_ v) (velocity_ v)
              (pitch_bend_ v) (age_ v) (samples_since_update_ v)
              (float_to_uint32 (sample_rate / inject_Z CONTROL_RATE_HZ)%Q)
              sample_rate (node_ v) (audio_synth_init sample_rate) in
  let base_freq := midi_to_freq (midi_note_ v) in
  let v := setMode v 0 (base_freq * 1)%Q 0.5%Q 1%Q in
  let v := setMode v 1 (base_freq * 1.01)%Q 0.6%Q 0.7%Q in
  let v := setMode v 2 (base_freq * 2)%Q 0.8%Q 0.5%Q in
  let v := setMode v 3 (base_freq * 3)%Q 1%Q 0.3%Q in
  set_node v (modal_node_start (node_ v)).

Definition noteOn (v : t) (midi_note : Z) (velocity : float) : t :=
  let v := mk (voice_id_ v) Attack midi_note velocity (pitch_bend_ v) 0
              (samples_since_update_ v) (samples_per_update_ v)
              (sample_rate_ v) (node_ v) (synth_ v) in
  let v := updateFrequencies v in
  let v := set_synth v (audio_synth_reset_phase (synth_ v)) in
  let poke := mk_poke (voice_id_ v) velocity (-1)%Q
                (replicate (Z.to_nat MAX_MODES) 1%Q) in
  set_node v (modal_node_apply_poke (node_ v) poke).

Definition setPitchBend (v : t) (bend_amount : float) : t :=
  updateFrequencies (set_pitch_bend v bend_amount).

Definition updateState (v : t) : t :=
  match state_ v with
  | Inactive => v
  | Attack =>
      match personality (node_ v) with
      | PERSONALITY_SELF_OSCILLATOR => set_state v Sustain
      | PERSONALITY_RESONATOR => v
      end
  | Sustain => v
  | Release =>
      if flt (getAmplitude v) 0.001%Q then reset (set_state v Inactive)
      else v
  end.

Definition updateModal (v : t) : t :=
  match state_ v with
  | Inactive => v
  | _ =>
      let v := set_node v (modal_node_step (node_ v)) in
      let v := updateState v in
      set_age v (to_uint32 (age_ v + 1))
  end.

(** One turn of [while (samples_since_update_ >= samples_per_update_)]. *)
Definition control_loop_step (v : t) : t + t :=
  if samples_per_update_ v <=? samples_since_update_ v then
    let v := updateModal v in
    inr (set_samples_since_update v
           (to_uint32 (samples_since_update_ v - samples_per_update_ v)))
  else inl v.

(** [renderAudio] writes the first [num_frames] samples of both buffers.
    [None]: the control loop does not end ([samples_per_update_] is 0). *)
Definition renderAudio (v : t) (outL outR : list float) (num_frames : Z)
  : option (t * list float * list float) :=
  match state_ v with
  | Inactive =>
      Some (v, memset_zero outL 0 num_frames, memset_zero outR 0 num_frames)
  | _ =>
      let v := set_samples_since_update v
                 (to_uint32 (samples_since_update_ v + num_frames)) in
      match while_fuel LOOP_BUDGET control_loop_step v with
      | inl v =>
          let '(s, l, r) :=
            audio_synth_render (synth_ v) (node_ v) outL outR num_frames in
          Some (set_synth v s, l, r)
      | inr _ => None
      end
  end.

End WithCore.

End ModalVoice.

(* ===================================================================== *)
(** ** NodeCharacter.h / NodeCharacter.cpp: characters and their library *)
(* ===================================================================== *)

(** A [float] field of a character as a caller hands it over: a number or
    a NaN. *)
Inductive cfloat : Type :=
  | NaN
  | Num (x : Q).                        (* a number of [float] *)

Coercion Num : Q >-> cfloat.

(** [x < y] on such floats: false as soon as one side is a NaN. *)
Definition clt (x y : cfloat) : bool :=
  match x, y with
  | Num x, Num y => flt x y
  | _, _ => false
  end.

(** The number a field stands for in the arithmetic of the voices. That
    arithmetic is over the rationals and has no NaN: a NaN field reads as 0
    there, and what a voice computes from a NaN field is not described by
    this development. *)
Definition cval (x : cfloat) : float :=
  match x with
  | Num x => x
  | NaN => 0%Q
  end.

(** The single-precision literals [0.1f] = 13421773 * 2^-27 and
    [0.01f] = 5368709 * 2^-29, the floats nearest to 0.1 and to 0.01. The
    other bounds of the validation (0, 1, 2, 10, 20, 50) are floats as they
    stand. *)
Definition FLOAT_0_1 : float := 13421773 # 134217728.
Definition FLOAT_0_01 : float := 5368709 # 536870912.

(** A float array holding the given numbers. *)
Definition floats (l : list float) : list cfloat := map Num l.

Record NodeCharacter := mkNodeCharacter {
  mode_freq_mult : list cfloat;         (* float [4] *)
  mode_damping : list cfloat;           (* float [4] *)
  mode_weight : list cfloat;            (* float [4] *)
  mode_shape : list wave_shape_t;       (* wave_shape_t [4] *)
  char_personality : node_personality_t;
  poke_strength : cfloat;
  poke_duration_ms : cfloat;
  coupling_response_gain : cfloat;
  name : string;
  description : string
}.

Definition CHARACTER_VIBRANT_BASS : NodeCharacter :=
  mkNodeCharacter
    (floats [1.0%Q; 2.0%Q; 3.0%Q; 5.0%Q])
    (floats [0.3%Q; 0.5%Q; 0.8%Q; 1.2%Q])
    (floats [1.0%Q; 0.8%Q; 0.6%Q; 0.4%Q])
    [WAVE_SHAPE_SINE; WAVE_SHAPE_SINE; WAVE_SHAPE_SINE; WAVE_SHAPE_SINE]
    PERSONALITY_RESONATOR 0.7%Q 15.0%Q 0.8%Q
    "Vibrant Bass"
    "Strong harmonic bass with sustained low end".

Definition CHARACTER_DARK_NODE : NodeCharacter :=
  mkNodeCharacter
    (floats [1.0%Q; 1.5%Q; 2.2%Q; 3.1%Q])
    (floats [0.8%Q; 1.2%Q; 1.8%Q; 2.5%Q])
    (floats [0.8%Q; 0.4%Q; 0.2%Q; 0.1%Q])
    [WAVE_SHAPE_SINE; WAVE_SHAPE_SINE; WAVE_SHAPE_SINE; WAVE_SHAPE_SINE]
    PERSONALITY_RESONATOR 0.4%Q 8.0%Q 0.5%Q
    "Dark Node"
    "Muted, absorptive character with low brightness".

Definition CHARACTER_BRIGHT_BELL : NodeCharacter :=
  mkNodeCharacter
    (floats [1.0%Q; 2.76%Q; 5.40%Q; 8.93%Q])
    (floats [0.4%Q; 0.6%Q; 0.5%Q; 0.7%Q])
    (floats [0.7%Q; 0.9%Q; 1.0%Q; 0.8%Q])
    [WAVE_SHAPE_SINE; WAVE_SHAPE_SINE; WAVE_SHAPE_SINE; WAVE_SHAPE_SINE]
    PERSONALITY_RESONATOR 0.6%Q 5.0%Q 1.0%Q
    "Bright Bell"
    "Inharmonic bell-like tones with ringing highs".

Definition CHARACTER_GLASSY_SHIMMER : NodeCharacter :=
  mkNodeCharacter
    (floats [1.0%Q; 2.01%Q; 4.03%Q; 11.2%Q])
    (floats [0.5%Q; 0.6%Q; 0.7%Q; 0.4%Q])
    (floats [0.6%Q; 0.7%Q; 0.6%Q; 0.9%Q])
    [WAVE_SHAPE_SINE; WAVE_SHAPE_SINE; WAVE_SHAPE_SINE; WAVE_SHAPE_SINE]
    PERSONALITY_RESONATOR 0.5%Q 12.0%Q 0.9%Q
    "Glassy Shimmer"
    "Airy, shimmering high partials with instability".

Definition CHARACTER_DRONE_HUB : NodeCharacter :=
  mkNodeCharacter
    (floats [1.0%Q; 1.002%Q; 1.498%Q; 2.0%Q])
    (floats [0.1%Q; 0.15%Q; 0.2%Q; 0.3%Q])
    (floats [1.0%Q; 0.9%Q; 0.7%Q; 0.5%Q])
    [WAVE_SHAPE_SINE; WAVE_SHAPE_SINE; WAVE_SHAPE_SINE; WAVE_SHAPE_SINE]
    PERSONALITY_SELF_OSCILLATOR 0.3%Q 20.0%Q 1.2%Q
    "Drone Hub"
    "Self-sustaining drone with beating chorus effect".

Definition CHARACTER_METALLIC_STRIKE : NodeCharacter :=
  mkNodeCharacter
    (floats [1.0%Q; 3.14%Q; 5.87%Q; 8.23%Q])
    (floats [2.0%Q; 2.5%Q; 3.0%Q; 3.5%Q])
    (floats [0.6%Q; 0.8%Q; 1.0%Q; 0.7%Q])
    [WAVE_SHAPE_SINE; WAVE_SHAPE_SINE; WAVE_SHAPE_SINE; WAVE_SHAPE_SINE]
    PERSONALITY_RESONATOR 0.9%Q 5.0%Q 1.0%Q
    "Metallic Strike"
    "Bright inharmonic strike with fast decay".

Definition CHARACTER_WARM_PAD : NodeCharacter :=
  mkNodeCharacter
    (floats [1.0%Q; 2.0%Q; 3.0%Q; 4.0%Q])
    (floats [0.2%Q; 0.25%Q; 0.3%Q; 0.4%Q])
    (floats [1.0%Q; 0.85%Q; 0.7%Q; 0.5%Q])
    [WAVE_SHAPE_SINE; WAVE_SHAPE_SINE; WAVE_SHAPE_SINE; WAVE_SHAPE_SINE]
    PERSONALITY_RESONATOR 0.3%Q 30.0%Q 0.7%Q
    "Warm Pad"
    "Smooth sustained pad with perfect harmonics".

Definition CHARACTER_PERCUSSIVE_HIT : NodeCharacter :=
  mkNodeCharacter
    (floats [1.0%Q; 2.5%Q; 4.2%Q; 6.7%Q])
    (floats [3.0%Q; 3.5%Q; 4.0%Q; 4.5%Q])
    (floats [1.0%Q; 0.6%Q; 0.4%Q; 0.2%Q])
    [WAVE_SHAPE_SINE; WAVE_SHAPE_SINE; WAVE_SHAPE_SINE; WAVE_SHAPE_SINE]
    PERSONALITY_RESONATOR 1.0%Q 3.0%Q 0.8%Q
    "Percussive Hit"
    "Fast decay percussive strike".

Definition CHARACTER_RESONANT_BELL : NodeCharacter :=
  mkNodeCharacter
    (floats [1.0%Q; 2.0%Q; 3.0%Q; 4.0%Q])
    (floats [0.6%Q; 0.7%Q; 0.8%Q; 1.0%Q])
    (floats [1.0%Q; 0.9%Q; 0.8%Q; 0.7%Q])
    [WAVE_SHAPE_SINE; WAVE_SHAPE_SINE; WAVE_SHAPE_SINE; WAVE_SHAPE_SINE]
    PERSONALITY_RESONATOR 0.75%Q 12.0%Q 1.0%Q
    "Resonant Bell"
    "Harmonic bell with balanced sustain".

Definition CHARACTER_DEEP_RUMBLE : NodeCharacter :=
  mkNodeCharacter
    (floats [0.5%Q; 1.0%Q; 1.5%Q; 2.0%Q])
    (floats [0.5%Q; 0.6%Q; 0.8%Q; 1.0%Q])
    (floats [1.0%Q; 0.9%Q; 0.6%Q; 0.4%Q])
    [WAVE_SHAPE_SINE; WAVE_SHAPE_SINE; WAVE_SHAPE_SINE; WAVE_SHAPE_SINE]
    PERSONALITY_RESONATOR 0.6%Q 20.0%Q 0.9%Q
    "Deep Rumble"
    "Sub-bass focus with low partials".

Definition CHARACTER_HARMONIC_STACK : NodeCharacter :=
  mkNodeCharacter
    (floats [1.0%Q; 2.0%Q; 3.0%Q; 4.0%Q])
    (floats [1.0%Q; 1.0%Q; 1.0%Q; 1.0%Q])
    (floats [1.0%Q; 0.8%Q; 0.6%Q; 0.4%Q])
    [WAVE_SHAPE_SINE; WAVE_SHAPE_SINE; WAVE_SHAPE_SINE; WAVE_SHAPE_SINE]
    PERSONALITY_RESONATOR 0.65%Q 15.0%Q 1.0%Q
    "Harmonic Stack"
    "Perfect harmonic series with uniform damping".

Definition CHARACTER_DETUNED_CHORUS : NodeCharacter :=
  mkNodeCharacter
    (floats [1.0%Q; 1.99%Q; 2.98%Q; 4.03%Q])
    (floats [0.7%Q; 0.7%Q; 0.8%Q; 0.9%Q])
    (floats [1.0%Q; 0.85%Q; 0.7%Q; 0.5%Q])
    [WAVE_SHAPE_SINE; WAVE_SHAPE_SINE; WAVE_SHAPE_SINE; WAVE_SHAPE_SINE]
    PERSONALITY_RESONATOR 0.5%Q 18.0%Q 0.85%Q
    "Detuned Chorus"
    "Slightly detuned for thick chorused sound".

Definition CHARACTER_MALLET_TONE : NodeCharacter :=
  mkNodeCharacter
    (floats [1.0%Q; 2.76%Q; 4.18%Q; 5.94%Q])
    (floats [1.5%Q; 1.8%Q; 2.2%Q; 2.5%Q])
    (floats [1.0%Q; 0.7%Q; 0.5%Q; 0.3%Q])
    [WAVE_SHAPE_SINE; WAVE_SHAPE_SINE; WAVE_SHAPE_SINE; WAVE_SHAPE_SINE]
    PERSONALITY_RESONATOR 0.85%Q 8.0%Q 0.9%Q
    "Mallet Tone"
    "Wood mallet-like inharmonic character".

Definition CHARACTER_WIND_CHIME : NodeCharacter :=
  mkNodeCharacter
    (floats [3.0%Q; 4.5%Q; 6.2%Q; 8.7%Q])
    (floats [0.9%Q; 1.0%Q; 1.1%Q; 1.3%Q])
    (floats [0.7%Q; 0.8%Q; 1.0%Q; 0.8%Q])
    [WAVE_SHAPE_SINE; WAVE_SHAPE_SINE; WAVE_SHAPE_SINE; WAVE_SHAPE_SINE]
    PERSONALITY_RESONATOR 0.4%Q 14.0%Q 0.7%Q
    "Wind Chime"
    "High delicate partials, light and airy".

Definition CHARACTER_GONG_WASH : NodeCharacter :=
  mkNodeCharacter
    (floats [1.0%Q; 2.37%Q; 3.86%Q; 5.19%Q])
    (floats [0.4%Q; 0.5%Q; 0.6%Q; 0.7%Q])
    (floats [0.8%Q; 1.0%Q; 0.9%Q; 0.7%Q])
    [WAVE_SHAPE_SINE; WAVE_SHAPE_SINE; WAVE_SHAPE_SINE; WAVE_SHAPE_SINE]
    PERSONALITY_RESONATOR 0.7%Q 35.0%Q 1.1%Q
    "Gong Wash"
    "Complex inharmonic wash with long sustain".

Definition NUM_BUILTIN_CHARACTERS : Z := 15.

Definition CHARACTER_LIBRARY : list NodeCharacter :=
  [CHARACTER_VIBRANT_BASS;
   CHARACTER_DARK_NODE;
   CHARACTER_BRIGHT_BELL;
   CHARACTER_GLASSY_SHIMMER;
   CHARACTER_DRONE_HUB;
   CHARACTER_METALLIC_STRIKE;
   CHARACTER_WARM_PAD;
   CHARACTER_PERCUSSIVE_HIT;
   CHARACTER_RESONANT_BELL;
   CHARACTER_DEEP_RUMBLE;
   CHARACTER_HARMONIC_STACK;
   CHARACTER_DETUNED_CHORUS;
   CHARACTER_MALLET_TONE;
   CHARACTER_WIND_CHIME;
   CHARACTER_GONG_WASH].

Definition getCharacter (character_id : Z) : option NodeCharacter :=
  if NUM_BUILTIN_CHARACTERS <=? character_id then None
  else CHARACTER_LIBRARY !! Z.to_nat character_id.

Definition getCharacterName (character_id : Z) : string :=
  match getCharacter character_id with
  | Some character => name character
  | None => "Unknown"
  end.

#[local] Close Scope string_scope.

(** [arr[i]] of a float array. *)
Definition fget (arr : list float) (i : nat) : float := default 0%Q (arr !! i).

(** [arr[i]] of a float array of a character. *)
Definition cget (arr : list cfloat) (i : nat) : cfloat :=
  default (Num 0%Q) (arr !! i).

(** One turn of the loop of [validateCharacter]: [false] is the early
    [return false]. *)
Definition validate_mode (character : NodeCharacter) (i : nat) : bool :=
  if clt (cget (mode_freq_mult character) i) FLOAT_0_1
     || clt 20%Q (cget (mode_freq_mult character) i) then false
  else if clt (cget (mode_damping character) i) FLOAT_0_01
          || clt 10%Q (cget (mode_damping character) i) then false
  else if clt (cget (mode_weight character) i) 0%Q
          || clt 1%Q (cget (mode_weight character) i) then false
  else true.

(** The argument is a pointer: [None] is the null pointer. *)
Definition validateCharacter (character : option NodeCharacter) : bool :=
  match character with
  | None => false
  | Some character =>
      if negb (forallb (validate_mode character) (seq 0 4)) then false
      else if clt (poke_strength character) 0%Q
              || clt 1%Q (poke_strength character) then false
      else if clt (poke_duration_ms character) 1%Q
              || clt 50%Q (poke_duration_ms character) then false
      else if clt (coupling_response_gain character) FLOAT_0_1
              || clt 2%Q (coupling_response_gain character) then false
      else true
  end.

(** [for (i = 0; i < n; i++) body(i)] on a state. *)
Definition for_range {S : Type} (n : Z) (body : Z -> S -> S) (s : S) : S :=
  foldl (fun s i => body (Z.of_nat i) s) s (seq 0 (Z.to_nat n)).

(** [for (i = from; i < to; i++) body(i)] on a state. *)
Definition for_from_to {S : Type} (from to : Z) (body : Z -> S -> S) (s : S) : S :=
  foldl (fun s i => body (from + Z.of_nat i) s) s (seq 0 (Z.to_nat (to - from))).

(** The same loop when the body may fail to return. *)
Definition for_range_opt {S : Type} (n : Z) (body : Z -> S -> option S) (s : S)
  : option S :=
  foldl (fun os i => s ← os; body (Z.of_nat i) s) (Some s) (seq 0 (Z.to_nat n)).

(* ===================================================================== *)
(** ** NodeManager.h / NodeManager.cpp: the fixed 5-node network *)
(* ===================================================================== *)

Module NodeManager.

Definition NUM_NETWORK_NODES : Z := 5.

Inductive NoteRoutingMode := MidiChannel | AllNodes.

Inductive MultiExciteMode := ReTrigger | Accumulate.

Record t := mk {
  nodes_ : list ModalVoice.t;              (* ModalVoice* nodes_[5] *)
  node_character_ids_ : list Z;            (* uint8_t [5] *)
  current_characters_ : list NodeCharacter; (* NodeCharacter [5] *)
  routing_mode_ : NoteRoutingMode;
  multi_excite_mode_ : MultiExciteMode;
  active_node_count_ : Z;                  (* uint8_t *)
  note_to_node_ : list Z;                  (* uint8_t [128], 0xFF = none *)
  note_to_channel_ : list Z;               (* uint8_t [128] *)
  pitch_bend_ : float;
  sample_rate_ : float;
  initialized_ : bool;
  temp_buffer_L_ : list float;
  temp_buffer_R_ : list float;
  max_buffer_size_ : Z
}.

Definition set_nodes (nm : t) (ns : list ModalVoice.t) : t :=
  mk ns (node_character_ids_ nm) (current_characters_ nm) (routing_mode_ nm)
     (multi_excite_mode_ nm) (active_node_count_ nm) (note_to_node_ nm)
     (note_to_channel_ nm) (pitch_bend_ nm) (sample_rate_ nm)
     (initialized_ nm) (temp_buffer_L_ nm) (temp_buffer_R_ nm)
     (max_buffer_size_ nm).

Definition set_characters (nm : t) (ids : list Z) (cs : list NodeCharacter) : t :=
  mk (nodes_ nm) ids cs (routing_mode_ nm)
     (multi_excite_mode_ nm) (active_node_count_ nm) (note_to_node_ nm)
     (note_to_channel_ nm) (pitch_bend_ nm) (sample_rate_ nm)
     (initialized_ nm) (temp_buffer_L_ nm) (temp_buffer_R_ nm)
     (max_buffer_size_ nm).

Definition set_active_node_count (nm : t) (n : Z) : t :=
  mk (nodes_ nm) (node_character_ids_ nm) (current_characters_ nm)
     (routing_mode_ nm) (multi_excite_mode_ nm) n (note_to_node_ nm)
     (note_to_channel_ nm) (pitch_bend_ nm) (sample_rate_ nm)
     (initialized_ nm) (temp_buffer_L_ nm) (temp_buffer_R_ nm)
     (max_buffer_size_ nm).

Definition set_note_maps (nm : t) (to_node to_channel : list Z) : t :=
  mk (nodes_ nm) (node_character_ids_ nm) (current_characters_ nm)
     (routing_mode_ nm) (multi_excite_mode_ nm) (active_node_count_ nm)
     to_node to_channel (pitch_bend_ nm) (sample_rate_ nm)
     (initialized_ nm) (temp_buffer_L_ nm) (temp_buffer_R_ nm)
     (max_buffer_size_ nm).

Definition set_pitch_bend (nm : t) (b : float) : t :=
  mk (nodes_ nm) (node_character_ids_ nm) (current_characters_ nm)
     (routing_mode_ nm) (multi_excite_mode_ nm) (active_node_count_ nm)
     (note_to_node_ nm) (note_to_channel_ nm) b (sample_rate_ nm)
     (initialized_ nm) (temp_buffer_L_ nm) (temp_buffer_R_ nm)
     (max_buffer_size_ nm).

Definition set_temp_buffers (nm : t) (l r : list float) : t :=
  mk (nodes_ nm) (node_character_ids_ nm) (current_characters_ nm)
     (routing_mode_ nm) (multi_excite_mode_ nm) (active_node_count_ nm)
     (note_to_node_ nm) (note_to_channel_ nm) (pitch_bend_ nm)
     (sample_rate_ nm) (initialized_ nm) l r (max_buffer_size_ nm).

Definition setRoutingMode (nm : t) (mode : NoteRoutingMode) : t :=
  mk (nodes_ nm) (node_character_ids_ nm) (current_characters_ nm)
     mode (multi_excite_mode_ nm) (active_node_count_ nm)
     (note_to_node_ nm) (note_to_channel_ nm) (pitch_bend_ nm)
     (sample_rate_ nm) (initialized_ nm) (temp_buffer_L_ nm)
     (temp_buffer_R_ nm) (max_buffer_size_ nm).

Definition getRoutingMode (nm : t) : NoteRoutingMode := routing_mode_ nm.

Definition setMultiExciteMode (nm : t) (mode : MultiExciteMode) : t :=
  mk (nodes_ nm) (node_character_ids_ nm) (current_characters_ nm)
     (routing_mode_ nm) mode (active_node_count_ nm)
     (note_to_node_ nm) (note_to_channel_ nm) (pitch_bend_ nm)
     (sample_rate_ nm) (initialized_ nm) (temp_buffer_L_ nm)
     (temp_buffer_R_ nm) (max_buffer_size_ nm).

Definition getMultiExciteMode (nm : t) : MultiExciteMode := multi_excite_mode_ nm.

Definition getNodeCount (nm : t) : Z := active_node_count_ nm.

(** [nodes_[i]->method()] *)
Definition on_node (nm : t) (i : Z) (method : ModalVoice.t -> ModalVoice.t) : t :=
  set_nodes nm (alter method (Z.to_nat i) (nodes_ nm)).

(** [nodes_[i]->isActive()] *)
Definition node_isActive (nm : t) (i : Z) : bool :=
  match nodes_ nm !! Z.to_nat i with
  | Some v => ModalVoice.isActive v
  | None => false
  end.

Definition getNode (nm : t) (node_idx : Z) : option ModalVoice.t :=
  if NUM_NETWORK_NODES <=? node_idx then None
  else nodes_ nm !! Z.to_nat node_idx.

Definition getNodeCharacterID (nm : t) (node_idx : Z) : Z :=
  if NUM_NETWORK_NODES <=? node_idx then 255
  else default 255 (node_character_ids_ nm !! Z.to_nat node_idx).

Definition releaseNode (nm : t) (node_idx : Z) : t :=
  if NUM_NETWORK_NODES <=? node_idx then nm
  else on_node nm node_idx ModalVoice.noteOff.

Definition noteOff (nm : t) (midi_note : Z) : t :=
  if 127 <? midi_note then nm
  else
    let node_idx := default 255 (note_to_node_ nm !! Z.to_nat midi_note) in
    if node_idx <? NUM_NETWORK_NODES then
      let nm := on_node nm node_idx ModalVoice.noteOff in
      set_note_maps nm (<[Z.to_nat midi_note := 255]> (note_to_node_ nm))
        (note_to_channel_ nm)
    else nm.

Definition allNotesOff (nm : t) : t :=
  let nm := for_range NUM_NETWORK_NODES
              (fun i nm =>
                 if node_isActive nm i then on_node nm i ModalVoice.noteOff
                 else nm) nm in
  set_note_maps nm (replicate 128 255) (note_to_channel_ nm).

Definition setNodeCount (nm : t) (count : Z) : t :=
  let count := if count <? 1 then 1 else count in
  let count := if NUM_NETWORK_NODES <? count then NUM_NETWORK_NODES else count in
  let nm := allNotesOff nm in
  let nm := for_from_to count NUM_NETWORK_NODES
              (fun i nm => on_node nm i ModalVoice.reset) nm in
  set_active_node_count nm count.

Definition setGlobalDamping (nm : t) (damping : float) : t :=
  if negb (initialized_ nm) then nm
  else for_range NUM_NETWORK_NODES
         (fun i nm => on_node nm i (fun v => ModalVoice.setGlobalDamping v damping))
         nm.

Definition setModeWaveShape (nm : t) (node_idx mode_idx : Z) (shape : wave_shape_t) : t :=
  if NUM_NETWORK_NODES <=? node_idx then nm
  else if MAX_MODES <=? mode_idx then nm
  else on_node nm node_idx
         (fun v => ModalVoice.set_node v
            (set_modes (ModalVoice.node_ v)
               (alter (fun m => set_shape m shape) (Z.to_nat mode_idx)
                  (modes (ModalVoice.node_ v))))).

Definition getModeWaveShape (nm : t) (node_idx mode_idx : Z) : wave_shape_t :=
  if NUM_NETWORK_NODES <=? node_idx then WAVE_SHAPE_SINE
  else if MAX_MODES <=? mode_idx then WAVE_SHAPE_SINE
  else match nodes_ nm !! Z.to_nat node_idx with
       | Some v => shape (params (mode_at (ModalVoice.node_ v) mode_idx))
       | None => WAVE_SHAPE_SINE
       end.

Definition applyCharacterToNode (nm : t) (node_idx : Z) (character : NodeCharacter) : t :=
  if negb (initialized_ nm) then nm
  else
    let nm := on_node nm node_idx
                (fun v => ModalVoice.setPersonality v (char_personality character)) in
    let nm := on_node nm node_idx
                (fun v => ModalVoice.set_node v
                   (set_modes (ModalVoice.node_ v)
                      (imap (fun i m =>
                               set_shape m
                                 (default WAVE_SHAPE_SINE (mode_shape character !! i)))
                            (modes (ModalVoice.node_ v))))) in
    set_characters nm (node_character_ids_ nm)
      (<[Z.to_nat node_idx := character]> (current_characters_ nm)).

Definition setNodeCharacter (nm : t) (node_idx character_id : Z) : t :=
  if NUM_NETWORK_NODES <=? node_idx then nm
  else if NUM_BUILTIN_CHARACTERS <=? character_id then nm
  else
    let character := CHARACTER_LIBRARY !! Z.to_nat character_id in
    if negb (validateCharacter character) then nm
    else match character with
         | None => nm
         | Some c =>
             let nm := set_characters nm
                         (<[Z.to_nat node_idx := character_id]> (node_character_ids_ nm))
                         (<[Z.to_nat node_idx := c]> (current_characters_ nm)) in
             applyCharacterToNode nm node_idx c
         end.

Definition setNodeCharacterCustom (nm : t) (node_idx : Z)
    (character : option NodeCharacter) : t :=
  if NUM_NETWORK_NODES <=? node_idx then nm
  else if negb (validateCharacter character) then nm
  else match character with
       | None => nm
       | Some c =>
           let nm := set_characters nm
                       (<[Z.to_nat node_idx := 255]> (node_character_ids_ nm))
                       (<[Z.to_nat node_idx := c]> (current_characters_ nm)) in
           applyCharacterToNode nm node_idx c
       end.

(** [target_nodes] is the caller's array; the result is the array after
    the call and the number of targets. The [default] branch of the
    source's switch is not reachable with the two routing modes. *)
Definition routeNoteToNodes (nm : t) (midi_note midi_channel : Z)
    (target_nodes : list Z) : list Z * Z :=
  match routing_mode_ nm with
  | MidiChannel =>
      let node_idx := to_uint8 (midi_channel mod active_node_count_ nm) in
      (<[0%nat := node_idx]> target_nodes, 1)
  | AllNodes =>
      (for_range (active_node_count_ nm)
         (fun i tn => <[Z.to_nat i := i]> tn) target_nodes,
       active_node_count_ nm)
  end.

Definition getActiveNodeCount (nm : t) : Z :=
  for_range NUM_NETWORK_NODES
    (fun i count => if node_isActive nm i then count + 1 else count) 0.

Definition isNodeActive (nm : t) (node_idx : Z) : bool :=
  if NUM_NETWORK_NODES <=? node_idx then false
  else node_isActive nm node_idx.

Section WithCore.
Context {core : ModalCore}.

(** The constructor. [current_characters_] starts with indeterminate
    contents, here [junk]; the temporary buffers are not allocated yet. *)
Definition new (junk : NodeCharacter) : t :=
  mk (map (fun i => ModalVoice.new (Z.of_nat i)) (seq 0 5))
     (map Z.of_nat (seq 0 5))
     (replicate 5 junk)
     MidiChannel Accumulate 5
     (replicate 128 255) (replicate 128 255)
     0%Q 48000%Q false [] [] 0.

Definition initialize (nm : t) (sample_rate : float) : t :=
  let nm := mk (nodes_ nm) (node_character_ids_ nm) (current_characters_ nm)
               (routing_mode_ nm) (multi_excite_mode_ nm)
               (active_node_count_ nm) (note_to_node_ nm)
               (note_to_channel_ nm) (pitch_bend_ nm) sample_rate
               (initialized_ nm) (temp_buffer_L_ nm) (temp_buffer_R_ nm)
               (max_buffer_size_ nm) in
  let nm := for_range NUM_NETWORK_NODES
              (fun i nm =>
                 let nm := on_node nm i
                             (fun v => ModalVoice.initialize v sample_rate) in
                 setNodeCharacter nm i
                   (default 255 (node_character_ids_ nm !! Z.to_nat i)))
              nm in
  mk (nodes_ nm) (node_character_ids_ nm) (current_characters_ nm)
     (routing_mode_ nm) (multi_excite_mode_ nm)
     (active_node_count_ nm) (note_to_node_ nm)
     (note_to_channel_ nm) (pitch_bend_ nm) (sample_rate_ nm)
     true (replicate 2048 0%Q) (replicate 2048 0%Q) 2048.

Definition exciteNode (nm : t) (node_idx midi_note : Z) (velocity : float) : t :=
  if NUM_NETWORK_NODES <=? node_idx then nm
  else
    match current_characters_ nm !! Z.to_nat node_idx with
    | None => nm
    | Some character =>
        let effective_velocity := (velocity * cval (poke_strength character))%Q in
        on_node nm node_idx
          (fun node =>
             let node := ModalVoice.noteOn node midi_note effective_velocity in
             let node := ModalVoice.setPitchBend node (pitch_bend_ nm) in
             let base_freq := ModalVoice.getBaseFrequency node in
             let node :=
               for_range 4
                 (fun mode_idx node =>
                    ModalVoice.setMode node mode_idx
                      (base_freq
                       * cval (cget (mode_freq_mult character) (Z.to_nat mode_idx)))%Q
                      (cval (cget (mode_damping character) (Z.to_nat mode_idx)))
                      (cval (cget (mode_weight character) (Z.to_nat mode_idx))))
                 node in
             ModalVoice.setPersonality node (char_personality character))
    end.

Definition noteOn (nm : t) (midi_note : Z) (velocity : float) (midi_channel : Z) : t :=
  if negb (initialized_ nm) || (127 <? midi_note) then nm
  else
    let '(target_nodes, num_targets) :=
      routeNoteToNodes nm midi_note midi_channel
        (replicate (Z.to_nat NUM_NETWORK_NODES) 0) in
    let nm :=
      for_range num_targets
        (fun i nm =>
           let node_idx := default 0 (target_nodes !! Z.to_nat i) in
           let node_is_active := node_isActive nm node_idx in
           let nm :=
             match multi_excite_mode_ nm with
             | ReTrigger =>
                 if node_is_active then on_node nm node_idx ModalVoice.reset
                 else nm
             | Accumulate => nm
             end in
           exciteNode nm node_idx midi_note velocity)
        nm in
    if 0 <? num_targets then
      set_note_maps nm
        (<[Z.to_nat midi_note := default 0 (target_nodes !! 0%nat)]> (note_to_node_ nm))
        (<[Z.to_nat midi_note := midi_channel]> (note_to_channel_ nm))
    else nm.

Definition setPitchBend (nm : t) (bend_amount : float) : t :=
  let nm := set_pitch_bend nm bend_amount in
  for_range NUM_NETWORK_NODES
    (fun i nm =>
       if node_isActive nm i then
         on_node nm i (fun v => ModalVoice.setPitchBend v bend_amount)
       else nm)
    nm.

Definition updateNodes (nm : t) : t :=
  if negb (initialized_ nm) then nm
  else for_range (active_node_count_ nm)
         (fun i nm =>
            if node_isActive nm i then on_node nm i ModalVoice.updateModal
            else nm)
         nm.

(** [mem] is the memory the output pointers [outL], [outR] point into. *)
Definition renderAudio (nm : t) (mem : list float) (outL outR num_frames : Z)
  : option (t * list float) :=
  if negb (initialized_ nm) then
    Some (nm, memset_zero (memset_zero mem outL num_frames) outR num_frames)
  else
    let mem := memset_zero (memset_zero mem outL num_frames) outR num_frames in
    let num_frames :=
      if max_buffer_size_ nm <? num_frames then max_buffer_size_ nm
      else num_frames in
    for_range_opt (active_node_count_ nm)
      (fun i '(nm, mem) =>
         match nodes_ nm !! Z.to_nat i with
         | None => Some (nm, mem)
         | Some v =>
             if negb (ModalVoice.isActive v) then Some (nm, mem)
             else
               '(v, l, r) ← ModalVoice.renderAudio v (temp_buffer_L_ nm)
                              (temp_buffer_R_ nm) num_frames;
               let nm := set_nodes nm (<[Z.to_nat i := v]> (nodes_ nm)) in
               let nm := set_temp_buffers nm l r in
               Some (nm, mix_into mem outL outR l r num_frames)
         end)
      (nm, mem).

End WithCore.

End NodeManager.

(* ===================================================================== *)
(** ** VoiceAllocator.h / VoiceAllocator.cpp: the polyphonic voice pool *)
(* ===================================================================== *)

Module VoiceAllocator.

Definition DEFAULT_MAX_POLYPHONY : Z := 16.

Record ModeParams := mkModeParams {
  freq_multiplier : float;
  damping : float;
  mweight : float                     (* weight *)
}.

Record t := mk {
  voices_ : list ModalVoice.t;        (* ModalVoice** voices_ *)
  max_polyphony_ : Z;                 (* uint32_t *)
  active_node_count_ : Z;             (* uint32_t *)
  note_to_voice_ : list Z;            (* int8_t [128], -1 = none *)
  pitch_bend_ : float;
  personality_ : node_personality_t;
  mode_params_ : list ModeParams;     (* ModeParams [4] *)
  poke_strength_ : float;
  poke_duration_ms_ : float;
  max_buffer_size_ : Z;
  sample_rate_ : float;
  initialized_ : bool
}.

Definition set_voices (va : t) (vs : list ModalVoice.t) : t :=
  mk vs (max_polyphony_ va) (active_node_count_ va) (note_to_voice_ va)
     (pitch_bend_ va) (personality_ va) (mode_params_ va) (poke_strength_ va)
     (poke_duration_ms_ va) (max_buffer_size_ va) (sample_rate_ va)
     (initialized_ va).

Definition set_note_to_voice (va : t) (m : list Z) : t :=
  mk (voices_ va) (max_polyphony_ va) (active_node_count_ va) m
     (pitch_bend_ va) (personality_ va) (mode_params_ va) (poke_strength_ va)
     (poke_duration_ms_ va) (max_buffer_size_ va) (sample_rate_ va)
     (initialized_ va).

Definition set_active_node_count (va : t) (n : Z) : t :=
  mk (voices_ va) (max_polyphony_ va) n (note_to_voice_ va)
     (pitch_bend_ va) (personality_ va) (mode_params_ va) (poke_strength_ va)
     (poke_duration_ms_ va) (max_buffer_size_ va) (sample_rate_ va)
     (initialized_ va).

(** [voices_[i]->method()] *)
Definition on_voice (va : t) (i : Z) (method : ModalVoice.t -> ModalVoice.t) : t :=
  set_voices va (alter method (Z.to_nat i) (voices_ va)).

(** [voices_[i]->isActive()] *)
Definition voice_isActive (va : t) (i : Z) : bool :=
  match voices_ va !! Z.to_nat i with
  | Some v => ModalVoice.isActive v
  | None => false
  end.

(** [voices_[i]->getAge()] *)
Definition voice_age (va : t) (i : Z) : Z :=
  match voices_ va !! Z.to_nat i with
  | Some v => ModalVoice.getAge v
  | None => 0
  end.

(** A [ModalVoice*] into the pool is the index of the voice; [None] is
    [nullptr]. *)
Definition getVoice (va : t) (voice_idx : Z) : option Z :=
  if max_polyphony_ va <=? voice_idx then None else Some voice_idx.

Definition getActiveVoiceCount (va : t) : Z :=
  for_range (max_polyphony_ va)
    (fun i count => if voice_isActive va i then count + 1 else count) 0.

(** The loop returns at the first inactive voice. *)
Definition findFreeVoice (va : t) : option Z :=
  for_range (active_node_count_ va)
    (fun i found =>
       match found with
       | Some _ => found
       | None => if negb (voice_isActive va i) then Some i else None
       end)
    None.

(** The loop of [stealOldestVoice] on its two locals [oldest], [max_age]. *)
Definition oldest_scan (va : t) : option Z * Z :=
  for_range (active_node_count_ va)
    (fun i '(oldest, max_age) =>
       if voice_isActive va i then
         let age := voice_age va i in
         if max_age <? age then (Some i, age) else (oldest, max_age)
       else (oldest, max_age))
    (None, 0).

Definition stealOldestVoice (va : t) : t * option Z :=
  let oldest := fst (oldest_scan va) in
  match oldest with
  | Some i => (on_voice va i ModalVoice.reset, oldest)
  | None => (va, oldest)
  end.

Definition noteOff (va : t) (midi_note : Z) : t :=
  if 127 <? midi_note then va
  else
    let voice_idx := default (-1) (note_to_voice_ va !! Z.to_nat midi_note) in
    if (0 <=? voice_idx) && (voice_idx <? to_int8 (max_polyphony_ va)) then
      let va := on_voice va voice_idx ModalVoice.noteOff in
      set_note_to_voice va (<[Z.to_nat midi_note := -1]> (note_to_voice_ va))
    else va.

Definition allNotesOff (va : t) : t :=
  let va := for_range (max_polyphony_ va)
              (fun i va =>
                 if voice_isActive va i then on_voice va i ModalVoice.noteOff
                 else va) va in
  set_note_to_voice va (replicate 128 (-1)).

Definition setNodeCount (va : t) (node_count : Z) : t :=
  let node_count := if node_count <? 1 then 1 else node_count in
  let node_count :=
    if max_polyphony_ va <? node_count then max_polyphony_ va else node_count in
  let va :=
    if node_count <? active_node_count_ va then
      for_from_to node_count (max_polyphony_ va)
        (fun i va =>
           if voice_isActive va i then
             let va := on_voice va i ModalVoice.reset in
             set_note_to_voice va
               (map (fun x => if x =? to_int8 i then -1 else x) (note_to_voice_ va))
           else va)
        va
    else va in
  set_active_node_count va node_count.

Section WithCore.
Context {core : ModalCore}.

Definition new (max_polyphony : Z) : t :=
  mk (map (fun i => ModalVoice.new (to_uint8 (Z.of_nat i)))
          (seq 0 (Z.to_nat max_polyphony)))
     max_polyphony max_polyphony
     (replicate 128 (-1))
     0%Q PERSONALITY_RESONATOR
     [mkModeParams 1.0%Q 1.0%Q 1.0%Q; mkModeParams 2.0%Q 1.2%Q 0.8%Q;
      mkModeParams 3.0%Q 1.5%Q 0.6%Q; mkModeParams 4.5%Q 2.0%Q 0.4%Q]
     0.5%Q 10.0%Q 0 48000%Q false.

Definition initialize (va : t) (sample_rate : float) : t :=
  let va := for_range (max_polyphony_ va)
              (fun i va => on_voice va i (fun v => ModalVoice.initialize v sample_rate))
              va in
  mk (voices_ va) (max_polyphony_ va) (active_node_count_ va)
     (note_to_voice_ va) (pitch_bend_ va) (personality_ va) (mode_params_ va)
     (poke_strength_ va) (poke_duration_ms_ va) 2048 sample_rate true.

(** The block both branches of [noteOn] run on the chosen voice: the
    voice's own note-on, then pitch bend, personality and the stored
    mode parameters relative to the new base frequency. *)
Definition trigger (va : t) (voice : ModalVoice.t) (midi_note : Z) (velocity : float)
  : ModalVoice.t :=
  let voice := ModalVoice.noteOn voice midi_note velocity in
  let voice := ModalVoice.setPitchBend voice (pitch_bend_ va) in
  let voice := ModalVoice.setPersonality voice (personality_ va) in
  let base_freq := ModalVoice.getBaseFrequency voice in
  for_range 4
    (fun mode_idx voice =>
       match mode_params_ va !! Z.to_nat mode_idx with
       | Some mp =>
           ModalVoice.setMode voice mode_idx
             (base_freq * freq_multiplier mp)%Q (damping mp) (mweight mp)
       | None => voice
       end)
    voice.

(** The result pairs the allocator after the call with the returned
    voice pointer. The search [voices_[i] == voice] that updates the map
    finds the index of the chosen voice itself. *)
Definition noteOn (va : t) (midi_note : Z) (velocity : float) : t * option Z :=
  if negb (initialized_ va) || (127 <? midi_note) then (va, None)
  else
    let existing_voice := default (-1) (note_to_voice_ va !! Z.to_nat midi_note) in
    if 0 <=? existing_voice then
      (on_voice va existing_voice (fun v => trigger va v midi_note velocity),
       Some existing_voice)
    else
      let '(va, voice) :=
        match findFreeVoice va with
        | Some i => (va, Some i)
        | None => stealOldestVoice va
        end in
      match voice with
      | Some i =>
          let va := on_voice va i (fun v => trigger va v midi_note velocity) in
          (set_note_to_voice va
             (<[Z.to_nat midi_note := to_int8 i]> (note_to_voice_ va)),
           Some i)
      | None => (va, None)
      end.

Definition setPitchBend (va : t) (bend_amount : float) : t :=
  let va := mk (voices_ va) (max_polyphony_ va) (active_node_count_ va)
               (note_to_voice_ va) bend_amount (personality_ va)
               (mode_params_ va) (poke_strength_ va) (poke_duration_ms_ va)
               (max_buffer_size_ va) (sample_rate_ va) (initialized_ va) in
  for_range (max_polyphony_ va)
    (fun i va =>
       if voice_isActive va i then
         on_voice va i (fun v => ModalVoice.setPitchBend v bend_amount)
       else va)
    va.

Definition updateVoices (va : t) : t :=
  if negb (initialized_ va) then va
  else for_range (max_polyphony_ va)
         (fun i va =>
            if voice_isActive va i then on_voice va i ModalVoice.updateModal
            else va)
         va.

End WithCore.

End VoiceAllocator.

(* ===================================================================== *)
(** ** TopologyEngine: the coupling network, as the engine uses it *)
(* ===================================================================== *)

Module TopologyType.
(** Modelled from the spec: TopologyEngine.h is not among the sources; the
    supported types are "Ring, SmallWorld, Clustered, HubSpoke, Random,
    Complete, None". *)
Inductive t := Ring | SmallWorld | Clustered | HubSpoke | Random | Complete | None.
End TopologyType.

(** The engine calls the topology engine through these operations only; the
    coupling updates work on the voices they are handed ([nodePointers_] and
    their number). *)
Class Topology := {
  TopologyEngine : Type;
  TopologyEngine_new : Z -> TopologyEngine;
  generateTopology : TopologyEngine -> TopologyType.t -> float -> TopologyEngine;
  updateCoupling :
    TopologyEngine -> list ModalVoice.t -> Z -> TopologyEngine * list ModalVoice.t;
  updateCouplingComplex :
    TopologyEngine -> list ModalVoice.t -> Z -> TopologyEngine * list ModalVoice.t
}.

(* ===================================================================== *)
(** ** SynthEngine.h / SynthEngine.cpp: the event-driven engine *)
(* ===================================================================== *)

Module SynthEngine.

Definition kParam_BodySize : Z := 0.
Definition kParam_Material : Z := 1.
Definition kParam_Excite : Z := 2.
Definition kParam_Morph : Z := 3.
Definition kParam_Mix : Z := 4.

Definition CONTROL_RATE_SAMPLES : Z := 240.

(** The cached legacy parameters: set by the constructor, and of them only
    [masterGain_] and [couplingStrength_] are read (by [prepare]). *)
Record ParameterCache := mkCache {
  masterGain_ : float;
  couplingStrength_ : float;
  topologyType_ : Z;
  node_character_ : list Z;           (* node0_character_ .. node4_character_ *)
  noteRouting_ : Z;
  multiExcite_ : Z;
  mode_frequency_ : list float;       (* mode0_frequency_ .. mode3_frequency_ *)
  mode_damping_ : list float;
  mode_weight_ : list float;
  pokeStrength_ : float;
  pokeDuration_ : float;
  personality_ : float
}.

Section WithCore.
Context {core : ModalCore} {topo : Topology}.

(** [nodePointers_] is scratch space refilled before each use and has no
    field here. *)
Record t := mk {
  nodeManager_ : NodeManager.t;
  topologyEngine_ : TopologyEngine;
  sampleRate_ : float;              (* double *)
  maxFrames_ : Z;
  channels_ : Z;
  initialized_ : bool;
  controlRateCounter_ : Z;          (* uint32_t *)
  bodySize_ : float;
  material_ : float;
  excite_ : float;
  morph_ : float;
  mix_ : float;
  couplingMode_ : ModalVoice.CouplingMode;
  cache_ : ParameterCache
}.

Definition set_nodeManager (e : t) (nm : NodeManager.t) : t :=
  mk nm (topologyEngine_ e) (sampleRate_ e) (maxFrames_ e) (channels_ e)
     (initialized_ e) (controlRateCounter_ e) (bodySize_ e) (material_ e)
     (excite_ e) (morph_ e) (mix_ e) (couplingMode_ e) (cache_ e).

Definition set_topologyEngine (e : t) (te : TopologyEngine) : t :=
  mk (nodeManager_ e) te (sampleRate_ e) (maxFrames_ e) (channels_ e)
     (initialized_ e) (controlRateCounter_ e) (bodySize_ e) (material_ e)
     (excite_ e) (morph_ e) (mix_ e) (couplingMode_ e) (cache_ e).

Definition set_controlRateCounter (e : t) (n : Z) : t :=
  mk (nodeManager_ e) (topologyEngine_ e) (sampleRate_ e) (maxFrames_ e)
     (channels_ e) (initialized_ e) n (bodySize_ e) (material_ e)
     (excite_ e) (morph_ e) (mix_ e) (couplingMode_ e) (cache_ e).

Definition set_effect_params (e : t) (bodySize material excite morph mix : float) : t :=
  mk (nodeManager_ e) (topologyEngine_ e) (sampleRate_ e) (maxFrames_ e)
     (channels_ e) (initialized_ e) (controlRateCounter_ e)
     bodySize material excite morph mix (couplingMode_ e) (cache_ e).

Definition setCouplingMode (e : t) (mode : ModalVoice.CouplingMode) : t :=
  mk (nodeManager_ e) (topologyEngine_ e) (sampleRate_ e) (maxFrames_ e)
     (channels_ e) (initialized_ e) (controlRateCounter_ e) (bodySize_ e)
     (material_ e) (excite_ e) (morph_ e) (mix_ e) mode (cache_ e).

Definition getCouplingMode (e : t) : ModalVoice.CouplingMode := couplingMode_ e.

Definition getMaxPolyphony (e : t) : Z := 5.

Definition getSampleRate (e : t) : float := sampleRate_ e.

(** The constructor ([maxPolyphony] is ignored). [junk] is the
    indeterminate content the node manager starts with. *)
Definition new (maxPolyphony : Z) (junk : NodeCharacter) : t :=
  mk (NodeManager.new junk) (TopologyEngine_new 5) 44100%Q 0 2 false 0
     0.5%Q 0.5%Q 0.5%Q 0.0%Q 0.5%Q ModalVoice.ComplexDiffusion
     (mkCache 0.7%Q 0.3%Q 0 [0; 1; 2; 3; 4] 0 1
        [1.0%Q; 2.0%Q; 3.0%Q; 4.5%Q] [1.0%Q; 1.2%Q; 1.5%Q; 2.0%Q]
        [1.0%Q; 0.8%Q; 0.6%Q; 0.4%Q] 0.5%Q 10.0%Q 0.0%Q).

Definition prepare (e : t) (sampleRate : float) (maxFrames channels : Z) : t :=
  let nm := NodeManager.initialize (nodeManager_ e) sampleRate in
  let nm := for_range 5 (fun i nm => NodeManager.setNodeCharacter nm i i) nm in
  let te := generateTopology (topologyEngine_ e) TopologyType.Ring
              (couplingStrength_ (cache_ e)) in
  let global_damping := (1 - masterGain_ (cache_ e))%Q in
  let nm := NodeManager.setGlobalDamping nm global_damping in
  mk nm te sampleRate maxFrames channels true (controlRateCounter_ e)
     (bodySize_ e) (material_ e) (excite_ e) (morph_ e) (mix_ e)
     (couplingMode_ e) (cache_ e).

Definition reset (e : t) : t :=
  if negb (initialized_ e) then e
  else
    let e := set_nodeManager e (NodeManager.allNotesOff (nodeManager_ e)) in
    set_controlRateCounter e 0.

Definition setParameter (e : t) (paramId : Z) (value : float) : t :=
  if paramId =? kParam_BodySize then
    set_effect_params e value (material_ e) (excite_ e) (morph_ e) (mix_ e)
  else if paramId =? kParam_Material then
    set_effect_params e (bodySize_ e) value (excite_ e) (morph_ e) (mix_ e)
  else if paramId =? kParam_Excite then
    set_effect_params e (bodySize_ e) (material_ e) value (morph_ e) (mix_ e)
  else if paramId =? kParam_Morph then
    set_effect_params e (bodySize_ e) (material_ e) (excite_ e) value (mix_ e)
  else if paramId =? kParam_Mix then
    set_effect_params e (bodySize_ e) (material_ e) (excite_ e) (morph_ e) value
  else e.

Definition getParameter (e : t) (paramId : Z) : float :=
  if paramId =? kParam_BodySize then bodySize_ e
  else if paramId =? kParam_Material then material_ e
  else if paramId =? kParam_Excite then excite_ e
  else if paramId =? kParam_Morph then morph_ e
  else if paramId =? kParam_Mix then mix_ e
  else 0.0%Q.

Definition processEvent (e : t) (event : SynthEvent) : t :=
  match data event with
  | noteOn_data note velocity chan =>
      set_nodeManager e (NodeManager.noteOn (nodeManager_ e) note velocity chan)
  | noteOff_data note =>
      set_nodeManager e (NodeManager.noteOff (nodeManager_ e) note)
  | pitchBend_data value =>
      set_nodeManager e (NodeManager.setPitchBend (nodeManager_ e) value)
  | cc_data _ _ => e
  | parameter_data paramId value => setParameter e paramId value
  end.

Definition updateControlRate (e : t) : t :=
  let nm := NodeManager.updateNodes (nodeManager_ e) in
  let '(te, nodes) :=
    match couplingMode_ e with
    | ModalVoice.ComplexDiffusion =>
        updateCouplingComplex (topologyEngine_ e) (NodeManager.nodes_ nm) 5
    | ModalVoice.MagnitudePressure =>
        updateCoupling (topologyEngine_ e) (NodeManager.nodes_ nm) 5
    end in
  set_topologyEngine (set_nodeManager e (NodeManager.set_nodes nm nodes)) te.

(** [mem] is the memory the output pointers point into; [outL], [outR]
    are addresses in it. [startFrame] is not used by the source either. *)
Definition renderSlice (e : t) (mem : list float) (outL outR startFrame numFrames : Z)
  : option (t * list float) :=
  let e := set_controlRateCounter e (to_uint32 (controlRateCounter_ e + numFrames)) in
  let e :=
    if CONTROL_RATE_SAMPLES <=? controlRateCounter_ e then
      set_controlRateCounter (updateControlRate e) 0
    else e in
  '(nm, mem) ← NodeManager.renderAudio (nodeManager_ e) mem outL outR numFrames;
  Some (set_nodeManager e nm, mem).

(** The loop of [render] over the events [events[i]], [i < count()],
    on the engine, the memory and the local [lastOffset]. *)
Fixpoint render_events (events : list SynthEvent) (outL outR numFrames : Z)
    (e : t) (mem : list float) (lastOffset : Z) : option (t * list float * Z) :=
  match events with
  | [] => Some (e, mem, lastOffset)
  | event :: events' =>
      let offset := sampleOffset event in
      let offset := if offset <? 0 then 0 else offset in
      let offset :=
        if to_int32 numFrames <? offset then to_int32 numFrames else offset in
      '(e, mem) ←
        (if to_int32 lastOffset <? offset then
           let sliceFrames := to_uint32 (offset - lastOffset) in
           renderSlice e mem (outL + lastOffset) (outR + lastOffset)
             lastOffset sliceFrames
         else Some (e, mem));
      let e := processEvent e event in
      render_events events' outL outR numFrames e mem (to_uint32 offset)
  end.

Definition render (e : t) (mem : list float) (events : EventQueue.t)
    (outL outR numFrames : Z) : option (t * list float) :=
  if negb (initialized_ e) then
    let mem := memset_zero mem outL numFrames in
    Some (e, if negb (outR =? outL) then memset_zero mem outR numFrames else mem)
  else
    '(e, mem, lastOffset) ←
      render_events (EventQueue.contents events) outL outR numFrames e mem 0;
    if lastOffset <? numFrames then
      renderSlice e mem (outL + lastOffset) (outR + lastOffset) lastOffset
        (numFrames - lastOffset)
    else Some (e, mem).

End WithCore.

End SynthEngine.

(* ===================================================================== *)
(** ** A reference implementation of the numeric primitives *)
(* ===================================================================== *)

(** The concrete examples below need one implementation of [ModalCore] and
    [Topology] to run on. This one follows the descriptions of the
    operations and replaces exponentials, powers and oscillators by rational
    stand-ins; the general statements do not depend on it. *)
Module Reference.

(** Twelve-tone equal temperament: octaves exactly, the semitones within an
    octave from a table of ratios. *)
Definition semitone_ratio (k : Z) : float :=
  default 1%Q
    ([1%Q; 1.059463%Q; 1.122462%Q; 1.189207%Q; 1.259921%Q; 1.334840%Q;
      1.414214%Q; 1.498307%Q; 1.587401%Q; 1.681793%Q; 1.781797%Q; 1.887749%Q]
       !! Z.to_nat k).

Definition midi_to_freq (note : Z) : float :=
  (440 * Qpower 2 ((note - 69) / 12) * semitone_ratio ((note - 69) mod 12))%Q.

Definition freq_to_omega (freq_hz : float) : float :=
  (2 * (355 # 113) * freq_hz)%Q.

(** Exact at the exponents 0 and 1, linear in between. *)
Definition powf (x y : float) : float := (1 + (x - 1) * y)%Q.

Definition modal_node_init (node_id : Z) (p : node_personality_t) : modal_node_t :=
  mk_modal_node node_id p
    (replicate (Z.to_nat MAX_MODES) mode_state_zero)
    (mk_excitation 0%Q 0%Q 0%Q 0%Q false)
    1%Q 0%Q 0 (replicate (Z.to_nat MAX_NEIGHBORS) 0) 0%Q 1%Q 0 false.

Definition modal_node_set_mode (node : modal_node_t) (mode_idx : Z)
    (omega gamma weight : float) : modal_node_t :=
  set_modes node
    (alter (fun m =>
              mk_mode_state (a m) (a_dot m)
                (mk_mode_params omega gamma weight (shape (params m)) true))
           (Z.to_nat mode_idx) (modes node)).

(** One control step: each active mode decays by the factor
    [1 / (1 + (gamma + global_damping) * dt)]. *)
Definition modal_node_step (node : modal_node_t) : modal_node_t :=
  mk_modal_node (node_id node) (personality node)
    (map (fun m =>
            if active (params m) then
              set_a m (ModalVoice.cscale (a m)
                         (/ (1 + (gamma (params m) + global_damping node) * CONTROL_DT))%Q)
            else m)
         (modes node))
    (excitation node) (coupling_strength node) (global_damping node)
    (num_neighbors node) (neighbor_ids node) (carrier_freq_hz node)
    (audio_gain node) (to_uint32 (step_count node + 1)) (running node).

(** "Injects excitation as an additive term to each active mode's
    amplitude, scaled by per-mode weight" (on the real axis). *)
Definition modal_node_apply_poke (node : modal_node_t) (poke : poke_event_t)
  : modal_node_t :=
  set_modes node
    (imap (fun k m =>
             if active (params m) then
               set_a m (ModalVoice.cadd_real (a m)
                          (strength poke * fget (mode_weights poke) k)%Q)
             else m)
          (modes node)).

Definition modal_node_start (node : modal_node_t) : modal_node_t :=
  mk_modal_node (node_id node) (personality node) (modes node)
    (excitation node) (coupling_strength node) (global_damping node)
    (num_neighbors node) (neighbor_ids node) (carrier_freq_hz node)
    (audio_gain node) (step_count node) true.

(** Every sample is the node's amplitude, limited to 1. *)
Definition audio_synth_render (synth : audio_synth_t) (node : modal_node_t)
    (outL outR : list float) (num_frames : Z)
  : audio_synth_t * list float * list float :=
  let x := modal_node_get_amplitude node in
  let x := if flt 1%Q x then 1%Q else x in
  let fill buf := foldl (fun b j => <[j := x]> b) buf (seq 0 (Z.to_nat num_frames)) in
  (synth, fill outL, fill outR).

Definition core : ModalCore :=
  Build_ModalCore midi_to_freq freq_to_omega powf modal_node_init
    modal_node_set_mode modal_node_step modal_node_apply_poke
    modal_node_start audio_synth_render.

(** A network without coupling: the updates leave the voices as they are. *)
Definition topology : Topology :=
  Build_Topology unit (fun _ => tt) (fun te _ _ => te)
    (fun te voices _ => (te, voices)) (fun te voices _ => (te, voices)).

End Reference.

(* ===================================================================== *)
(** ** The vocabulary of the specification *)
(* ===================================================================== *)

(** The frames [p, p + n) of a buffer at address [p]. *)
Definition in_frames (p n : Z) (j : nat) : Prop := p <= Z.of_nat j < p + n.

(** The defined parameter ids: [kParam_BodySize] .. [kParam_Mix]. *)
Definition defined_param (paramId : Z) : Prop :=
  paramId = SynthEngine.kParam_BodySize \/ paramId = SynthEngine.kParam_Material
  \/ paramId = SynthEngine.kParam_Excite \/ paramId = SynthEngine.kParam_Morph \/ paramId = SynthEngine.kParam_Mix.

(** A field within [lo, hi]: a number between the bounds. A NaN is within
    no range. *)
Definition in_range (lo hi : float) (x : cfloat) : Prop :=
  match x with
  | Num x => (lo <= x <= hi)%Q
  | NaN => False
  end.

(** What the two comparisons of [validateCharacter] let through: a field
    that is neither below [lo] nor above [hi]. *)
Definition passes_range (lo hi : float) (x : cfloat) : Prop :=
  x = NaN \/ in_range lo hi x.

(** The ranges of the fields of a character, for a property [P] of a field
    and its range: frequency multipliers in [0.1, 20], dampings in
    [0.01, 10], weights in [0, 1], poke strength in [0, 1], poke duration in
    [1, 50] ms, coupling gain in [0.1, 2]; the bounds 0.1 and 0.01 as the
    floats the fields are compared with. *)
Definition character_fields (P : float -> float -> cfloat -> Prop)
    (c : NodeCharacter) : Prop :=
  (forall i, (i < 4)%nat ->
     P FLOAT_0_1 20%Q (cget (mode_freq_mult c) i)
     /\ P FLOAT_0_01 10%Q (cget (mode_damping c) i)
     /\ P 0%Q 1%Q (cget (mode_weight c) i))
  /\ P 0%Q 1%Q (poke_strength c)
  /\ P 1%Q 50%Q (poke_duration_ms c)
  /\ P FLOAT_0_1 2%Q (coupling_response_gain c).

(** Every field of the character within its range. *)
Definition character_in_range (c : NodeCharacter) : Prop :=
  character_fields in_range c.

(** No field of the character is a NaN. *)
Definition nan_free (c : NodeCharacter) : Prop :=
  character_fields (fun _ _ x => x <> NaN) c.

(** What the scheduler does, step by step: render a slice of frames, or
    apply an event. *)
Inductive action :=
  | RenderSlice (start frames : Z)
  | ApplyEvent (event : SynthEvent).

(** An offset clamped to [0, frameCount]. *)
Definition clamp_offset (frameCount offset : Z) : Z :=
  Z.max 0 (Z.min offset frameCount).

(** The schedule as the specification words it: for each event in arrival
    order, the slice from the previous offset up to the event's clamped
    offset (when there are frames in between), then the event; after the
    last event the remaining tail up to [frameCount]. *)
Fixpoint spec_schedule (prev : Z) (events : list SynthEvent) (frameCount : Z)
  : list action :=
  match events with
  | [] => if prev <? frameCount then [RenderSlice prev (frameCount - prev)] else []
  | event :: rest =>
      let offset := clamp_offset frameCount (sampleOffset event) in
      (if prev <? offset then [RenderSlice prev (offset - prev)] else [])
        ++ ApplyEvent event :: spec_schedule offset rest frameCount
  end.

(** The events of a schedule, in order. *)
Fixpoint applied_events (acts : list action) : list SynthEvent :=
  match acts with
  | [] => []
  | ApplyEvent event :: acts' => event :: applied_events acts'
  | RenderSlice _ _ :: acts' => applied_events acts'
  end.

(** The number of frames a schedule renders. *)
Fixpoint rendered_frames (acts : list action) : Z :=
  match acts with
  | [] => 0
  | RenderSlice _ frames :: acts' => frames + rendered_frames acts'
  | ApplyEvent _ :: acts' => rendered_frames acts'
  end.

(** Events in non-decreasing order of sample offset, none before [prev]. *)
Fixpoint time_ordered (prev : Z) (events : list SynthEvent) : Prop :=
  match events with
  | [] => True
  | event :: rest => prev <= sampleOffset event /\ time_ordered (sampleOffset event) rest
  end.

(** The event as the second of two blocks sees it when the first block is
    [k] frames long. *)
Definition shift_event (k : Z) (event : SynthEvent) : SynthEvent :=
  mkSynthEvent (sampleOffset event - k) (data event).

(** The schedule of the events alone, without the tail, and the offset it
    ends at. *)
Fixpoint events_schedule (prev : Z) (events : list SynthEvent) (frameCount : Z)
  : list action * Z :=
  match events with
  | [] => ([], prev)
  | event :: rest =>
      let offset := clamp_offset frameCount (sampleOffset event) in
      let '(acts, last) := events_schedule offset rest frameCount in
      ((if prev <? offset then [RenderSlice prev (offset - prev)] else [])
         ++ ApplyEvent event :: acts, last)
  end.

(** The tail slice after the last event. *)
Definition tail_schedule (prev frameCount : Z) : list action :=
  if prev <? frameCount then [RenderSlice prev (frameCount - prev)] else [].

(** The split point [k] is the offset of an event: of the last event of
    the first part or of the first event of the second part. *)
Definition split_at_event (k : Z) (es1 es2 : list SynthEvent) : Prop :=
  (exists es ev, es1 = es ++ [ev] /\ sampleOffset ev = k)
  \/ (exists ev es, es2 = ev :: es /\ sampleOffset ev = k).

(** The timing fields of a voice are well-formed: the control period is
    positive, and both counters are 32-bit values. *)
Definition voice_timed (v : ModalVoice.t) : Prop :=
  0 < ModalVoice.samples_per_update_ v <= UINT32_MAX
  /\ 0 <= ModalVoice.samples_since_update_ v <= UINT32_MAX.

(** The measure of the control loop: the counter, plus one 32-bit range
    while the voice is still live. *)
Definition control_loop_measure (v : ModalVoice.t) : Z :=
  (if ModalVoice.isActive v then 2 ^ 32 else 0) + ModalVoice.samples_since_update_ v.

(** The coupling updates of a topology engine leave the timing fields of
    the voices well-formed. *)
Definition coupling_keeps_timing (topo : Topology) : Prop :=
  forall te voices n,
    Forall voice_timed voices ->
    Forall voice_timed (snd (updateCoupling te voices n))
    /\ Forall voice_timed (snd (updateCouplingComplex te voices n)).

(** Two node managers that differ at most in the nodes at or beyond index
    [c]. *)
Definition same_below (c : Z) (nm1 nm2 : NodeManager.t) : Prop :=
  take (Z.to_nat c) (NodeManager.nodes_ nm1) = take (Z.to_nat c) (NodeManager.nodes_ nm2)
  /\ NodeManager.set_nodes nm1 (NodeManager.nodes_ nm2) = nm2.

Section NodeVocabulary.
Context {core : ModalCore}.
Import NodeManager.

(** What [exciteNode] does to the voice: the body of its call sequence on
    the node, for the node's character [c] and the current pitch bend. *)
Definition excite_voice (c : NodeCharacter) (pitch_bend : float) (midi_note : Z)
    (velocity : float) (node : ModalVoice.t) : ModalVoice.t :=
  let node := ModalVoice.noteOn node midi_note (velocity * cval (poke_strength c))%Q in
  let node := ModalVoice.setPitchBend node pitch_bend in
  let base_freq := ModalVoice.getBaseFrequency node in
  let node :=
    for_range 4
      (fun mode_idx node =>
         ModalVoice.setMode node mode_idx
           (base_freq * cval (cget (mode_freq_mult c) (Z.to_nat mode_idx)))%Q
           (cval (cget (mode_damping c) (Z.to_nat mode_idx)))
           (cval (cget (mode_weight c) (Z.to_nat mode_idx))))
      node in
  ModalVoice.setPersonality node (char_personality c).

(** What a note-on does to a target voice: an optional reset (re-trigger
    mode, voice still sounding), then the excitation. *)
Definition note_on_voice (nm : NodeManager.t) (midi_note : Z) (velocity : float)
    (i : Z) (v : ModalVoice.t) : ModalVoice.t :=
  match current_characters_ nm !! Z.to_nat i with
  | Some c =>
      excite_voice c (pitch_bend_ nm) midi_note velocity
        (match multi_excite_mode_ nm with
         | ReTrigger => if ModalVoice.isActive v then ModalVoice.reset v else v
         | Accumulate => v
         end)
  | None => v
  end.

End NodeVocabulary.

Section AllocatorVocabulary.
Import VoiceAllocator.

(** All instances within the active count live, the note not mapped. *)
Definition pool_exhausted (va : VoiceAllocator.t) (midi_note : Z) : Prop :=
  initialized_ va = true
  /\ 0 <= midi_note <= 127
  /\ (exists m, note_to_voice_ va !! Z.to_nat midi_note = Some m /\ m < 0)
  /\ 0 <= active_node_count_ va
  /\ forall j, 0 <= j < active_node_count_ va -> voice_isActive va j = true.

End AllocatorVocabulary.

(** No node below the active count sounds. *)
Definition manager_idle (nm : NodeManager.t) : Prop :=
  forall i v, NodeManager.nodes_ nm !! i = Some v ->
    Z.of_nat i < NodeManager.active_node_count_ nm -> ModalVoice.isActive v = false.

(** An initialized manager with its arrays in place. *)
Definition manager_ready (nm : NodeManager.t) : Prop :=
  NodeManager.initialized_ nm = true
  /\ 1 <= NodeManager.active_node_count_ nm <= NodeManager.NUM_NETWORK_NODES
  /\ length (NodeManager.current_characters_ nm) = Z.to_nat NodeManager.NUM_NETWORK_NODES
  /\ length (NodeManager.note_to_node_ nm) = 128%nat
  /\ length (NodeManager.note_to_channel_ nm) = 128%nat.

(** The nodes a note-on on channel [chan] goes to, and the first of them. *)
Definition note_target (nm : NodeManager.t) (chan : Z) (j : nat) : bool :=
  match NodeManager.routing_mode_ nm with
  | NodeManager.MidiChannel =>
      bool_decide (Z.of_nat j = chan mod NodeManager.active_node_count_ nm)
  | NodeManager.AllNodes => bool_decide (Z.of_nat j < NodeManager.active_node_count_ nm)
  end.

Definition first_target (nm : NodeManager.t) (chan : Z) : Z :=
  match NodeManager.routing_mode_ nm with
  | NodeManager.MidiChannel => chan mod NodeManager.active_node_count_ nm
  | NodeManager.AllNodes => 0
  end.

(** Every slice of the schedule starts at a frame that is not negative. *)
Definition slice_starts (acts : list action) : Prop :=
  Forall (fun act => match act with
                     | RenderSlice start _ => 0 <= start
                     | ApplyEvent _ => True
                     end) acts.

Section SchedulerVocabulary.
Context {core : ModalCore} {topo : Topology}.
Import SynthEngine.

(** Running a schedule on the engine: slices go to [renderSlice] at the
    output pointers advanced by the slice's start, events to
    [processEvent]. *)
Definition run_action (outL outR : Z) (s : option (SynthEngine.t * list float))
    (act : action) : option (SynthEngine.t * list float) :=
  '(e, mem) ← s;
  match act with
  | RenderSlice start frames =>
      renderSlice e mem (outL + start) (outR + start) start frames
  | ApplyEvent event => Some (processEvent e event, mem)
  end.

Definition run_schedule (outL outR : Z) (acts : list action)
    (s : SynthEngine.t * list float) : option (SynthEngine.t * list float) :=
  foldl (run_action outL outR) (Some s) acts.

(** An event applied to the engine [e], giving [e'], as an observer of the
    engine sees it. A note-on puts its target nodes into Attack for the note
    and records the first target and the channel in the note maps; a
    note-off releases the node the note is mapped to and clears the mapping;
    a pitch bend is stored and reaches every sounding node; a parameter
    change is read back by [getParameter] and leaves the other parameters
    alone; a control change does nothing. *)
Definition event_applied (e : SynthEngine.t) (event : SynthEvent) (e' : SynthEngine.t)
  : Prop :=
  let nm := nodeManager_ e in
  let nm' := nodeManager_ e' in
  match data event with
  | noteOn_data note velocity chan =>
      e' = set_nodeManager e nm'
      /\ (manager_ready nm -> 0 <= note <= 127 -> 0 <= chan ->
          NodeManager.note_to_node_ nm' !! Z.to_nat note = Some (first_target nm chan)
          /\ NodeManager.note_to_channel_ nm' !! Z.to_nat note = Some chan
          /\ forall j v, NodeManager.nodes_ nm !! j = Some v ->
               exists v', NodeManager.nodes_ nm' !! j = Some v'
                 /\ if note_target nm chan j
                    then v' = note_on_voice nm note velocity (Z.of_nat j) v
                         /\ ModalVoice.state_ v' = ModalVoice.Attack
                         /\ ModalVoice.midi_note_ v' = note
                    else v' = v)
  | noteOff_data note =>
      e' = set_nodeManager e nm'
      /\ forall i, 0 <= note <= 127 -> 0 <= i ->
           NodeManager.note_to_node_ nm !! Z.to_nat note = Some i ->
           if i <? NodeManager.NUM_NETWORK_NODES then
             NodeManager.note_to_node_ nm'
             = <[Z.to_nat note := 255]> (NodeManager.note_to_node_ nm)
             /\ forall j v, NodeManager.nodes_ nm !! j = Some v ->
                  NodeManager.nodes_ nm' !! j
                  = Some (if bool_decide (Z.of_nat j = i) && ModalVoice.isActive v
                          then ModalVoice.set_state v ModalVoice.Release else v)
           else nm' = nm
  | pitchBend_data value =>
      e' = set_nodeManager e nm'
      /\ NodeManager.pitch_bend_ nm' = value
      /\ forall j v, NodeManager.nodes_ nm !! j = Some v ->
           exists v', NodeManager.nodes_ nm' !! j = Some v'
             /\ if ModalVoice.isActive v && (Z.of_nat j <? NodeManager.NUM_NETWORK_NODES)
                then v' = ModalVoice.setPitchBend v value
                     /\ ModalVoice.pitch_bend_ v' = value
                     /\ ModalVoice.state_ v' = ModalVoice.state_ v
                else v' = v
  | cc_data _ _ => e' = e
  | parameter_data paramId value =>
      nodeManager_ e' = nm
      /\ controlRateCounter_ e' = controlRateCounter_ e
      /\ initialized_ e' = initialized_ e
      /\ (defined_param paramId -> getParameter e' paramId = value)
      /\ forall other, other <> paramId -> getParameter e' other = getParameter e other
  end.

(** A slice of [frames] frames rendered at the addresses [pL] and [pR], from
    the engine [e] and the memory [mem] to [e'] and [mem']: the control
    counter advances by the frames and a control update runs first once it
    reaches 240; the parameters stay; only the frames of the slice are
    written; the frames beyond the size of the temporary buffers are
    silence; with no sounding node the whole slice is silence; and every
    sounding node below the active count is rendered for the synthesized
    frames. *)
Definition slice_rendered (e : SynthEngine.t) (mem : list float) (pL pR frames : Z)
    (e' : SynthEngine.t) (mem' : list float) : Prop :=
  let counter := to_uint32 (controlRateCounter_ e + frames) in
  let e1 := if CONTROL_RATE_SAMPLES <=? counter then updateControlRate e else e in
  let synthesized := Z.min frames (NodeManager.max_buffer_size_ (nodeManager_ e)) in
  controlRateCounter_ e' = (if CONTROL_RATE_SAMPLES <=? counter then 0 else counter)
  /\ (forall paramId, getParameter e' paramId = getParameter e paramId)
  /\ initialized_ e' = initialized_ e
  /\ topologyEngine_ e' = topologyEngine_ e1
  /\ length mem' = length mem
  /\ (forall j, ~ in_frames pL frames j -> ~ in_frames pR frames j ->
        mem' !! j = mem !! j)
  /\ (forall j, in_frames pL frames j \/ in_frames pR frames j ->
        ~ in_frames pL synthesized j -> ~ in_frames pR synthesized j ->
        mem' !! j = (fun _ => 0%Q) <$> (mem !! j))
  /\ (manager_idle (nodeManager_ e1) ->
        nodeManager_ e' = nodeManager_ e1
        /\ forall j, in_frames pL frames j \/ in_frames pR frames j ->
             mem' !! j = (fun _ => 0%Q) <$> (mem !! j))
  /\ (forall i v, NodeManager.nodes_ (nodeManager_ e1) !! i = Some v ->
        if NodeManager.initialized_ (nodeManager_ e)
           && ModalVoice.isActive v
           && (Z.of_nat i <? NodeManager.active_node_count_ (nodeManager_ e))
        then exists l r v' l' r',
               ModalVoice.renderAudio v l r synthesized = Some (v', l', r')
               /\ NodeManager.nodes_ (nodeManager_ e') !! i = Some v'
        else NodeManager.nodes_ (nodeManager_ e') !! i = Some v).

(** Running a schedule, as the specification words it: each slice is
    rendered at the output pointers advanced by its start, each event is
    applied, in the order of the schedule. *)
Inductive schedule_runs (outL outR : Z)
  : list action -> SynthEngine.t * list float -> SynthEngine.t * list float -> Prop :=
  | runs_done s : schedule_runs outL outR [] s s
  | runs_slice start frames acts e mem e' mem' s :
      slice_rendered e mem (outL + start) (outR + start) frames e' mem' ->
      schedule_runs outL outR acts (e', mem') s ->
      schedule_runs outL outR (RenderSlice start frames :: acts) (e, mem) s
  | runs_event event acts e mem e' s :
      event_applied e event e' ->
      schedule_runs outL outR acts (e', mem) s ->
      schedule_runs outL outR (ApplyEvent event :: acts) (e, mem) s.

(** Every voice of the engine has well-formed timing fields. *)
Definition engine_timed (e : SynthEngine.t) : Prop :=
  Forall voice_timed (NodeManager.nodes_ (nodeManager_ e)).

End SchedulerVocabulary.

(* ===================================================================== *)
(** ** Concrete engines, queues and allocators for the examples *)
(* ===================================================================== *)

Section ExampleStates.
#[local] Existing Instance Reference.core.
#[local] Existing Instance Reference.topology.

(** An engine prepared at 48 kHz for blocks of 512 frames. *)
Definition prepared_engine : SynthEngine.t :=
  SynthEngine.prepare (SynthEngine.new 5 CHARACTER_VIBRANT_BASS) 48000%Q 512 2.

(** The same engine after a note-on for note 60 with velocity 0.8 on
    channel 0. *)
Definition ringing_engine : SynthEngine.t :=
  SynthEngine.processEvent prepared_engine (mkSynthEvent 0 (noteOn_data 60 0.8%Q 0)).

(** The amplitude [getAmplitude()] of node [i]. *)
Definition node_amplitude (e : SynthEngine.t) (i : Z) : option float :=
  ModalVoice.getAmplitude <$> NodeManager.getNode (SynthEngine.nodeManager_ e) i.

(** The node manager of the prepared engine, switched to all-nodes
    routing. *)
Definition all_nodes_manager : NodeManager.t :=
  NodeManager.setRoutingMode (SynthEngine.nodeManager_ prepared_engine)
    NodeManager.AllNodes.

(** That manager after a note-on for note 60 with velocity 0.8: all five
    nodes sound. *)
Definition sounding_manager : NodeManager.t :=
  NodeManager.noteOn all_nodes_manager 60 0.8%Q 0.

(** Node [i] of the manager has amplitude [x]. *)
Definition manager_amplitude (nm : NodeManager.t) (i : nat) (x : float) : Prop :=
  from_option (fun v => (ModalVoice.getAmplitude v == x)%Q) False
    (NodeManager.nodes_ nm !! i).

(** A queue cleared and then filled by a producer. *)
Definition queue_of (events : list SynthEvent) : EventQueue.t :=
  EventQueue.push_all (EventQueue.new (mkSynthEvent 0 (cc_data 0 0%Q))) events.

(** The events of the specification's example: two events at offset 5 and
    one at offset 40. *)
Definition example_head : list SynthEvent :=
  [mkSynthEvent 5 (noteOn_data 60 0.8%Q 0); mkSynthEvent 5 (pitchBend_data 0.25%Q)].

Definition example_tail : list SynthEvent :=
  [mkSynthEvent 40 (noteOff_data 60)].

(** A control-change event: [processEvent] ignores it. *)
Definition cc_event (offset : Z) : SynthEvent := mkSynthEvent offset (cc_data 1 0.5%Q).

(** The age of node 0, the number of modal steps it took since its
    note-on. *)
Definition node0_age (r : option (SynthEngine.t * list float)) : option Z :=
  '(e, _) ← r; ModalVoice.getAge <$> (NodeManager.nodes_ (SynthEngine.nodeManager_ e) !! 0%nat).

(** The character Vibrant Bass with a NaN as poke strength. *)
Definition nan_poke_character : NodeCharacter :=
  mkNodeCharacter
    (mode_freq_mult CHARACTER_VIBRANT_BASS) (mode_damping CHARACTER_VIBRANT_BASS)
    (mode_weight CHARACTER_VIBRANT_BASS) (mode_shape CHARACTER_VIBRANT_BASS)
    (char_personality CHARACTER_VIBRANT_BASS)
    NaN (poke_duration_ms CHARACTER_VIBRANT_BASS)
    (coupling_response_gain CHARACTER_VIBRANT_BASS)
    (name CHARACTER_VIBRANT_BASS) (description CHARACTER_VIBRANT_BASS).

(** An engine that was constructed and not prepared. *)
Definition unprepared_engine : SynthEngine.t := SynthEngine.new 5 CHARACTER_VIBRANT_BASS.

(** The samples at the addresses [p .. p + n - 1], as reduced fractions. *)
Definition samples (mem : list float) (p n : nat) : list float :=
  Qred <$> take n (drop p mem).

(** An allocator with one voice, after a note-on for note 60. *)
Definition one_voice_playing : VoiceAllocator.t :=
  fst (VoiceAllocator.noteOn
         (VoiceAllocator.initialize (VoiceAllocator.new 1) 48000%Q) 60 0.8%Q).

(** An allocator with five voices, after note-ons for the notes 60 .. 64,
    with no control update in between. *)
Definition five_voices_playing : VoiceAllocator.t :=
  foldl (fun va note => fst (VoiceAllocator.noteOn va note 0.8%Q))
        (VoiceAllocator.initialize (VoiceAllocator.new 5) 48000%Q) [60; 61; 62; 63; 64].

End ExampleStates.

(* ===================================================================== *)
(** * Properties *)
(* ===================================================================== *)

(** ** Machine integers and floats *)

Section NumberFacts.

Lemma to_int32_id z : - 2 ^ 31 <= z <= INT32_MAX -> to_int32 z = z.
Proof.
  unfold to_int32, INT32_MAX. intros Hz.
  rewrite Z.mod_small by lia. lia.
Qed.

Lemma to_uint32_id z : 0 <= z <= UINT32_MAX -> to_uint32 z = z.
Proof. unfold to_uint32, UINT32_MAX. intros Hz. apply Z.mod_small. lia. Qed.

Lemma to_int8_id z : - 128 <= z <= 127 -> to_int8 z = z.
Proof. unfold to_int8. intros Hz. rewrite Z.mod_small by lia. lia. Qed.

Lemma flt_true x y : flt x y = true <-> (x < y)%Q.
Proof.
  unfold flt. rewrite negb_true_iff, <- not_true_iff_false, Qle_bool_iff.
  split; [apply Qnot_le_lt | apply Qlt_not_le].
Qed.

Lemma flt_false x y : flt x y = false <-> (y <= x)%Q.
Proof. unfold flt. rewrite negb_false_iff. apply Qle_bool_iff. Qed.

Lemma cabsf_czero : cabsf czero = 0%Q.
Proof. reflexivity. Qed.

End NumberFacts.

(** ** The event queue *)

Section EventQueueFacts.
Import EventQueue.

Lemma contents_length (q : EventQueue.t) :
  wf q -> length (contents q) = Z.to_nat (count_ q).
Proof.
  intros [Hlen Hcnt]. unfold contents, MAX_EVENTS in *.
  rewrite length_take. lia.
Qed.

Lemma push_room (q : EventQueue.t) (e : SynthEvent) :
  wf q -> count_ q < MAX_EVENTS ->
  snd (push q e) = true
  /\ contents (fst (push q e)) = contents q ++ [e]
  /\ count_ (fst (push q e)) = count_ q + 1
  /\ wf (fst (push q e)).
Proof.
  intros [Hlen Hcnt] Hroom. unfold push, contents, wf, MAX_EVENTS in *.
  destruct (512 <=? count_ q) eqn:Hfull; [apply Z.leb_le in Hfull; lia|].
  cbn [fst snd events_ count_].
  split; [done|]. split; [|split; [done|]].
  - replace (Z.to_nat (count_ q + 1)) with (S (Z.to_nat (count_ q))) by lia.
    erewrite take_S_r.
    + by rewrite take_insert_ge by lia.
    + apply list_lookup_insert_eq. lia.
  - rewrite length_insert. lia.
Qed.

Lemma push_full (q : EventQueue.t) (e : SynthEvent) :
  MAX_EVENTS <= count_ q -> push q e = (q, false).
Proof.
  intros Hfull. unfold push.
  destruct (MAX_EVENTS <=? count_ q) eqn:E; [done|].
  apply Z.leb_gt in E. lia.
Qed.

Lemma push_all_contents (es : list SynthEvent) (q : EventQueue.t) :
  wf q ->
  contents (push_all q es)
  = contents q ++ take (Z.to_nat (MAX_EVENTS - count_ q)) es
  /\ count_ (push_all q es)
     = Z.min MAX_EVENTS (count_ q + Z.of_nat (length es))
  /\ wf (push_all q es).
Proof.
  revert q. induction es as [|e es IH]; intros q Hwf.
  - cbn [push_all length]. rewrite take_nil, app_nil_r.
    destruct Hwf as [? ?]. repeat split; try done; lia.
  - cbn [push_all].
    destruct (Z_lt_le_dec (count_ q) MAX_EVENTS) as [Hroom|Hfull].
    + destruct (push_room q e Hwf Hroom) as (_ & Hc & Hn & Hwf').
      destruct (IH _ Hwf') as (IHc & IHn & IHwf).
      rewrite IHc, IHn, Hc, Hn. split; [|split; [|done]].
      * rewrite <- app_assoc. f_equal.
        replace (Z.to_nat (MAX_EVENTS - count_ q))
          with (S (Z.to_nat (MAX_EVENTS - (count_ q + 1)))) by lia.
        done.
      * cbn [length]. lia.
    + rewrite (push_full q e Hfull). cbn [fst].
      destruct (IH _ Hwf) as (IHc & IHn & IHwf).
      rewrite IHc, IHn. split; [|split; [|done]].
      * replace (Z.to_nat (MAX_EVENTS - count_ q)) with 0%nat by lia.
        by rewrite !take_0.
      * destruct Hwf as [_ ?]. cbn [length]. lia.
Qed.

Lemma clear_wf (q : EventQueue.t) : wf q -> wf (clear q).
Proof. intros [? ?]. split; [done|]. cbn. unfold MAX_EVENTS. lia. Qed.

(** The scheduler applies the events of the queue, each once, in order. *)
Lemma spec_schedule_applied (prev : Z) (events : list SynthEvent) (frameCount : Z) :
  applied_events (spec_schedule prev events frameCount) = events.
Proof.
  revert prev. induction events as [|event events IH]; intros prev; cbn.
  - by destruct (prev <? frameCount).
  - destruct (prev <? _); cbn; by rewrite IH.
Qed.

(** C4. While fewer than [MAX_EVENTS] = 512 events are stored, [push]
    appends the event and returns [true]; at capacity it returns [false]
    and leaves the queue as it is. Hence pushing capacity + 1 events into a
    cleared queue leaves exactly the first 512 of them, unchanged and in
    order, for the consumer; the last one is dropped, and the events the
    scheduler applies in a block are those 512. *)
Theorem push_backpressure (q : EventQueue.t) (e : SynthEvent) (es : list SynthEvent) :
  wf q ->
  (count q < MAX_EVENTS ->
     snd (push q e) = true
     /\ contents (fst (push q e)) = contents q ++ [e]
     /\ count (fst (push q e)) = count q + 1)
  /\ (count q = MAX_EVENTS -> push q e = (q, false))
  /\ (length es = Z.to_nat (MAX_EVENTS + 1) ->
        contents (push_all (clear q) es) = take (Z.to_nat MAX_EVENTS) es
        /\ count (push_all (clear q) es) = MAX_EVENTS
        /\ length (contents (push_all (clear q) es)) = Z.to_nat MAX_EVENTS
        /\ forall frameCount,
             applied_events
               (spec_schedule 0 (contents (push_all (clear q) es)) frameCount)
             = take (Z.to_nat MAX_EVENTS) es).
Proof.
  intros Hwf. split; [|split].
  - intros Hroom. destruct (push_room q e Hwf Hroom) as (? & ? & ? & _). done.
  - intros Hfull. apply push_full. unfold count in Hfull. lia.
  - intros Hlen.
    destruct (push_all_contents es (clear q) (clear_wf q Hwf)) as (Hc & Hn & Hwf').
    assert (Hcount : count (push_all (clear q) es) = MAX_EVENTS).
    { unfold count. rewrite Hn. cbn [clear count_]. unfold MAX_EVENTS in *. lia. }
    assert (Hcontents : contents (push_all (clear q) es)
                        = take (Z.to_nat MAX_EVENTS) es).
    { rewrite Hc. unfold contents at 1. cbn [clear count_]. rewrite take_0.
      cbn [app]. f_equal. }
    split; [done|]. split; [done|]. split.
    + rewrite contents_length by done. unfold count in Hcount. by rewrite Hcount.
    + intros frameCount. by rewrite spec_schedule_applied.
Qed.

Lemma push_backpressure_witness :
  let q := EventQueue.new (mkSynthEvent 0 (cc_data 0 0%Q)) in
  let e := mkSynthEvent 7 (noteOff_data 60) in
  wf q
  /\ (count q < MAX_EVENTS ->
        snd (push q e) = true
        /\ contents (fst (push q e)) = contents q ++ [e]
        /\ count (fst (push q e)) = count q + 1)
  /\ (count q = MAX_EVENTS -> push q e = (q, false))
  /\ (length (replicate 513 e) = Z.to_nat (MAX_EVENTS + 1) ->
        contents (push_all (clear q) (replicate 513 e))
        = take (Z.to_nat MAX_EVENTS) (replicate 513 e)
        /\ count (push_all (clear q) (replicate 513 e)) = MAX_EVENTS
        /\ length (contents (push_all (clear q) (replicate 513 e)))
           = Z.to_nat MAX_EVENTS
        /\ forall frameCount,
             applied_events
               (spec_schedule 0 (contents (push_all (clear q) (replicate 513 e)))
                  frameCount)
             = take (Z.to_nat MAX_EVENTS) (replicate 513 e)).
Proof.
  intros q e.
  assert (Hwf : wf q) by (split; [reflexivity | cbn; unfold MAX_EVENTS; lia]).
  split; [exact Hwf|].
  exact (push_backpressure q e (replicate 513 e) Hwf).
Defined.

End EventQueueFacts.

(** ** Immediate parameters *)

Section ParameterFacts.
Context {core : ModalCore} {topo : Topology}.
Import SynthEngine.

(** C9. For each of the five defined parameter ids, [setParameter id v]
    followed by [getParameter id] returns [v] itself, for every value [v]
    (so also within the documented range [0, 1]) and with no render call in
    between; the other parameters keep their values. *)
Theorem parameter_round_trip (e : SynthEngine.t) (paramId : Z) (v : float) :
  defined_param paramId ->
  getParameter (setParameter e paramId v) paramId = v
  /\ forall other, other <> paramId ->
       getParameter (setParameter e paramId v) other = getParameter e other.
Proof.
  unfold defined_param, kParam_BodySize, kParam_Material, kParam_Excite,
    kParam_Morph, kParam_Mix.
  intros Hid. split.
  - destruct Hid as [-> | [-> | [-> | [-> | ->]]]]; reflexivity.
  - intros other Hne.
    unfold getParameter, kParam_BodySize, kParam_Material, kParam_Excite,
      kParam_Morph, kParam_Mix.
    destruct Hid as [-> | [-> | [-> | [-> | ->]]]]; cbn;
      repeat match goal with
             | |- context [other =? ?k] =>
                 destruct (Z.eqb_spec other k) as [Heq|?]; [try lia|]
             end; reflexivity.
Qed.

End ParameterFacts.

Section ParameterExamples.
#[local] Existing Instance Reference.core.
#[local] Existing Instance Reference.topology.

Lemma parameter_round_trip_witness :
  let e := SynthEngine.new 5 CHARACTER_VIBRANT_BASS in
  defined_param SynthEngine.kParam_Excite
  /\ SynthEngine.getParameter
       (SynthEngine.setParameter e SynthEngine.kParam_Excite 0.25%Q)
       SynthEngine.kParam_Excite = 0.25%Q.
Proof.
  intros e.
  assert (Hid : defined_param SynthEngine.kParam_Excite)
    by (right; right; left; reflexivity).
  split; [exact Hid|].
  exact (proj1 (parameter_round_trip e SynthEngine.kParam_Excite 0.25%Q Hid)).
Defined.

End ParameterExamples.

(** ** Character validation *)

Section CharacterFacts.

Lemma range_check (lo hi : float) (x : cfloat) :
  clt x lo || clt hi x = false <-> passes_range lo hi x.
Proof.
  unfold passes_range. destruct x as [|x]; cbn [clt in_range orb].
  - split; [by left|done].
  - rewrite orb_false_iff, !flt_false. split.
    + intros [Hlo Hhi]. by right.
    + intros [Hnan|Hin]; [done|exact Hin].
Qed.

Lemma passes_in_range (lo hi : float) (x : cfloat) :
  x <> NaN -> passes_range lo hi x <-> in_range lo hi x.
Proof. unfold passes_range. intros Hx. split; [by intros [?|?]|by right]. Qed.

Lemma in_range_number (lo hi : float) (x : cfloat) : in_range lo hi x -> x <> NaN.
Proof. by destruct x. Qed.

Lemma character_fields_impl (P R : float -> float -> cfloat -> Prop) (c : NodeCharacter) :
  (forall lo hi x, P lo hi x -> R lo hi x) ->
  character_fields P c -> character_fields R c.
Proof.
  intros HPR (Hmodes & ? & ? & ?).
  split; [|by repeat split; apply HPR].
  intros i Hi. destruct (Hmodes i Hi) as (? & ? & ?). by repeat split; apply HPR.
Qed.

Lemma character_fields_both (P R : float -> float -> cfloat -> Prop) (c : NodeCharacter) :
  character_fields P c -> character_fields R c ->
  character_fields (fun lo hi x => P lo hi x /\ R lo hi x) c.
Proof.
  intros (HP & ? & ? & ?) (HR & ? & ? & ?).
  split; [|done].
  intros i Hi. destruct (HP i Hi) as (? & ? & ?), (HR i Hi) as (? & ? & ?). done.
Qed.

Lemma validate_mode_spec (c : NodeCharacter) (i : nat) :
  validate_mode c i = true <->
  passes_range FLOAT_0_1 20%Q (cget (mode_freq_mult c) i)
  /\ passes_range FLOAT_0_01 10%Q (cget (mode_damping c) i)
  /\ passes_range 0%Q 1%Q (cget (mode_weight c) i).
Proof.
  unfold validate_mode. rewrite <- !range_check.
  destruct (clt (cget (mode_freq_mult c) i) _ || clt _ (cget (mode_freq_mult c) i));
    [intuition discriminate|].
  destruct (clt (cget (mode_damping c) i) _ || clt _ (cget (mode_damping c) i));
    [intuition discriminate|].
  destruct (clt (cget (mode_weight c) i) _ || clt _ (cget (mode_weight c) i));
    intuition discriminate.
Qed.

(** What [validateCharacter] accepts: the characters of which every field is
    a NaN or within its range. *)
Lemma validateCharacter_spec (c : NodeCharacter) :
  validateCharacter (Some c) = true <-> character_fields passes_range c.
Proof.
  unfold validateCharacter, character_fields.
  rewrite <- !range_check.
  assert (Hmodes : forallb (validate_mode c) (seq 0 4) = true <->
            forall i, (i < 4)%nat ->
              passes_range FLOAT_0_1 20%Q (cget (mode_freq_mult c) i)
              /\ passes_range FLOAT_0_01 10%Q (cget (mode_damping c) i)
              /\ passes_range 0%Q 1%Q (cget (mode_weight c) i)).
  { rewrite forallb_forall. split.
    - intros Hall i Hi. apply validate_mode_spec, Hall, in_seq. lia.
    - intros Hall i Hi. apply validate_mode_spec, Hall. apply in_seq in Hi. lia. }
  rewrite <- Hmodes.
  destruct (forallb (validate_mode c) (seq 0 4)); cbn [negb];
    [|intuition discriminate].
  destruct (clt (poke_strength c) _ || clt _ (poke_strength c));
    [intuition discriminate|].
  destruct (clt (poke_duration_ms c) _ || clt _ (poke_duration_ms c));
    [intuition discriminate|].
  destruct (clt (coupling_response_gain c) _ || clt _ (coupling_response_gain c));
    intuition discriminate.
Qed.

(** A character with every field in range is accepted. *)
Lemma validateCharacter_in_range (c : NodeCharacter) :
  character_in_range c -> validateCharacter (Some c) = true.
Proof.
  intros Hc. apply validateCharacter_spec.
  revert Hc. apply character_fields_impl. intros lo hi x Hx. by right.
Qed.

(** On characters without a NaN the validation decides the ranges: such a
    character is accepted exactly when every field is in range. *)
Lemma validateCharacter_numbers (c : NodeCharacter) :
  nan_free c ->
  validateCharacter (Some c) = true <-> character_in_range c.
Proof.
  intros Hnum. split; [|apply validateCharacter_in_range].
  intros Hc. apply validateCharacter_spec in Hc.
  pose proof (character_fields_both _ _ c Hnum Hc) as Hboth.
  revert Hboth. apply character_fields_impl.
  intros lo hi x [Hx Hp]. by apply passes_in_range.
Qed.

(** A rejected character changes nothing: both entry points return before
    any store. *)
Lemma setNodeCharacterCustom_rejected
    (nm : NodeManager.t) (node_idx : Z) (character : option NodeCharacter) :
  validateCharacter character = false ->
  NodeManager.setNodeCharacterCustom nm node_idx character = nm.
Proof.
  intros Hbad. unfold NodeManager.setNodeCharacterCustom. rewrite Hbad. cbn [negb].
  by destruct (_ <=? _).
Qed.

(** An accepted character is stored as the character of the node, with the
    id 255 of a custom character. *)
Lemma setNodeCharacterCustom_accepted
    (nm : NodeManager.t) (node_idx : Z) (c : NodeCharacter) :
  validateCharacter (Some c) = true ->
  0 <= node_idx < NodeManager.NUM_NETWORK_NODES ->
  length (NodeManager.current_characters_ nm)
    = Z.to_nat NodeManager.NUM_NETWORK_NODES ->
  length (NodeManager.node_character_ids_ nm)
    = Z.to_nat NodeManager.NUM_NETWORK_NODES ->
  let nm' := NodeManager.setNodeCharacterCustom nm node_idx (Some c) in
  NodeManager.current_characters_ nm' !! Z.to_nat node_idx = Some c
  /\ NodeManager.node_character_ids_ nm' !! Z.to_nat node_idx = Some 255.
Proof.
  intros Hok Hidx Hlen Hids.
  unfold NodeManager.setNodeCharacterCustom, NodeManager.NUM_NETWORK_NODES in *.
  destruct (5 <=? node_idx) eqn:E; [apply Z.leb_le in E; lia|].
  rewrite Hok. cbn [negb].
  unfold NodeManager.applyCharacterToNode.
  destruct (negb _); cbn [NodeManager.set_characters NodeManager.on_node
    NodeManager.set_nodes NodeManager.current_characters_
    NodeManager.node_character_ids_];
    rewrite ?list_insert_insert_eq; split; apply list_lookup_insert_eq; lia.
Qed.

(** Every character of the built-in library has every field in range. *)
Lemma library_valid (character_id : Z) (c : NodeCharacter) :
  getCharacter character_id = Some c -> character_in_range c.
Proof.
  intros Hget.
  assert (Hnum : forall x, In x CHARACTER_LIBRARY -> nan_free x).
  { intros x Hx. cbn in Hx.
    repeat (destruct Hx as [<-|Hx];
      [split; [|done]; intros [|[|[|[|i]]]] Hi; [done..|lia]|]).
    done. }
  unfold getCharacter in Hget.
  destruct (_ <=? _); [done|].
  assert (Hin : In c CHARACTER_LIBRARY)
    by (apply list_elem_of_In; by eapply list_elem_of_lookup_2).
  apply validateCharacter_numbers; [by apply Hnum|].
  assert (Hall : forallb (fun c => validateCharacter (Some c)) CHARACTER_LIBRARY = true)
    by (vm_compute; reflexivity).
  rewrite forallb_forall in Hall. by apply Hall.
Qed.

End CharacterFacts.

Section CharacterExamples.
#[local] Existing Instance Reference.core.
#[local] Existing Instance Reference.topology.
Import NodeManager.

(** C8 (the code at the failing input). The character [nan_poke_character]
    has a NaN as poke strength, so not every field is within its range; yet
    [validateCharacter] accepts it, since a NaN is neither below 0 nor above
    1, and [setNodeCharacterCustom] stores it as the character of node 0 of
    a prepared manager, where the library character was stored before. *)
Theorem nan_character_is_assigned :
  let nm := SynthEngine.nodeManager_ prepared_engine in
  let nm' := setNodeCharacterCustom nm 0 (Some nan_poke_character) in
  ~ character_in_range nan_poke_character
  /\ validateCharacter (Some nan_poke_character) = true
  /\ current_characters_ nm !! 0%nat = Some CHARACTER_VIBRANT_BASS
  /\ current_characters_ nm' !! 0%nat = Some nan_poke_character
  /\ node_character_ids_ nm' !! 0%nat = Some 255
  /\ poke_strength <$> current_characters_ nm' !! 0%nat = Some NaN.
Proof.
  cbv zeta. split; [|repeat split; vm_compute; reflexivity].
  intros (_ & Hpoke & _). exact Hpoke.
Qed.

End CharacterExamples.

(** ** Counted loops over arrays *)

Section LoopFacts.

Lemma for_range_ext {S : Type} (n : Z) (body1 body2 : Z -> S -> S) (s : S) :
  (forall i s, body1 i s = body2 i s) ->
  for_range n body1 s = for_range n body2 s.
Proof.
  intros Hext. unfold for_range. generalize (seq 0 (Z.to_nat n)). intros idxs.
  revert s. induction idxs as [|i idxs IH]; intros s; cbn [foldl]; [done|].
  by rewrite Hext, IH.
Qed.

Lemma for_from_to_0 {S : Type} (n : Z) (body : Z -> S -> S) (s : S) :
  for_from_to 0 n body s = for_range n body s.
Proof. unfold for_from_to, for_range. by rewrite Z.sub_0_r. Qed.

(** A loop that applies [G i] to the element [i], for [from <= i < to]. *)
Lemma for_from_to_alter_lookup {A : Type} (from to : Z) (G : Z -> A -> A)
    (l : list A) (j : nat) :
  0 <= from ->
  for_from_to from to (fun i l => alter (G i) (Z.to_nat i) l) l !! j
  = if decide (from <= Z.of_nat j < to) then G (Z.of_nat j) <$> (l !! j) else l !! j.
Proof.
  intros Hfrom. unfold for_from_to.
  destruct (Z_le_gt_dec to from) as [Hle|Hgt].
  { replace (Z.to_nat (to - from)) with 0%nat by lia. cbn.
    case_decide; [lia|done]. }
  assert (Hto : to = from + Z.of_nat (Z.to_nat (to - from))) by lia.
  revert Hto. generalize (Z.to_nat (to - from)). intros k. revert to Hgt l j.
  induction k as [|k IH]; intros to Hgt l j Hto.
  - lia.
  - rewrite seq_S, foldl_app. cbn [foldl Nat.add].
    destruct (decide (k = 0)%nat) as [->|Hk].
    + cbn [seq foldl]. replace (from + Z.of_nat 0) with from by lia.
      destruct (decide (j = Z.to_nat from)) as [->|Hne].
      * rewrite list_lookup_alter_eq. case_decide; [|lia].
        by replace (Z.of_nat (Z.to_nat from)) with from by lia.
      * rewrite list_lookup_alter_ne by done. case_decide; [lia|done].
    + destruct (decide (j = Z.to_nat (from + Z.of_nat k))) as [->|Hne].
      * rewrite list_lookup_alter_eq.
        rewrite (IH (from + Z.of_nat k)) by lia.
        case_decide; [lia|]. case_decide; [|lia].
        by replace (Z.of_nat (Z.to_nat (from + Z.of_nat k))) with (from + Z.of_nat k) by lia.
      * rewrite list_lookup_alter_ne by done.
        rewrite (IH (from + Z.of_nat k)) by lia.
        repeat case_decide; try lia; done.
Qed.

Lemma for_range_alter_lookup {A : Type} (n : Z) (G : Z -> A -> A)
    (l : list A) (j : nat) :
  for_range n (fun i l => alter (G i) (Z.to_nat i) l) l !! j
  = if decide (Z.of_nat j < n) then G (Z.of_nat j) <$> (l !! j) else l !! j.
Proof.
  rewrite <- for_from_to_0, for_from_to_alter_lookup by lia.
  repeat case_decide; try lia; done.
Qed.

Lemma for_from_to_alter_length {A : Type} (from to : Z) (G : Z -> A -> A) (l : list A) :
  length (for_from_to from to (fun i l => alter (G i) (Z.to_nat i) l) l) = length l.
Proof.
  unfold for_from_to. generalize (seq 0 (Z.to_nat (to - from))). intros idxs.
  revert l. induction idxs as [|i idxs IH]; intros l; cbn [foldl]; [done|].
  by rewrite IH, length_alter.
Qed.

(** An invariant of a loop that may fail, indexed by the number of turns
    taken. *)
Lemma for_range_opt_invariant {St : Type} (P : Z -> St -> Prop) (n : Z)
    (body : Z -> St -> option St) (s s' : St) :
  P 0 s ->
  (forall i s s', 0 <= i < n -> P i s -> body i s = Some s' -> P (i + 1) s') ->
  for_range_opt n body s = Some s' -> P (Z.max 0 n) s'.
Proof.
  intros Hs Hbody. unfold for_range_opt.
  replace (Z.max 0 n) with (Z.of_nat (Z.to_nat n)) by lia.
  assert (Hb : forall i s s', 0 <= i < Z.of_nat (Z.to_nat n) -> P i s ->
                 body i s = Some s' -> P (i + 1) s')
    by (intros; eapply Hbody; [lia|done..]).
  clear Hbody. revert s' Hb. generalize (Z.to_nat n). intros k.
  induction k as [|k IH]; intros s' Hb.
  { cbn. intros Heq. by injection Heq as <-. }
  rewrite seq_S, foldl_app. cbn [foldl]. rewrite Nat.add_0_l.
  destruct (foldl _ (Some s) (seq 0 k)) as [s1|] eqn:E1; cbn [mbind option_bind]; [|done].
  intros Hstep. replace (Z.of_nat (S k)) with (Z.of_nat k + 1) by lia.
  apply (Hb (Z.of_nat k) s1); [lia| |done].
  apply IH; [|done]. intros; eapply Hb; [lia|done..].
Qed.

(** A loop whose body leaves the state as it is. *)
Lemma for_range_opt_fixed {St : Type} (n : Z) (body : Z -> St -> option St) (s : St) :
  (forall i, 0 <= i < n -> body i s = Some s) -> for_range_opt n body s = Some s.
Proof.
  intros Hbody. unfold for_range_opt.
  destruct (Z_le_gt_dec n 0) as [Hn|Hn].
  { by replace (Z.to_nat n) with 0%nat by lia. }
  rewrite <- (Z2Nat.id n) in Hbody by lia.
  revert Hbody. generalize (Z.to_nat n). clear Hn. intros k.
  induction k as [|k IH]; intros Hbody; [done|].
  rewrite seq_S, foldl_app. cbn [foldl]. rewrite IH by (intros; apply Hbody; lia).
  cbn [mbind option_bind]. apply Hbody. lia.
Qed.

(** Two runs of a loop that may fail, with related states and bodies that
    keep the relation. *)
Lemma for_range_opt_related {St : Type} (R : St -> St -> Prop) (n : Z)
    (body1 body2 : Z -> St -> option St) (s1 s2 : St) :
  R s1 s2 ->
  (forall i s1 s2, 0 <= i < n -> R s1 s2 ->
     option_Forall2 R (body1 i s1) (body2 i s2)) ->
  option_Forall2 R (for_range_opt n body1 s1) (for_range_opt n body2 s2).
Proof.
  intros Hs Hbody. unfold for_range_opt.
  assert (Hidx : forall i, In i (seq 0 (Z.to_nat n)) -> 0 <= Z.of_nat i < n)
    by (intros i Hi; apply in_seq in Hi; lia).
  revert Hidx. generalize (seq 0 (Z.to_nat n)). intros idxs Hidx.
  assert (Hos : option_Forall2 R (Some s1) (Some s2)) by by constructor.
  revert Hos. generalize (Some s1) (Some s2). clear s1 s2 Hs.
  induction idxs as [|i idxs IH]; intros os1 os2 Hos; cbn [foldl]; [done|].
  apply IH; [intros j Hj; apply Hidx; by right|].
  destruct Hos as [x1 x2 Hx|]; cbn [mbind option_bind]; [|constructor].
  apply Hbody; [apply Hidx; by left|done].
Qed.

End LoopFacts.

(** ** Voices *)

Section VoiceFacts.

Lemma noteOff_node (v : ModalVoice.t) :
  ModalVoice.node_ (ModalVoice.noteOff v) = ModalVoice.node_ v.
Proof. unfold ModalVoice.noteOff. by destruct (ModalVoice.state_ v). Qed.

Lemma noteOff_inactive (v : ModalVoice.t) :
  ModalVoice.isActive v = false -> ModalVoice.noteOff v = v.
Proof.
  unfold ModalVoice.isActive, ModalVoice.noteOff.
  by destruct (ModalVoice.state_ v).
Qed.

Lemma noteOff_state (v : ModalVoice.t) :
  ModalVoice.state_ (ModalVoice.noteOff v)
  = match ModalVoice.state_ v with
    | ModalVoice.Inactive => ModalVoice.Inactive
    | _ => ModalVoice.Release
    end.
Proof. unfold ModalVoice.noteOff. by destruct (ModalVoice.state_ v) eqn:E. Qed.

Lemma noteOff_amplitude (v : ModalVoice.t) :
  ModalVoice.getAmplitude (ModalVoice.noteOff v) = ModalVoice.getAmplitude v.
Proof. unfold ModalVoice.getAmplitude. by rewrite noteOff_node. Qed.

(** A reset node has amplitude 0: every mode amplitude is zero. *)
Lemma modal_node_reset_amplitude (node : modal_node_t) :
  (modal_node_get_amplitude (modal_node_reset node) == 0)%Q.
Proof.
  unfold modal_node_get_amplitude, modal_node_reset. cbn [modes set_modes].
  induction (modes node) as [|m ms IH]; cbn [map foldr]; [reflexivity|].
  cbn [params a]. destruct (active (params m)); [|exact IH].
  rewrite IH, cabsf_czero. ring.
Qed.

Lemma reset_amplitude (v : ModalVoice.t) :
  (ModalVoice.getAmplitude (ModalVoice.reset v) == 0)%Q.
Proof. apply modal_node_reset_amplitude. Qed.

Lemma noteOff_set_state (v : ModalVoice.t) :
  ModalVoice.noteOff v
  = if ModalVoice.isActive v then ModalVoice.set_state v ModalVoice.Release else v.
Proof.
  unfold ModalVoice.noteOff, ModalVoice.isActive. by destruct (ModalVoice.state_ v).
Qed.

Lemma modal_node_reset_modes (node : modal_node_t) :
  Forall (fun m => a m = czero /\ a_dot m = czero) (modes (modal_node_reset node)).
Proof.
  unfold modal_node_reset. cbn [modes set_modes]. apply Forall_forall.
  intros m Hm. apply list_elem_of_fmap in Hm. by destruct Hm as (m0 & -> & _).
Qed.

Lemma reset_inactive (v : ModalVoice.t) :
  ModalVoice.isActive (ModalVoice.reset v) = false.
Proof. reflexivity. Qed.

Lemma alter_fixpoint {A : Type} (f : A -> A) (i : nat) (l : list A) :
  (forall x, l !! i = Some x -> f x = x) -> alter f i l = l.
Proof.
  intros Hfix. apply list_eq. intros j.
  destruct (decide (j = i)) as [->|Hne].
  - rewrite list_lookup_alter_eq. destruct (l !! i) eqn:E; [|done].
    cbn. f_equal. by apply Hfix.
  - by rewrite list_lookup_alter_ne.
Qed.

End VoiceFacts.

(** ** The node manager *)

Section NodeManagerFacts.
Import NodeManager.

Lemma set_nodes_eta (nm : NodeManager.t) : set_nodes nm (nodes_ nm) = nm.
Proof. by destruct nm. Qed.

(** A loop whose body works on one node per turn is a loop on the node
    array. *)
Lemma foldl_on_nodes (idxs : list nat) (h : nat -> Z)
    (G : Z -> ModalVoice.t -> ModalVoice.t) (nm : NodeManager.t) :
  foldl (fun nm i => on_node nm (h i) (G (h i))) nm idxs
  = set_nodes nm
      (foldl (fun l i => alter (G (h i)) (Z.to_nat (h i)) l) (nodes_ nm) idxs).
Proof.
  revert nm. induction idxs as [|i idxs IH]; intros nm; cbn [foldl].
  - by rewrite set_nodes_eta.
  - rewrite IH. by destruct nm.
Qed.

Lemma for_range_on_nodes (n : Z) (G : Z -> ModalVoice.t -> ModalVoice.t)
    (nm : NodeManager.t) :
  for_range n (fun i nm => on_node nm i (G i)) nm
  = set_nodes nm (for_range n (fun i l => alter (G i) (Z.to_nat i) l) (nodes_ nm)).
Proof. unfold for_range. apply (foldl_on_nodes _ Z.of_nat). Qed.

Lemma for_from_to_on_nodes (from to : Z) (G : Z -> ModalVoice.t -> ModalVoice.t)
    (nm : NodeManager.t) :
  for_from_to from to (fun i nm => on_node nm i (G i)) nm
  = set_nodes nm
      (for_from_to from to (fun i l => alter (G i) (Z.to_nat i) l) (nodes_ nm)).
Proof.
  unfold for_from_to. apply (foldl_on_nodes _ (fun i => from + Z.of_nat i)).
Qed.

Lemma release_if_active (nm : NodeManager.t) (i : Z) :
  (if node_isActive nm i then on_node nm i ModalVoice.noteOff else nm)
  = on_node nm i ModalVoice.noteOff.
Proof.
  unfold node_isActive, on_node.
  destruct (nodes_ nm !! Z.to_nat i) as [v|] eqn:E.
  - destruct (ModalVoice.isActive v) eqn:Hact; [done|].
    rewrite alter_fixpoint; [by rewrite set_nodes_eta|].
    intros x Hx. rewrite E in Hx. injection Hx as <-. by apply noteOff_inactive.
  - rewrite alter_fixpoint; [by rewrite set_nodes_eta|].
    intros x Hx. by rewrite E in Hx.
Qed.

Lemma allNotesOff_unfold (nm : NodeManager.t) :
  allNotesOff nm
  = set_note_maps
      (set_nodes nm
         (for_range NUM_NETWORK_NODES
            (fun i l => alter ModalVoice.noteOff (Z.to_nat i) l) (nodes_ nm)))
      (replicate 128 255) (note_to_channel_ nm).
Proof.
  unfold allNotesOff.
  rewrite (for_range_ext _ _ (fun i nm => on_node nm i ModalVoice.noteOff))
    by (intros i s; apply release_if_active).
  rewrite (for_range_on_nodes _ (fun _ => ModalVoice.noteOff)).
  by destruct nm.
Qed.

(** [allNotesOff] releases every node and clears the note map. *)
Lemma allNotesOff_nodes (nm : NodeManager.t) (j : nat) :
  length (nodes_ nm) = Z.to_nat NUM_NETWORK_NODES ->
  nodes_ (allNotesOff nm) !! j = ModalVoice.noteOff <$> (nodes_ nm !! j).
Proof.
  intros Hlen. rewrite allNotesOff_unfold. cbn [nodes_ set_note_maps set_nodes].
  rewrite for_range_alter_lookup. case_decide; [done|].
  rewrite lookup_ge_None_2; [done|]. unfold NUM_NETWORK_NODES in *. lia.
Qed.

Lemma allNotesOff_note_map (nm : NodeManager.t) :
  note_to_node_ (allNotesOff nm) = replicate 128 255.
Proof. by rewrite allNotesOff_unfold. Qed.

Lemma allNotesOff_active_node_count (nm : NodeManager.t) :
  active_node_count_ (allNotesOff nm) = active_node_count_ nm.
Proof. by rewrite allNotesOff_unfold. Qed.

Lemma allNotesOff_length (nm : NodeManager.t) :
  length (nodes_ (allNotesOff nm)) = length (nodes_ nm).
Proof.
  rewrite allNotesOff_unfold. cbn [nodes_ set_note_maps set_nodes].
  rewrite <- for_from_to_0. apply for_from_to_alter_length.
Qed.

End NodeManagerFacts.

(** ** Engine reset *)

Section ResetFacts.
Context {core : ModalCore} {topo : Topology}.
Import SynthEngine.

(** [reset] releases the nodes and clears the note map and the control
    counter; it leaves the modal state of every node, and so every
    amplitude, as it was. *)
Lemma reset_preserves_amplitude (e : SynthEngine.t) (j : nat) (v : ModalVoice.t) :
  NodeManager.nodes_ (nodeManager_ e) !! j = Some v ->
  exists v', NodeManager.nodes_ (nodeManager_ (reset e)) !! j = Some v'
    /\ ModalVoice.node_ v' = ModalVoice.node_ v
    /\ ModalVoice.getAmplitude v' = ModalVoice.getAmplitude v.
Proof.
  intros Hj. unfold reset.
  destruct (initialized_ e); cbn [negb]; [|by exists v].
  cbn [nodeManager_ set_controlRateCounter set_nodeManager].
  rewrite allNotesOff_unfold.
  cbn [NodeManager.nodes_ NodeManager.set_note_maps NodeManager.set_nodes].
  rewrite for_range_alter_lookup, Hj.
  case_decide; cbn [fmap option_fmap option_map].
  - exists (ModalVoice.noteOff v).
    by rewrite noteOff_node, noteOff_amplitude.
  - by exists v.
Qed.

End ResetFacts.

Section ResetExamples.
#[local] Existing Instance Reference.core.
#[local] Existing Instance Reference.topology.
Import SynthEngine.

(** C1 (the code at the failing input). After the note-on, node 0 has
    amplitude 1.568; [reset] puts the node into Release and leaves its
    amplitude at 1.568, not 0. *)
Theorem reset_keeps_ringing_amplitude :
  initialized_ ringing_engine = true
  /\ from_option (fun x => (x == 1.568)%Q) False (node_amplitude ringing_engine 0)
  /\ from_option (fun x => (x == 1.568)%Q /\ ~ (x == 0)%Q) False
       (node_amplitude (reset ringing_engine) 0)
  /\ (ModalVoice.getState <$> NodeManager.getNode (nodeManager_ (reset ringing_engine)) 0)
     = Some ModalVoice.Release.
Proof.
  split; [vm_compute; reflexivity|].
  split; [vm_compute; reflexivity|].
  split; [|vm_compute; reflexivity].
  vm_compute. split; [reflexivity|discriminate].
Qed.

End ResetExamples.

(** ** Note routing in the node manager *)

Section RoutingFacts.
Context {core : ModalCore}.
Import NodeManager.

Lemma for_range_S {S : Type} (k : nat) (body : Z -> S -> S) (s : S) :
  for_range (Z.of_nat (Datatypes.S k)) body s
  = body (Z.of_nat k) (for_range (Z.of_nat k) body s).
Proof.
  unfold for_range. rewrite !Nat2Z.id, seq_S, foldl_app. reflexivity.
Qed.

(** A loop whose body changes node [i] only, by a function that may depend
    on the rest of the node manager, is a loop on the node array. *)
Lemma for_range_on_nodes_inv (n : Z) (body : Z -> NodeManager.t -> NodeManager.t)
    (G : Z -> ModalVoice.t -> ModalVoice.t) (nm0 : NodeManager.t) :
  (forall i ns, 0 <= i < n ->
     body i (set_nodes nm0 ns) = set_nodes nm0 (alter (G i) (Z.to_nat i) ns)) ->
  forall ns,
    for_range n body (set_nodes nm0 ns)
    = set_nodes nm0 (for_range n (fun i l => alter (G i) (Z.to_nat i) l) ns).
Proof.
  intros Hbody ns.
  destruct (Z_le_gt_dec n 0) as [Hn|Hn].
  { unfold for_range. by replace (Z.to_nat n) with 0%nat by lia. }
  rewrite <- (Z2Nat.id n) in * by lia.
  revert Hbody. generalize (Z.to_nat n). clear Hn. intros k.
  induction k as [|k IH]; intros Hbody; [done|].
  rewrite !for_range_S, IH by (intros; apply Hbody; lia).
  apply Hbody. lia.
Qed.

Lemma excite_voice_state c pb midi_note velocity node :
  ModalVoice.state_ (excite_voice c pb midi_note velocity node) = ModalVoice.Attack
  /\ ModalVoice.midi_note_ (excite_voice c pb midi_note velocity node) = midi_note
  /\ ModalVoice.age_ (excite_voice c pb midi_note velocity node) = 0.
Proof. repeat split. Qed.

Lemma exciteNode_unfold (nm : NodeManager.t) (node_idx midi_note : Z)
    (velocity : float) (c : NodeCharacter) :
  node_idx < NUM_NETWORK_NODES ->
  current_characters_ nm !! Z.to_nat node_idx = Some c ->
  exciteNode nm node_idx midi_note velocity
  = on_node nm node_idx (excite_voice c (pitch_bend_ nm) midi_note velocity).
Proof.
  intros Hidx Hc. unfold exciteNode.
  destruct (Z.leb_spec NUM_NETWORK_NODES node_idx); [lia|].
  by rewrite Hc.
Qed.

End RoutingFacts.

(** ** The active node count *)

Section NodeCountFacts.
Context {core : ModalCore}.
Import NodeManager.

Lemma same_below_lookup (c : Z) (nm1 nm2 : NodeManager.t) (i : Z) :
  same_below c nm1 nm2 -> 0 <= i < c ->
  nodes_ nm1 !! Z.to_nat i = nodes_ nm2 !! Z.to_nat i.
Proof.
  intros [Htake _] Hi.
  rewrite <- (lookup_take_lt (nodes_ nm1) (Z.to_nat c)) by lia.
  rewrite <- (lookup_take_lt (nodes_ nm2) (Z.to_nat c)) by lia.
  by rewrite Htake.
Qed.

(** The audio of [renderAudio] does not depend on the nodes at or beyond the
    active count: they are not rendered. *)
Lemma renderAudio_same_below (nm1 nm2 : NodeManager.t) (mem : list float)
    (outL outR num_frames : Z) :
  same_below (active_node_count_ nm1) nm1 nm2 ->
  snd <$> renderAudio nm1 mem outL outR num_frames
  = snd <$> renderAudio nm2 mem outL outR num_frames.
Proof.
  intros Hsame. pose proof Hsame as [Htake Hrest].
  assert (Hinit : initialized_ nm2 = initialized_ nm1) by by rewrite <- Hrest.
  assert (Hmax : max_buffer_size_ nm2 = max_buffer_size_ nm1) by by rewrite <- Hrest.
  assert (Hcount : active_node_count_ nm2 = active_node_count_ nm1) by by rewrite <- Hrest.
  unfold renderAudio. rewrite Hinit, Hmax, Hcount.
  destruct (negb (initialized_ nm1)); [done|]. cbv zeta.
  set (c := active_node_count_ nm1) in *.
  match goal with
  | |- snd <$> ?r1 = snd <$> ?r2 =>
      assert (Hloop : option_Forall2
        (fun st1 st2 : NodeManager.t * list float =>
           same_below c (fst st1) (fst st2) /\ snd st1 = snd st2) r1 r2)
  end.
  { apply for_range_opt_related; [done|].
    intros i [nmA memA] [nmB memB] Hi [HAB Hm]. cbn [fst snd] in HAB, Hm. subst memB.
    rewrite <- (same_below_lookup c nmA nmB i HAB Hi).
    destruct (nodes_ nmA !! Z.to_nat i) as [v|] eqn:Hv; [|by constructor].
    destruct (negb (ModalVoice.isActive v)); [by constructor|].
    destruct HAB as [HtakeAB HrestAB].
    assert (HL : temp_buffer_L_ nmB = temp_buffer_L_ nmA) by by rewrite <- HrestAB.
    assert (HR : temp_buffer_R_ nmB = temp_buffer_R_ nmA) by by rewrite <- HrestAB.
    rewrite HL, HR.
    destruct (ModalVoice.renderAudio v _ _ _) as [[[v' l] r]|];
      cbn [mbind option_bind]; [|constructor].
    constructor. cbn [fst snd]. split; [|done]. split.
    - cbn [nodes_ set_temp_buffers set_nodes].
      rewrite !take_insert_lt by lia. by rewrite HtakeAB.
    - rewrite <- HrestAB. reflexivity. }
  destruct Hloop as [[nmA memA] [nmB memB] [_ Hmem]|]; [|done].
  cbn in *. by rewrite Hmem.
Qed.

(** The control-rate update of the nodes leaves the nodes at or beyond the
    active count as they are. *)
Lemma updateNodes_beyond (nm : NodeManager.t) (j : nat) :
  active_node_count_ nm <= Z.of_nat j ->
  nodes_ (updateNodes nm) !! j = nodes_ nm !! j.
Proof.
  intros Hj. unfold updateNodes. destruct (negb _); [done|].
  rewrite <- (set_nodes_eta nm) at 2.
  rewrite (for_range_on_nodes_inv _ _
             (fun i v => if ModalVoice.isActive v then ModalVoice.updateModal v else v)).
  - cbn [nodes_ set_nodes]. rewrite for_range_alter_lookup. case_decide; [lia|done].
  - intros i ns Hi. unfold node_isActive, on_node. cbn [nodes_ set_nodes].
    destruct (ns !! Z.to_nat i) as [v|] eqn:Hv.
    + destruct (ModalVoice.isActive v) eqn:Hact.
      * f_equal. apply list_eq. intros k.
        destruct (decide (k = Z.to_nat i)) as [->|Hk].
        -- rewrite !list_lookup_alter_eq, Hv. cbn. by rewrite Hact.
        -- by rewrite !list_lookup_alter_ne.
      * rewrite alter_fixpoint; [done|].
        intros x Hx. rewrite Hv in Hx. injection Hx as <-. by rewrite Hact.
    + rewrite alter_fixpoint; [done|]. intros x Hx. by rewrite Hv in Hx.
Qed.

(** C7. [setNodeCount] clamps the count to [1, 5]. It first performs
    [allNotesOff], while the active count is still the old one, then
    force-resets every node with index at or beyond the new count, then
    stores the new count. After the call the note map is cleared; a node
    below the count is in Release if it was sounding and otherwise as it
    was, with its modal state untouched; a node at or beyond the count is
    Inactive with age 0, every mode amplitude and its derivative zero, and
    so amplitude 0. Such a node adds nothing afterwards: the control-rate
    update of the nodes leaves it as it is, and the audio [renderAudio]
    writes is the same whatever the nodes at or beyond the count hold. (The
    coupling step of the engine is handed all five nodes; what it does with
    them is the topology engine's.) *)
Theorem setNodeCount_spec (nm : NodeManager.t) (count : Z) :
  length (nodes_ nm) = Z.to_nat NUM_NETWORK_NODES ->
  let c := Z.max 1 (Z.min count NUM_NETWORK_NODES) in
  let nm' := setNodeCount nm count in
  1 <= c <= NUM_NETWORK_NODES
  /\ active_node_count_ nm' = c
  /\ nm' = set_active_node_count
             (for_from_to c NUM_NETWORK_NODES
                (fun i nm => on_node nm i ModalVoice.reset) (allNotesOff nm)) c
  /\ active_node_count_ (allNotesOff nm) = active_node_count_ nm
  /\ note_to_node_ nm' = replicate 128 255
  /\ (forall j v, nodes_ nm !! j = Some v -> Z.of_nat j < c ->
        nodes_ nm' !! j
        = Some (if ModalVoice.isActive v
                then ModalVoice.set_state v ModalVoice.Release else v))
  /\ (forall j v, nodes_ nm !! j = Some v -> c <= Z.of_nat j ->
        exists v', nodes_ nm' !! j = Some v'
          /\ ModalVoice.state_ v' = ModalVoice.Inactive
          /\ ModalVoice.age_ v' = 0
          /\ ModalVoice.samples_since_update_ v' = 0
          /\ Forall (fun m => a m = czero /\ a_dot m = czero)
               (modes (ModalVoice.node_ v'))
          /\ (ModalVoice.getAmplitude v' == 0)%Q)
  /\ (forall j, c <= Z.of_nat j ->
        nodes_ (updateNodes nm') !! j = nodes_ nm' !! j)
  /\ (forall nm2 mem outL outR num_frames,
        same_below c nm' nm2 ->
        snd <$> renderAudio nm2 mem outL outR num_frames
        = snd <$> renderAudio nm' mem outL outR num_frames).
Proof.
  intros Hlen c nm'.
  assert (Hc : 1 <= c <= NUM_NETWORK_NODES) by (unfold c, NUM_NETWORK_NODES; lia).
  assert (Hnm' : nm' = set_active_node_count
             (for_from_to c NUM_NETWORK_NODES
                (fun i nm => on_node nm i ModalVoice.reset) (allNotesOff nm)) c).
  { unfold nm', setNodeCount.
    assert (Hclamp : (let count0 := if count <? 1 then 1 else count in
                      if NUM_NETWORK_NODES <? count0 then NUM_NETWORK_NODES else count0) = c).
    { unfold c, NUM_NETWORK_NODES. cbn zeta.
      destruct (Z.ltb_spec count 1);
        match goal with |- context [5 <? ?x] => destruct (Z.ltb_spec 5 x) end; lia. }
    cbn zeta in Hclamp. by rewrite Hclamp. }
  assert (Hnodes : forall j, nodes_ nm' !! j
            = if decide (c <= Z.of_nat j < NUM_NETWORK_NODES)
              then ModalVoice.reset <$> (ModalVoice.noteOff <$> (nodes_ nm !! j))
              else ModalVoice.noteOff <$> (nodes_ nm !! j)).
  { intros j. rewrite Hnm'.
    rewrite (for_from_to_on_nodes _ _ (fun _ => ModalVoice.reset)).
    cbn [nodes_ set_active_node_count set_nodes].
    rewrite for_from_to_alter_lookup by lia.
    by rewrite allNotesOff_nodes. }
  assert (Hcount : active_node_count_ nm' = c) by by rewrite Hnm'.
  split; [done|]. split; [done|]. split; [done|].
  split; [apply allNotesOff_active_node_count|]. split.
  { rewrite Hnm', (for_from_to_on_nodes _ _ (fun _ => ModalVoice.reset)).
    cbn [note_to_node_ set_active_node_count set_nodes].
    apply allNotesOff_note_map. }
  split; [|split; [|split]].
  - intros j v Hj Hlt. rewrite Hnodes, Hj. case_decide; [lia|].
    cbn. by rewrite noteOff_set_state.
  - intros j v Hj Hge. exists (ModalVoice.reset (ModalVoice.noteOff v)).
    split.
    { rewrite Hnodes, Hj. case_decide; [done|].
      apply lookup_lt_Some in Hj. unfold NUM_NETWORK_NODES in *. lia. }
    split; [done|]. split; [done|]. split; [done|].
    split; [apply modal_node_reset_modes|apply reset_amplitude].
  - intros j Hj. apply updateNodes_beyond. lia.
  - intros nm2 mem outL outR num_frames Hsame. symmetry.
    apply renderAudio_same_below. by rewrite Hcount.
Qed.

End NodeCountFacts.

Section NodeCountExamples.
#[local] Existing Instance Reference.core.
#[local] Existing Instance Reference.topology.
Import NodeManager.

(** With all five nodes sounding, [setNodeCount 3] releases the nodes 0 to 2,
    which keep their amplitudes, and leaves the nodes 3 and 4 inactive with
    amplitude 0. *)
Lemma setNodeCount_spec_witness :
  let nm := sounding_manager in
  let nm' := setNodeCount nm 3 in
  length (nodes_ nm) = Z.to_nat NUM_NETWORK_NODES
  /\ (ModalVoice.state_ <$> nodes_ nm) = replicate 5 ModalVoice.Attack
  /\ manager_amplitude nm 0 1.568%Q /\ manager_amplitude nm 1 0.48%Q
  /\ manager_amplitude nm 2 1.632%Q /\ manager_amplitude nm 3 1.12%Q
  /\ manager_amplitude nm 4 0.744%Q
  /\ note_to_node_ nm !! 60%nat = Some 0
  /\ active_node_count_ nm' = 3
  /\ note_to_node_ nm' = replicate 128 255
  /\ (ModalVoice.state_ <$> nodes_ nm')
     = [ModalVoice.Release; ModalVoice.Release; ModalVoice.Release;
        ModalVoice.Inactive; ModalVoice.Inactive]
  /\ manager_amplitude nm' 0 1.568%Q /\ manager_amplitude nm' 1 0.48%Q
  /\ manager_amplitude nm' 2 1.632%Q /\ manager_amplitude nm' 3 0%Q
  /\ manager_amplitude nm' 4 0%Q.
Proof.
  intros nm nm'.
  assert (Hlen : length (nodes_ nm) = Z.to_nat NUM_NETWORK_NODES)
    by (vm_compute; reflexivity).
  pose proof (setNodeCount_spec nm 3 Hlen) as Hspec. cbv zeta in Hspec.
  destruct Hspec as (_ & Hcount & _ & _ & Hmap & _ & Hreset & _).
  assert (Hzero : forall j, (3 <= j < 5)%nat -> manager_amplitude nm' j 0%Q).
  { intros j Hj.
    destruct (lookup_lt_is_Some_2 (nodes_ nm) j) as [v Hv];
      [rewrite Hlen; unfold NUM_NETWORK_NODES; lia|].
    destruct (Hreset j v Hv) as (v' & Hv' & _ & _ & _ & _ & Hamp);
      [unfold NUM_NETWORK_NODES; lia|].
    unfold manager_amplitude, nm'. rewrite Hv'. exact Hamp. }
  split; [exact Hlen|].
  do 7 (split; [vm_compute; reflexivity|]).
  split; [exact Hcount|]. split; [exact Hmap|].
  do 4 (split; [vm_compute; reflexivity|]).
  split; apply Hzero; lia.
Defined.

End NodeCountExamples.

Section AllNodesRouting.
Context {core : ModalCore}.
Import NodeManager.

Lemma route_all_nodes (nm : NodeManager.t) (midi_note midi_channel : Z) (j : nat) :
  routing_mode_ nm = AllNodes ->
  Z.of_nat j < active_node_count_ nm <= NUM_NETWORK_NODES ->
  let r := routeNoteToNodes nm midi_note midi_channel
             (replicate (Z.to_nat NUM_NETWORK_NODES) 0) in
  snd r = active_node_count_ nm /\ fst r !! j = Some (Z.of_nat j).
Proof.
  intros Hmode Hj. unfold routeNoteToNodes. rewrite Hmode. cbn [fst snd].
  split; [done|].
  rewrite (for_range_ext _ _ (fun i l => alter (fun _ => i) (Z.to_nat i) l))
    by (intros; apply list_insert_alter).
  rewrite for_range_alter_lookup. case_decide; [|lia].
  rewrite lookup_replicate_2; [done|]. unfold NUM_NETWORK_NODES in *. lia.
Qed.

Lemma noteOn_all_nodes (nm : NodeManager.t) (midi_note : Z) (velocity : float)
    (midi_channel : Z) :
  initialized_ nm = true -> routing_mode_ nm = AllNodes ->
  1 <= active_node_count_ nm <= NUM_NETWORK_NODES ->
  length (current_characters_ nm) = Z.to_nat NUM_NETWORK_NODES ->
  0 <= midi_note <= 127 ->
  noteOn nm midi_note velocity midi_channel
  = set_note_maps
      (set_nodes nm
         (for_range (active_node_count_ nm)
            (fun i l => alter (note_on_voice nm midi_note velocity i) (Z.to_nat i) l)
            (nodes_ nm)))
      (<[Z.to_nat midi_note := 0]> (note_to_node_ nm))
      (<[Z.to_nat midi_note := midi_channel]> (note_to_channel_ nm)).
Proof.
  intros Hinit Hmode Hcount Hchars Hnote. unfold noteOn.
  rewrite Hinit. cbn [negb orb].
  destruct (Z.ltb_spec 127 midi_note); [lia|].
  pose proof (fun j => route_all_nodes nm midi_note midi_channel j Hmode) as Hroute.
  cbv zeta in Hroute.
  destruct (routeNoteToNodes nm midi_note midi_channel
              (replicate (Z.to_nat NUM_NETWORK_NODES) 0)) as [tn num] eqn:Er.
  cbn [fst snd] in Hroute.
  assert (Hnum : num = active_node_count_ nm).
  { apply (Hroute 0%nat). lia. }
  subst num.
  match goal with
  | |- context [for_range ?n ?body nm] =>
      pose proof (fun Hbody =>
                    for_range_on_nodes_inv n body
                      (note_on_voice nm midi_note velocity) nm Hbody (nodes_ nm))
        as Hloop
  end.
  rewrite set_nodes_eta in Hloop. rewrite Hloop; clear Hloop.
  - destruct (Z.ltb_spec 0 (active_node_count_ nm)); [|lia].
    rewrite (proj2 (Hroute 0%nat ltac:(lia))). by destruct nm.
  - intros i ns Hi.
    pose proof (proj2 (Hroute (Z.to_nat i) ltac:(lia))) as Htn.
    rewrite Z2Nat.id in Htn by lia.
    cbv zeta. rewrite Htn. cbn [default from_option id].
    destruct (lookup_lt_is_Some_2 (current_characters_ nm) (Z.to_nat i)
                ltac:(unfold NUM_NETWORK_NODES in *; lia)) as [c Hc].
    unfold note_on_voice. rewrite Hc.
    assert (Hex : forall ns',
              exciteNode (set_nodes nm ns') i midi_note velocity
              = set_nodes nm
                  (alter (excite_voice c (pitch_bend_ nm) midi_note velocity)
                     (Z.to_nat i) ns')).
    { intros ns'. rewrite (exciteNode_unfold _ _ _ _ c);
        [by destruct nm | unfold NUM_NETWORK_NODES in *; lia | by destruct nm]. }
    replace (multi_excite_mode_ (set_nodes nm ns)) with (multi_excite_mode_ nm)
      by (by destruct nm).
    destruct (multi_excite_mode_ nm).
    + unfold node_isActive.
      replace (nodes_ (set_nodes nm ns)) with ns by (by destruct nm).
      destruct (ns !! Z.to_nat i) as [v|] eqn:Ev.
      * destruct (ModalVoice.isActive v) eqn:Hact.
        -- replace (on_node (set_nodes nm ns) i ModalVoice.reset)
             with (set_nodes nm (alter ModalVoice.reset (Z.to_nat i) ns))
             by (by destruct nm).
           rewrite Hex. f_equal. rewrite list_alter_alter_eq.
           apply list_alter_ext; [|done].
           intros x Hx. rewrite Ev in Hx. injection Hx as <-. cbn. by rewrite Hact.
        -- rewrite Hex. f_equal. apply list_alter_ext; [|done].
           intros x Hx. rewrite Ev in Hx. injection Hx as <-. by rewrite Hact.
      * rewrite Hex. f_equal. apply list_alter_ext; [|done].
        intros x Hx. by rewrite Ev in Hx.
    + apply Hex.
Qed.

End AllNodesRouting.

Section AllNodesNoteOff.
Context {core : ModalCore}.
Import NodeManager.

Lemma note_on_voice_state (nm : NodeManager.t) midi_note velocity (i : Z)
    (v : ModalVoice.t) :
  is_Some (current_characters_ nm !! Z.to_nat i) ->
  ModalVoice.state_ (note_on_voice nm midi_note velocity i v) = ModalVoice.Attack
  /\ ModalVoice.midi_note_ (note_on_voice nm midi_note velocity i v) = midi_note.
Proof.
  intros [c Hc]. unfold note_on_voice. rewrite Hc.
  match goal with
  | |- context [excite_voice c ?pb ?n ?vel ?x] =>
      destruct (excite_voice_state c pb n vel x) as (H1 & H2 & _)
  end.
  split; assumption.
Qed.

(** C10. In the all-nodes routing mode a note-on excites every node within
    the active node count (each is in Attack for that note afterwards) and
    no node beyond it, and records node 0 for the note. The note-off that
    follows puts node 0 into Release and clears the note's entry; it leaves
    every other node exactly as the note-on left it, so the other excited
    nodes stay in Attack and keep their modal state. *)
Theorem all_nodes_note_off_releases_first_only
    (nm : NodeManager.t) (midi_note : Z) (velocity : float) (midi_channel : Z) :
  initialized_ nm = true -> routing_mode_ nm = AllNodes ->
  1 <= active_node_count_ nm <= NUM_NETWORK_NODES ->
  length (nodes_ nm) = Z.to_nat NUM_NETWORK_NODES ->
  length (current_characters_ nm) = Z.to_nat NUM_NETWORK_NODES ->
  length (note_to_node_ nm) = 128%nat ->
  0 <= midi_note <= 127 ->
  let nm1 := noteOn nm midi_note velocity midi_channel in
  let nm2 := noteOff nm1 midi_note in
  (forall j, Z.of_nat j < active_node_count_ nm ->
     exists v, nodes_ nm1 !! j = Some v
       /\ ModalVoice.state_ v = ModalVoice.Attack
       /\ ModalVoice.midi_note_ v = midi_note)
  /\ (forall j, active_node_count_ nm <= Z.of_nat j -> nodes_ nm1 !! j = nodes_ nm !! j)
  /\ note_to_node_ nm1 !! Z.to_nat midi_note = Some 0
  /\ (exists v, nodes_ nm1 !! 0%nat = Some v
        /\ nodes_ nm2 !! 0%nat = Some (ModalVoice.set_state v ModalVoice.Release))
  /\ (forall j, j <> 0%nat -> nodes_ nm2 !! j = nodes_ nm1 !! j)
  /\ (forall j, (1 <= j)%nat -> Z.of_nat j < active_node_count_ nm ->
        exists v, nodes_ nm2 !! j = Some v
          /\ ModalVoice.state_ v = ModalVoice.Attack
          /\ ModalVoice.midi_note_ v = midi_note)
  /\ note_to_node_ nm2 !! Z.to_nat midi_note = Some 255.
Proof.
  intros Hinit Hmode Hcount Hnodes Hchars Hmap Hnote nm1 nm2.
  assert (Hnm1 := noteOn_all_nodes nm midi_note velocity midi_channel
                    Hinit Hmode Hcount Hchars Hnote).
  fold nm1 in Hnm1.
  assert (Hlook : forall j, nodes_ nm1 !! j
            = if decide (Z.of_nat j < active_node_count_ nm)
              then note_on_voice nm midi_note velocity (Z.of_nat j) <$> (nodes_ nm !! j)
              else nodes_ nm !! j).
  { intros j. rewrite Hnm1. cbn [nodes_ set_note_maps set_nodes].
    apply for_range_alter_lookup. }
  assert (Hexcited : forall j, Z.of_nat j < active_node_count_ nm ->
     exists v, nodes_ nm1 !! j = Some v
       /\ ModalVoice.state_ v = ModalVoice.Attack
       /\ ModalVoice.midi_note_ v = midi_note).
  { intros j Hj. rewrite Hlook. case_decide; [|lia].
    destruct (lookup_lt_is_Some_2 (nodes_ nm) j
                ltac:(unfold NUM_NETWORK_NODES in *; lia)) as [v Hv].
    rewrite Hv. eexists. split; [reflexivity|].
    apply note_on_voice_state. rewrite Nat2Z.id.
    apply lookup_lt_is_Some_2. unfold NUM_NETWORK_NODES in *. lia. }
  assert (Hentry : note_to_node_ nm1 !! Z.to_nat midi_note = Some 0).
  { rewrite Hnm1. cbn [note_to_node_ set_note_maps].
    apply list_lookup_insert_eq. lia. }
  assert (Hnm2 : nm2 = set_note_maps (on_node nm1 0 ModalVoice.noteOff)
                         (<[Z.to_nat midi_note := 255]> (note_to_node_ nm1))
                         (note_to_channel_ nm1)).
  { unfold nm2, noteOff. destruct (Z.ltb_spec 127 midi_note); [lia|].
    rewrite Hentry. cbn [default from_option id]. reflexivity. }
  split; [exact Hexcited|]. split.
  { intros j Hj. rewrite Hlook. case_decide; [lia|done]. }
  split; [exact Hentry|]. split.
  { destruct (Hexcited 0%nat ltac:(lia)) as (v & Hv & Hst & _).
    exists v. split; [done|].
    rewrite Hnm2. cbn [nodes_ set_note_maps on_node set_nodes].
    change (Z.to_nat 0) with 0%nat. rewrite list_lookup_alter_eq, Hv.
    cbn. unfold ModalVoice.noteOff. by rewrite Hst. }
  split.
  { intros j Hj. rewrite Hnm2. cbn [nodes_ set_note_maps on_node set_nodes].
    change (Z.to_nat 0) with 0%nat. by rewrite list_lookup_alter_ne. }
  split.
  { intros j Hj1 Hj. destruct (Hexcited j Hj) as (v & Hv & Hst & Hn).
    exists v. split; [|done].
    rewrite Hnm2. cbn [nodes_ set_note_maps on_node set_nodes].
    change (Z.to_nat 0) with 0%nat. rewrite list_lookup_alter_ne by lia. done. }
  rewrite Hnm2. cbn [note_to_node_ set_note_maps].
  apply list_lookup_insert_eq.
  rewrite Hnm1. cbn [note_to_node_ set_note_maps]. rewrite length_insert. lia.
Qed.

End AllNodesNoteOff.

Section RoutingExamples.
#[local] Existing Instance Reference.core.
#[local] Existing Instance Reference.topology.
Import NodeManager.

Lemma all_nodes_note_off_releases_first_only_witness :
  let nm := all_nodes_manager in
  (initialized_ nm = true /\ routing_mode_ nm = AllNodes
   /\ 1 <= active_node_count_ nm <= NUM_NETWORK_NODES
   /\ length (nodes_ nm) = Z.to_nat NUM_NETWORK_NODES
   /\ length (current_characters_ nm) = Z.to_nat NUM_NETWORK_NODES
   /\ length (note_to_node_ nm) = 128%nat
   /\ 0 <= 60 <= 127)
  /\ note_to_node_ (noteOn nm 60 0.8%Q 0) !! Z.to_nat 60 = Some 0
  /\ note_to_node_ (noteOff (noteOn nm 60 0.8%Q 0) 60) !! Z.to_nat 60 = Some 255.
Proof.
  intros nm.
  assert (H1 : initialized_ nm = true) by reflexivity.
  assert (H2 : routing_mode_ nm = AllNodes) by reflexivity.
  assert (H3 : 1 <= active_node_count_ nm <= NUM_NETWORK_NODES)
    by (vm_compute; split; discriminate).
  assert (H4 : length (nodes_ nm) = Z.to_nat NUM_NETWORK_NODES) by reflexivity.
  assert (H5 : length (current_characters_ nm) = Z.to_nat NUM_NETWORK_NODES)
    by reflexivity.
  assert (H6 : length (note_to_node_ nm) = 128%nat) by reflexivity.
  assert (H7 : 0 <= 60 <= 127) by lia.
  split; [exact (conj H1 (conj H2 (conj H3 (conj H4 (conj H5 (conj H6 H7))))))|].
  pose proof (all_nodes_note_off_releases_first_only nm 60 0.8%Q 0
                H1 H2 H3 H4 H5 H6 H7) as Hspec.
  cbv zeta in Hspec.
  split; [exact (proj1 (proj2 (proj2 Hspec)))|].
  exact (proj2 (proj2 (proj2 (proj2 (proj2 (proj2 Hspec)))))).
Defined.

End RoutingExamples.

(** ** The slicing scheduler *)

Section SchedulerFacts.
Context {core : ModalCore} {topo : Topology}.
Import SynthEngine.

Lemma run_action_None (outL outR : Z) (acts : list action) :
  foldl (run_action outL outR) None acts = None.
Proof. induction acts as [|act acts IH]; [done|]. exact IH. Qed.

Lemma clamp_offset_code (numFrames offset : Z) :
  0 <= numFrames <= INT32_MAX ->
  (let offset0 := if offset <? 0 then 0 else offset in
   if to_int32 numFrames <? offset0 then to_int32 numFrames else offset0)
  = clamp_offset numFrames offset.
Proof.
  intros Hn. cbv zeta. unfold clamp_offset.
  rewrite to_int32_id by (unfold INT32_MAX in *; lia).
  destruct (Z.ltb_spec offset 0);
    match goal with |- context [numFrames <? ?x] => destruct (Z.ltb_spec numFrames x) end;
    lia.
Qed.

Lemma render_events_schedule (events : list SynthEvent) (outL outR numFrames : Z)
    (e : SynthEngine.t) (mem : list float) (lastOffset : Z) :
  0 <= lastOffset <= numFrames -> numFrames <= INT32_MAX ->
  ('(e, mem, lastOffset) ←
     render_events events outL outR numFrames e mem lastOffset;
   if lastOffset <? numFrames then
     renderSlice e mem (outL + lastOffset) (outR + lastOffset) lastOffset
       (numFrames - lastOffset)
   else Some (e, mem))
  = run_schedule outL outR (spec_schedule lastOffset events numFrames) (e, mem).
Proof.
  revert e mem lastOffset.
  induction events as [|event events IH]; intros e mem lastOffset Hlast Hn.
  - cbn [render_events spec_schedule mbind option_bind].
    unfold run_schedule. destruct (lastOffset <? numFrames); reflexivity.
  - cbn [render_events spec_schedule].
    pose proof (clamp_offset_code numFrames (sampleOffset event) ltac:(lia)) as Hclamp.
    cbv zeta in Hclamp. cbv zeta. rewrite Hclamp. clear Hclamp.
    set (offset := clamp_offset numFrames (sampleOffset event)).
    assert (Hoff : 0 <= offset <= numFrames) by (unfold offset, clamp_offset; lia).
    rewrite (to_int32_id lastOffset) by (unfold INT32_MAX in *; lia).
    rewrite (to_uint32_id offset) by (unfold INT32_MAX, UINT32_MAX in *; lia).
    unfold run_schedule. rewrite foldl_app. cbn [foldl].
    destruct (Z.ltb_spec lastOffset offset) as [Hlt|Hge].
    + rewrite to_uint32_id by (unfold INT32_MAX, UINT32_MAX in *; lia).
      cbn [foldl run_action mbind option_bind].
      destruct (renderSlice e mem (outL + lastOffset) (outR + lastOffset)
                  lastOffset (offset - lastOffset)) as [[e1 mem1]|];
        cbn [mbind option_bind].
      * apply IH; lia.
      * by rewrite run_action_None.
    + cbn [foldl run_action mbind option_bind]. apply IH; lia.
Qed.

(** With time-ordered events the slices are laid end to end: the frames
    rendered before an event is applied are exactly the frames from [prev]
    up to the event's clamped offset, and the whole schedule renders the
    frames from [prev] up to [frameCount]. *)
Lemma spec_schedule_position (events : list SynthEvent) (frameCount prev : Z) :
  0 <= prev <= frameCount -> time_ordered prev events ->
  rendered_frames (spec_schedule prev events frameCount) = frameCount - prev
  /\ forall before event after,
       spec_schedule prev events frameCount = before ++ ApplyEvent event :: after ->
       prev + rendered_frames before = clamp_offset frameCount (sampleOffset event).
Proof.
  revert prev. induction events as [|ev events IH]; intros prev Hprev Hord.
  - cbn [spec_schedule]. split.
    + destruct (Z.ltb_spec prev frameCount); cbn; lia.
    + intros before event after Heq.
      destruct (prev <? frameCount); destruct before as [|? [|? ?]]; discriminate.
  - cbn [spec_schedule time_ordered] in *. destruct Hord as [Hle Hord].
    set (offset := clamp_offset frameCount (sampleOffset ev)) in *.
    assert (Hoff : prev <= offset <= frameCount) by (unfold offset, clamp_offset; lia).
    assert (Hord' : time_ordered offset events).
    { destruct events as [|ev' events']; [done|].
      cbn [time_ordered] in *. split; [|tauto].
      unfold offset, clamp_offset. lia. }
    destruct (IH offset ltac:(lia) Hord') as [IHtotal IHpos].
    split.
    + destruct (Z.ltb_spec prev offset); cbn [app rendered_frames]; lia.
    + intros before event after Heq.
      destruct (Z.ltb_spec prev offset) as [Hlt|Hge]; cbn [app] in Heq.
      * destruct before as [|b1 [|b2 before]]; cbn [app] in Heq;
          [discriminate| |].
        -- injection Heq as Hb1 Hev _. subst b1 event.
           cbn [rendered_frames]. fold offset. lia.
        -- injection Heq as Hb1 Hb2 Heq. subst b1 b2. cbn [rendered_frames].
           specialize (IHpos _ _ _ Heq). lia.
      * destruct before as [|b1 before]; cbn [app] in Heq.
        -- injection Heq as Hev _. subst event. cbn [rendered_frames].
           fold offset. lia.
        -- injection Heq as Hb1 Heq. subst b1. cbn [rendered_frames].
           specialize (IHpos _ _ _ Heq). lia.
Qed.

(** On an initialized engine [render] runs the schedule. *)
Lemma render_runs_schedule (e : SynthEngine.t) (mem : list float)
    (events : EventQueue.t) (outL outR frameCount : Z) :
  initialized_ e = true ->
  0 <= frameCount <= INT32_MAX ->
  render e mem events outL outR frameCount
  = run_schedule outL outR
      (spec_schedule 0 (EventQueue.contents events) frameCount) (e, mem).
Proof.
  intros Hinit Hn. unfold render. rewrite Hinit. cbn [negb].
  apply render_events_schedule; lia.
Qed.

End SchedulerFacts.

(** ** Splitting a block at an event *)

Section SplitFacts.
Context {core : ModalCore} {topo : Topology}.
Import SynthEngine.

Lemma spec_schedule_app (es1 es2 : list SynthEvent) (prev n : Z) :
  spec_schedule prev (es1 ++ es2) n
  = fst (events_schedule prev es1 n)
      ++ spec_schedule (snd (events_schedule prev es1 n)) es2 n.
Proof.
  revert prev. induction es1 as [|ev es1 IH]; intros prev; [done|].
  cbn [app spec_schedule events_schedule].
  destruct (events_schedule (clamp_offset n (sampleOffset ev)) es1 n) as [acts last] eqn:E.
  cbn [fst snd]. rewrite IH, E. cbn [fst snd].
  by rewrite <- app_assoc.
Qed.

Lemma spec_schedule_tail (es : list SynthEvent) (prev n : Z) :
  spec_schedule prev es n
  = fst (events_schedule prev es n)
      ++ tail_schedule (snd (events_schedule prev es n)) n.
Proof.
  rewrite <- (app_nil_r es) at 1. by rewrite spec_schedule_app.
Qed.

(** Events at or before [k] are scheduled alike in a block of [k] frames
    and in a longer one. *)
Lemma events_schedule_shorter (es : list SynthEvent) (prev k n : Z) :
  0 <= k <= n -> Forall (fun ev => sampleOffset ev <= k) es ->
  events_schedule prev es n = events_schedule prev es k.
Proof.
  intros Hk Hall. revert prev. induction Hall as [|ev es Hev Hall IH]; intros prev; [done|].
  cbn [events_schedule].
  replace (clamp_offset n (sampleOffset ev)) with (clamp_offset k (sampleOffset ev))
    by (unfold clamp_offset; lia).
  by rewrite IH.
Qed.

Lemma events_schedule_end (es : list SynthEvent) (prev n : Z) :
  0 <= prev <= n -> 0 <= snd (events_schedule prev es n) <= n.
Proof.
  revert prev. induction es as [|ev es IH]; intros prev Hprev; [done|].
  cbn [events_schedule].
  specialize (IH (clamp_offset n (sampleOffset ev)) ltac:(unfold clamp_offset; lia)).
  by destruct (events_schedule (clamp_offset n (sampleOffset ev)) es n).
Qed.

Lemma events_schedule_last (es : list SynthEvent) (ev : SynthEvent) (prev n : Z) :
  snd (events_schedule prev (es ++ [ev]) n) = clamp_offset n (sampleOffset ev).
Proof.
  revert prev. induction es as [|ev' es IH]; intros prev; [done|].
  cbn [app events_schedule].
  specialize (IH (clamp_offset n (sampleOffset ev'))).
  by destruct (events_schedule (clamp_offset n (sampleOffset ev')) (es ++ [ev]) n).
Qed.

(** [renderSlice] does not look at its [startFrame] argument. *)
Lemma renderSlice_startFrame (e : SynthEngine.t) (mem : list float)
    (outL outR start1 start2 frames : Z) :
  renderSlice e mem outL outR start1 frames = renderSlice e mem outL outR start2 frames.
Proof. reflexivity. Qed.

(** The events at or after [k], scheduled from [prev >= k] in the whole
    block, run like their shifted copies scheduled in the second block, whose
    output pointers are [k] frames ahead. *)
Lemma run_schedule_shift (es : list SynthEvent) (outL outR prev k n : Z)
    (s : option (SynthEngine.t * list float)) :
  0 <= k <= prev -> prev <= n ->
  Forall (fun ev => k <= sampleOffset ev) es ->
  foldl (run_action outL outR) s (spec_schedule prev es n)
  = foldl (run_action (outL + k) (outR + k)) s
      (spec_schedule (prev - k) (map (shift_event k) es) (n - k)).
Proof.
  intros Hk Hn Hall. revert prev s Hk Hn.
  induction Hall as [|ev es Hev Hall IH]; intros prev s Hk Hn.
  - cbn [map spec_schedule].
    destruct (Z.ltb_spec prev n); destruct (Z.ltb_spec (prev - k) (n - k)); try lia;
      [|done].
    cbn [foldl]. destruct s as [[e mem]|]; [|done].
    cbn [run_action mbind option_bind].
    replace (outL + k + (prev - k)) with (outL + prev) by lia.
    replace (outR + k + (prev - k)) with (outR + prev) by lia.
    replace (n - k - (prev - k)) with (n - prev) by lia.
    apply renderSlice_startFrame.
  - cbn [map spec_schedule shift_event sampleOffset].
    replace (clamp_offset (n - k) (sampleOffset ev - k))
      with (clamp_offset n (sampleOffset ev) - k) by (unfold clamp_offset; lia).
    set (offset := clamp_offset n (sampleOffset ev)).
    assert (Hoff : k <= offset <= n) by (unfold offset, clamp_offset; lia).
    rewrite !foldl_app. cbn [foldl].
    rewrite <- (IH offset) by lia. f_equal.
    destruct (Z.ltb_spec prev offset); destruct (Z.ltb_spec (prev - k) (offset - k));
      try lia; cbn [foldl]; destruct s as [[e mem]|]; try done.
    cbn [run_action mbind option_bind].
    replace (outL + k + (prev - k)) with (outL + prev) by lia.
    replace (outR + k + (prev - k)) with (outR + prev) by lia.
    replace (offset - k - (prev - k)) with (offset - prev) by lia.
    rewrite (renderSlice_startFrame _ _ _ _ (prev - k) prev).
    by destruct (renderSlice e mem (outL + prev) (outR + prev) prev (offset - prev))
      as [[e1 mem1]|].
Qed.

End SplitFacts.

Section SplitInvariance.
Context {core : ModalCore} {topo : Topology}.
Import SynthEngine.

Lemma renderSlice_initialized (e e1 : SynthEngine.t) (mem mem1 : list float)
    (outL outR start frames : Z) :
  renderSlice e mem outL outR start frames = Some (e1, mem1) ->
  initialized_ e1 = initialized_ e.
Proof.
  unfold renderSlice. cbv zeta.
  destruct (CONTROL_RATE_SAMPLES <=? _).
  - unfold updateControlRate.
    destruct (match couplingMode_ _ with
              | ModalVoice.ComplexDiffusion => _
              | ModalVoice.MagnitudePressure => _
              end) as [te nodes].
    destruct (NodeManager.renderAudio _ _ _ _ _) as [[nm mem']|];
      cbn [mbind option_bind]; [|done].
    intros Heq. injection Heq as <- _. reflexivity.
  - destruct (NodeManager.renderAudio _ _ _ _ _) as [[nm mem']|];
      cbn [mbind option_bind]; [|done].
    intros Heq. injection Heq as <- _. reflexivity.
Qed.

Lemma processEvent_initialized (e : SynthEngine.t) (event : SynthEvent) :
  initialized_ (processEvent e event) = initialized_ e.
Proof.
  unfold processEvent. destruct (data event); try reflexivity.
  unfold setParameter. repeat (destruct (_ =? _); [reflexivity|]). reflexivity.
Qed.

Lemma run_schedule_initialized (outL outR : Z) (acts : list action)
    (e e1 : SynthEngine.t) (mem mem1 : list float) :
  run_schedule outL outR acts (e, mem) = Some (e1, mem1) ->
  initialized_ e1 = initialized_ e.
Proof.
  unfold run_schedule. revert e mem.
  induction acts as [|act acts IH]; intros e mem Hrun; cbn [foldl] in Hrun.
  - by injection Hrun as <- _.
  - destruct (run_action outL outR (Some (e, mem)) act) as [[e' mem']|] eqn:Hact.
    + rewrite (IH _ _ Hrun). destruct act as [start frames|event];
        cbn [run_action mbind option_bind] in Hact.
      * by eapply renderSlice_initialized.
      * injection Hact as <- _. apply processEvent_initialized.
    + by rewrite run_action_None in Hrun.
Qed.

Lemma spec_schedule_boundary (es1 es2 : list SynthEvent) (k n : Z) :
  0 <= k <= n ->
  Forall (fun ev => sampleOffset ev <= k) es1 ->
  split_at_event k es1 es2 ->
  spec_schedule (snd (events_schedule 0 es1 k)) es2 n
  = tail_schedule (snd (events_schedule 0 es1 k)) k ++ spec_schedule k es2 n.
Proof.
  intros Hk Hall [(es & ev & -> & Hoff) | (ev & es & -> & Hoff)].
  - rewrite events_schedule_last. unfold tail_schedule.
    replace (clamp_offset k (sampleOffset ev)) with k by (unfold clamp_offset; lia).
    by rewrite Z.ltb_irrefl.
  - pose proof (events_schedule_end es1 0 k ltac:(lia)) as Hend.
    cbn [spec_schedule]. unfold tail_schedule.
    replace (clamp_offset n (sampleOffset ev)) with k by (unfold clamp_offset; lia).
    rewrite Z.ltb_irrefl. reflexivity.
Qed.

(** C3 (as amended). On an initialized engine, rendering a block of [n]
    frames equals rendering two blocks split at frame [k], the state carried
    over and the output pointers of the second block [k] frames ahead,
    whenever the split point is the offset of an event: the events up to [k]
    go to the first block, the events from [k] on to the second one with
    their offsets shifted by [k]. Both ways run the same sequence of slices
    and events, so the engine state (the control-rate counter included) and
    the output are identical. *)
Theorem render_split_at_event (e : SynthEngine.t) (mem : list float)
    (q q1 q2 : EventQueue.t) (es1 es2 : list SynthEvent) (outL outR n k : Z) :
  initialized_ e = true ->
  0 <= k <= n -> n <= INT32_MAX ->
  EventQueue.contents q = es1 ++ es2 ->
  EventQueue.contents q1 = es1 ->
  EventQueue.contents q2 = map (shift_event k) es2 ->
  Forall (fun ev => sampleOffset ev <= k) es1 ->
  Forall (fun ev => k <= sampleOffset ev) es2 ->
  split_at_event k es1 es2 ->
  render e mem q outL outR n
  = '(e1, mem1) ← render e mem q1 outL outR k;
    render e1 mem1 q2 (outL + k) (outR + k) (n - k).
Proof.
  intros Hinit Hk Hn Hq Hq1 Hq2 Hes1 Hes2 Hsplit.
  rewrite (render_runs_schedule e mem q outL outR n Hinit) by lia.
  rewrite (render_runs_schedule e mem q1 outL outR k Hinit) by lia.
  assert (Hsched : spec_schedule 0 (es1 ++ es2) n
                   = spec_schedule 0 es1 k ++ spec_schedule k es2 n).
  { rewrite spec_schedule_app, (events_schedule_shorter es1 0 k n) by (lia || done).
    rewrite (spec_schedule_boundary es1 es2 k n) by (lia || done).
    by rewrite app_assoc, <- spec_schedule_tail. }
  rewrite Hq, Hq1, Hsched. unfold run_schedule at 1. rewrite foldl_app.
  fold (run_schedule outL outR (spec_schedule 0 es1 k) (e, mem)).
  destruct (run_schedule outL outR (spec_schedule 0 es1 k) (e, mem))
    as [[e1 mem1]|] eqn:Hrun1; cbn [mbind option_bind].
  - assert (Hinit1 : initialized_ e1 = true)
      by (rewrite <- Hinit; by eapply run_schedule_initialized).
    rewrite (render_runs_schedule e1 mem1 q2 (outL + k) (outR + k) (n - k) Hinit1)
      by lia.
    rewrite Hq2. unfold run_schedule.
    rewrite (run_schedule_shift es2 outL outR k k n) by (lia || done).
    by rewrite Z.sub_diag.
  - apply run_action_None.
Qed.

End SplitInvariance.

Section SchedulerExamples.
#[local] Existing Instance Reference.core.
#[local] Existing Instance Reference.topology.
Import SynthEngine.

Lemma render_split_at_event_witness :
  let q := queue_of (example_head ++ example_tail) in
  let q1 := queue_of example_head in
  let q2 := queue_of (map (shift_event 40) example_tail) in
  let mem := replicate 128 0%Q in
  (initialized_ prepared_engine = true
   /\ 0 <= 40 <= 64 /\ 64 <= INT32_MAX
   /\ EventQueue.contents q = example_head ++ example_tail
   /\ EventQueue.contents q1 = example_head
   /\ EventQueue.contents q2 = map (shift_event 40) example_tail
   /\ Forall (fun ev => sampleOffset ev <= 40) example_head
   /\ Forall (fun ev => 40 <= sampleOffset ev) example_tail
   /\ split_at_event 40 example_head example_tail)
  /\ render prepared_engine mem q 0 64 64
     = '(e1, mem1) ← render prepared_engine mem q1 0 64 40;
       render e1 mem1 q2 (0 + 40) (64 + 40) (64 - 40).
Proof.
  intros q q1 q2 mem.
  assert (H1 : initialized_ prepared_engine = true) by reflexivity.
  assert (H2 : 0 <= 40 <= 64) by lia.
  assert (H3 : 64 <= INT32_MAX) by (unfold INT32_MAX; lia).
  assert (H4 : EventQueue.contents q = example_head ++ example_tail) by reflexivity.
  assert (H5 : EventQueue.contents q1 = example_head) by reflexivity.
  assert (H6 : EventQueue.contents q2 = map (shift_event 40) example_tail)
    by reflexivity.
  assert (H7 : Forall (fun ev => sampleOffset ev <= 40) example_head)
    by (repeat constructor; cbn; lia).
  assert (H8 : Forall (fun ev => 40 <= sampleOffset ev) example_tail)
    by (repeat constructor; cbn; lia).
  assert (H9 : split_at_event 40 example_head example_tail)
    by (right; exists (mkSynthEvent 40 (noteOff_data 60)), []; split; reflexivity).
  split; [exact (conj H1 (conj H2 (conj H3 (conj H4 (conj H5 (conj H6
            (conj H7 (conj H8 H9))))))))|].
  exact (render_split_at_event prepared_engine mem q q1 q2 example_head example_tail
           0 64 64 40 H1 H2 H3 H4 H5 H6 H7 H8 H9).
Defined.

(** C3 (counterexample). The control updates depend on how the block is
    sliced. A block of 480 frames, rendered from the same state with node 0
    sounding: without events it is one slice and one control update, and
    node 0 takes 6 modal steps; with one control-change event at offset 240,
    which itself changes nothing, it is two slices of 240 frames and two
    control updates, and node 0 takes 7 modal steps; rendered as two blocks
    of 240 frames with the state carried over it takes 7 steps as well. And
    the counter drops what it accumulated beyond the period: after 300
    frames in one slice it is 0, after slices of 250 and 50 frames it is
    50. *)
Lemma slicing_changes_control_updates :
  let mem := replicate 960 0%Q in
  let unsliced := render ringing_engine mem (queue_of []) 0 480 480 in
  let sliced := render ringing_engine mem (queue_of [cc_event 240]) 0 480 480 in
  let two_blocks :=
    '(e1, mem1) ← render ringing_engine mem (queue_of []) 0 480 240;
    render e1 mem1 (queue_of []) (0 + 240) (480 + 240) 240 in
  processEvent ringing_engine (cc_event 240) = ringing_engine
  /\ node0_age unsliced = Some 6
  /\ node0_age sliced = Some 7
  /\ node0_age two_blocks = Some 7
  /\ unsliced <> sliced
  /\ unsliced <> two_blocks
  /\ (controlRateCounter_ ∘ fst) <$> render ringing_engine mem (queue_of []) 0 480 300
     = Some 0
  /\ (controlRateCounter_ ∘ fst)
       <$> render ringing_engine mem (queue_of [cc_event 250]) 0 480 300
     = Some 50.
Proof.
  intros mem unsliced sliced two_blocks.
  assert (Hu : node0_age unsliced = Some 6) by (vm_compute; reflexivity).
  assert (Hs : node0_age sliced = Some 7) by (vm_compute; reflexivity).
  assert (Ht : node0_age two_blocks = Some 7) by (vm_compute; reflexivity).
  clearbody unsliced sliced two_blocks.
  split; [reflexivity|]. split; [exact Hu|]. split; [exact Hs|]. split; [exact Ht|].
  split; [|split; [|split; vm_compute; reflexivity]].
  - intros Heq. subst sliced. rewrite Hu in Hs. discriminate.
  - intros Heq. subst two_blocks. rewrite Hu in Ht. discriminate.
Qed.

End SchedulerExamples.

(** ** The voice allocator *)

Section AllocatorFacts.
Context {core : ModalCore}.
Import VoiceAllocator.

Lemma for_range_preserves {S : Type} (P : S -> Prop) (n : Z) (body : Z -> S -> S) (s : S) :
  P s -> (forall i s, P s -> P (body i s)) -> P (for_range n body s).
Proof.
  intros Hs Hbody. unfold for_range. generalize (seq 0 (Z.to_nat n)). intros idxs.
  revert s Hs. induction idxs as [|i idxs IH]; intros s Hs; cbn [foldl]; [done|].
  apply IH, Hbody, Hs.
Qed.

Lemma setMode_fields (v : ModalVoice.t) (mode_idx : Z) (freq_hz d w : float) :
  ModalVoice.state_ (ModalVoice.setMode v mode_idx freq_hz d w) = ModalVoice.state_ v
  /\ ModalVoice.midi_note_ (ModalVoice.setMode v mode_idx freq_hz d w)
     = ModalVoice.midi_note_ v
  /\ ModalVoice.age_ (ModalVoice.setMode v mode_idx freq_hz d w) = ModalVoice.age_ v.
Proof. unfold ModalVoice.setMode. by destruct (MAX_MODES <=? mode_idx). Qed.

(** A triggered voice is in Attack for the new note, with age 0. *)
Lemma trigger_fields (va : VoiceAllocator.t) (v : ModalVoice.t) (midi_note : Z)
    (velocity : float) :
  ModalVoice.state_ (trigger va v midi_note velocity) = ModalVoice.Attack
  /\ ModalVoice.midi_note_ (trigger va v midi_note velocity) = midi_note
  /\ ModalVoice.age_ (trigger va v midi_note velocity) = 0.
Proof.
  unfold trigger. cbv zeta.
  apply (for_range_preserves
           (fun v => ModalVoice.state_ v = ModalVoice.Attack
                     /\ ModalVoice.midi_note_ v = midi_note
                     /\ ModalVoice.age_ v = 0)).
  - repeat split.
  - intros i s (Hst & Hn & Ha). destruct (mode_params_ va !! Z.to_nat i) as [mp|]; [|done].
    match goal with
    | |- context [ModalVoice.setMode s i ?f ?d ?w] =>
        destruct (setMode_fields s i f d w) as (-> & -> & ->)
    end.
    done.
Qed.

(** C6. When a note is already mapped to a live instance, a second
    [noteOn] for it returns that same instance, re-triggered (in Attack for
    the note, age 0); the note map is unchanged, so the note still has this
    one voice, and no other voice of the pool is touched: nothing is
    allocated and nothing is stolen. *)
Theorem noteOn_retriggers_mapped_voice (va : VoiceAllocator.t) (midi_note : Z)
    (velocity : float) (i : Z) (v : ModalVoice.t) :
  initialized_ va = true ->
  0 <= midi_note <= 127 ->
  note_to_voice_ va !! Z.to_nat midi_note = Some i -> 0 <= i ->
  voices_ va !! Z.to_nat i = Some v -> ModalVoice.isActive v = true ->
  let va' := fst (noteOn va midi_note velocity) in
  snd (noteOn va midi_note velocity) = Some i
  /\ note_to_voice_ va' = note_to_voice_ va
  /\ voices_ va' !! Z.to_nat i = Some (trigger va v midi_note velocity)
  /\ (forall j, j <> Z.to_nat i -> voices_ va' !! j = voices_ va !! j)
  /\ length (voices_ va') = length (voices_ va)
  /\ ModalVoice.state_ (trigger va v midi_note velocity) = ModalVoice.Attack
  /\ ModalVoice.midi_note_ (trigger va v midi_note velocity) = midi_note.
Proof.
  intros Hinit Hnote Hmap Hi Hv Hact va'.
  assert (Hon : noteOn va midi_note velocity
                = (on_voice va i (fun v => trigger va v midi_note velocity), Some i)).
  { unfold noteOn. rewrite Hinit. cbn [negb orb].
    destruct (Z.ltb_spec 127 midi_note); [lia|].
    rewrite Hmap. cbn [default from_option id].
    destruct (Z.leb_spec 0 i); [done|lia]. }
  unfold va'. rewrite Hon. cbn [fst snd on_voice set_voices voices_ note_to_voice_].
  split; [done|]. split; [done|]. split.
  { by rewrite list_lookup_alter_eq, Hv. }
  split; [intros j Hj; by rewrite list_lookup_alter_ne|].
  split; [apply length_alter|].
  split; apply trigger_fields.
Qed.

(** The scan of [stealOldestVoice]: it answers the first voice of greatest
    age among the live voices within the active count when that age is
    positive, and no voice when no live voice has a positive age. *)
Lemma oldest_scan_spec (va : VoiceAllocator.t) :
  0 <= active_node_count_ va ->
  let '(oldest, max_age) := oldest_scan va in
  0 <= max_age
  /\ (forall j, 0 <= j < active_node_count_ va -> voice_isActive va j = true ->
        voice_age va j <= max_age)
  /\ match oldest with
     | None => max_age = 0
     | Some i =>
         0 <= i < active_node_count_ va /\ voice_isActive va i = true
         /\ voice_age va i = max_age /\ 0 < max_age
         /\ forall j, 0 <= j < i -> voice_isActive va j = true ->
              voice_age va j < max_age
     end.
Proof.
  intros Hn. unfold oldest_scan.
  rewrite <- (Z2Nat.id (active_node_count_ va)) by lia.
  generalize (Z.to_nat (active_node_count_ va)). intros k.
  induction k as [|k IH].
  - cbn. repeat split; try lia.
  - rewrite for_range_S.
    destruct (for_range (Z.of_nat k) _ _) as [oldest max_age].
    destruct IH as (Hmax & Hall & Hold).
    destruct (voice_isActive va (Z.of_nat k)) eqn:Hact.
    + destruct (Z.ltb_spec max_age (voice_age va (Z.of_nat k))) as [Hlt|Hge].
      * split; [lia|]. split.
        -- intros j Hj Hj'. destruct (decide (j = Z.of_nat k)) as [->|Hne]; [lia|].
           specialize (Hall j ltac:(lia) Hj'). lia.
        -- repeat split; try lia; try done.
           intros j Hj Hj'. specialize (Hall j ltac:(lia) Hj'). lia.
      * split; [lia|]. split.
        -- intros j Hj Hj'. destruct (decide (j = Z.of_nat k)) as [->|Hne]; [lia|].
           apply Hall; [lia|done].
        -- destruct oldest as [i|]; [|done].
           destruct Hold as (? & ? & ? & ? & ?). repeat split; try lia; done.
    + split; [lia|]. split.
      * intros j Hj Hj'. destruct (decide (j = Z.of_nat k)) as [->|Hne].
        -- by rewrite Hact in Hj'.
        -- apply Hall; [lia|done].
      * destruct oldest as [i|]; [|done].
        destruct Hold as (? & ? & ? & ? & ?). repeat split; try lia; done.
Qed.

End AllocatorFacts.

Section StealingFacts.
Context {core : ModalCore}.
Import VoiceAllocator.

Lemma for_range_preserves_in_range {S : Type} (P : S -> Prop) (n : Z)
    (body : Z -> S -> S) (s : S) :
  P s -> (forall i s, 0 <= i < n -> P s -> P (body i s)) -> P (for_range n body s).
Proof.
  intros Hs Hbody.
  destruct (Z_le_gt_dec n 0) as [Hn|Hn].
  { unfold for_range. by replace (Z.to_nat n) with 0%nat by lia. }
  rewrite <- (Z2Nat.id n) in * by lia.
  revert Hbody. generalize (Z.to_nat n). clear Hn. intros k.
  induction k as [|k IH]; intros Hbody; [done|].
  rewrite for_range_S. apply Hbody; [lia|]. apply IH. intros. apply Hbody; [lia|done].
Qed.

Lemma findFreeVoice_none (va : VoiceAllocator.t) :
  (forall j, 0 <= j < active_node_count_ va -> voice_isActive va j = true) ->
  findFreeVoice va = None.
Proof.
  intros Hlive. unfold findFreeVoice.
  apply (for_range_preserves_in_range (fun found => found = None)); [done|].
  intros i s Hi ->. by rewrite Hlive.
Qed.

Lemma noteOn_exhausted (va : VoiceAllocator.t) (midi_note : Z) (velocity : float) :
  pool_exhausted va midi_note ->
  noteOn va midi_note velocity
  = match fst (oldest_scan va) with
    | Some i =>
        let va1 := on_voice va i ModalVoice.reset in
        let va2 := on_voice va1 i (fun v => trigger va1 v midi_note velocity) in
        (set_note_to_voice va2 (<[Z.to_nat midi_note := to_int8 i]> (note_to_voice_ va2)),
         Some i)
    | None => (va, None)
    end.
Proof.
  intros (Hinit & Hnote & (m & Hmap & Hm) & Hn & Hlive).
  unfold noteOn. rewrite Hinit. cbn [negb orb].
  destruct (Z.ltb_spec 127 midi_note); [lia|].
  rewrite Hmap. cbn [default from_option id].
  destruct (Z.leb_spec 0 m); [lia|].
  rewrite findFreeVoice_none by done.
  unfold stealOldestVoice. by destruct (fst (oldest_scan va)).
Qed.

(** The stealing policy where it works: when some live voice has a positive
    age that is strictly the greatest, the note-on steals exactly that
    voice: it is reset and triggered for the new note, the note is mapped to
    it, and no other voice changes. *)
Lemma noteOn_steals_oldest (va : VoiceAllocator.t) (midi_note : Z) (velocity : float)
    (i : Z) (v : ModalVoice.t) :
  pool_exhausted va midi_note ->
  0 <= i < active_node_count_ va ->
  voices_ va !! Z.to_nat i = Some v ->
  0 < voice_age va i ->
  (forall j, 0 <= j < active_node_count_ va -> j <> i -> voice_age va j < voice_age va i) ->
  let va' := fst (noteOn va midi_note velocity) in
  snd (noteOn va midi_note velocity) = Some i
  /\ (exists v', voices_ va' !! Z.to_nat i = Some v'
        /\ v' = trigger va (ModalVoice.reset v) midi_note velocity
        /\ ModalVoice.state_ v' = ModalVoice.Attack
        /\ ModalVoice.midi_note_ v' = midi_note)
  /\ (forall j, j <> Z.to_nat i -> voices_ va' !! j = voices_ va !! j)
  /\ note_to_voice_ va' = <[Z.to_nat midi_note := to_int8 i]> (note_to_voice_ va).
Proof.
  intros Hex Hi Hv Hage Hmax va'.
  pose proof Hex as (_ & _ & _ & Hn & Hlive).
  pose proof (oldest_scan_spec va Hn) as Hscan.
  assert (Hon := noteOn_exhausted va midi_note velocity Hex).
  destruct (oldest_scan va) as [oldest max_age]. cbn [fst] in Hon.
  destruct Hscan as (_ & Hall & Hold).
  pose proof (Hall i Hi (Hlive i Hi)) as Hle.
  destruct oldest as [i'|]; [|lia].
  destruct Hold as (Hi' & _ & Hage' & _ & _).
  assert (i' = i) as ->.
  { destruct (decide (i' = i)) as [|Hne]; [done|].
    specialize (Hmax i' Hi' Hne). lia. }
  unfold va'. rewrite Hon. cbv zeta.
  cbn [fst snd on_voice set_voices set_note_to_voice voices_ note_to_voice_].
  split; [done|]. split.
  - eexists. split; [|split; [reflexivity|split; apply trigger_fields]].
    by rewrite !list_lookup_alter_eq, Hv.
  - split; [|done]. intros j Hj. by rewrite !list_lookup_alter_ne.
Qed.

(** The stealing policy where it fails: when no live voice within the
    active count has a positive age (all were triggered since the last
    control update), the scan finds no voice, nothing is stolen, and the
    note-on returns no voice and leaves the allocator as it was. *)
Lemma noteOn_steals_nothing_at_age_zero (va : VoiceAllocator.t) (midi_note : Z)
    (velocity : float) :
  pool_exhausted va midi_note ->
  (forall j, 0 <= j < active_node_count_ va -> voice_age va j <= 0) ->
  noteOn va midi_note velocity = (va, None).
Proof.
  intros Hex Hzero.
  pose proof Hex as (_ & _ & _ & Hn & Hlive).
  pose proof (oldest_scan_spec va Hn) as Hscan.
  rewrite (noteOn_exhausted va midi_note velocity Hex).
  destruct (oldest_scan va) as [oldest max_age]. cbn [fst].
  destruct Hscan as (_ & _ & Hold).
  destruct oldest as [i|]; [|done].
  destruct Hold as (Hi & _ & Hage & Hpos & _).
  specialize (Hzero i Hi). lia.
Qed.

End StealingFacts.

Section AllocatorExamples.
#[local] Existing Instance Reference.core.
Import VoiceAllocator.

(** C5 (the code at the failing input). With every voice within the active
    count live and just triggered (age 0), a note-on for an unmapped note
    steals nothing: it returns no voice and changes nothing, for one active
    voice (trivially the oldest) as for five. *)
Theorem noteOn_after_chord_steals_nothing :
  pool_exhausted one_voice_playing 61
  /\ voice_age one_voice_playing 0 = 0
  /\ noteOn one_voice_playing 61 0.9%Q = (one_voice_playing, None)
  /\ pool_exhausted five_voices_playing 65
  /\ noteOn five_voices_playing 65 0.9%Q = (five_voices_playing, None).
Proof.
  assert (H1 : pool_exhausted one_voice_playing 61).
  { split; [reflexivity|]. split; [lia|]. split; [exists (-1); split; [reflexivity|lia]|].
    split; [vm_compute; discriminate|].
    intros j Hj. assert (j = 0) as ->
      by (change (active_node_count_ one_voice_playing) with 1 in Hj; lia). reflexivity. }
  assert (H5 : pool_exhausted five_voices_playing 65).
  { split; [reflexivity|]. split; [lia|]. split; [exists (-1); split; [reflexivity|lia]|].
    split; [vm_compute; discriminate|].
    intros j Hj.
    assert (j = 0 \/ j = 1 \/ j = 2 \/ j = 3 \/ j = 4) as [-> | [-> | [-> | [-> | ->]]]]
      by (change (active_node_count_ five_voices_playing) with 5 in Hj; lia);
      reflexivity. }
  split; [exact H1|]. split; [reflexivity|].
  split; [|split; [exact H5|]].
  - apply noteOn_steals_nothing_at_age_zero; [exact H1|].
    intros j Hj. assert (j = 0) as ->
      by (change (active_node_count_ one_voice_playing) with 1 in Hj; lia). vm_compute. discriminate.
  - apply noteOn_steals_nothing_at_age_zero; [exact H5|].
    intros j Hj.
    assert (j = 0 \/ j = 1 \/ j = 2 \/ j = 3 \/ j = 4) as [-> | [-> | [-> | [-> | ->]]]]
      by (change (active_node_count_ five_voices_playing) with 5 in Hj; lia);
      vm_compute; discriminate.
Qed.

Lemma noteOn_retriggers_mapped_voice_witness :
  let va := one_voice_playing in
  (initialized_ va = true /\ 0 <= 60 <= 127
   /\ note_to_voice_ va !! Z.to_nat 60 = Some 0 /\ 0 <= 0
   /\ is_Some (voices_ va !! Z.to_nat 0))
  /\ snd (noteOn va 60 0.5%Q) = Some 0
  /\ note_to_voice_ (fst (noteOn va 60 0.5%Q)) = note_to_voice_ va.
Proof.
  intros va.
  assert (H1 : initialized_ va = true) by reflexivity.
  assert (H2 : 0 <= 60 <= 127) by lia.
  assert (H3 : note_to_voice_ va !! Z.to_nat 60 = Some 0) by reflexivity.
  assert (H4 : 0 <= 0) by lia.
  destruct (voices_ va !! Z.to_nat 0) as [v|] eqn:H5; [|vm_compute in H5; discriminate].
  assert (H6 : ModalVoice.isActive v = true).
  { vm_compute in H5. injection H5 as <-. reflexivity. }
  split; [exact (conj H1 (conj H2 (conj H3 (conj H4 (ex_intro _ v eq_refl)))))|].
  pose proof (noteOn_retriggers_mapped_voice va 60 0.5%Q 0 v H1 H2 H3 H4 H5 H6) as Hspec.
  cbv zeta in Hspec.
  exact (conj (proj1 Hspec) (proj1 (proj2 Hspec))).
Defined.

End AllocatorExamples.

(** ** Rendering returns *)

Section LoopTermination.

(** A loop whose steps decrease a non-negative measure ends within the
    budget when the measure starts below it. *)
Lemma while_fuel_measure {A : Type} (I : A -> Prop) (m : A -> Z) (step : A -> A + A)
    (p : positive) (x : A) :
  (forall y y', I y -> step y = inr y' -> I y' /\ m y' < m y) ->
  I x ->
  match while_fuel p step x with
  | inl _ => True
  | inr y => I y /\ m y + Zpos p <= m x
  end.
Proof.
  intros Hstep. revert x. induction p as [p IH|p IH|]; intros x Hx; cbn [while_fuel].
  - destruct (step x) as [r|y] eqn:E; [done|].
    destruct (Hstep x y Hx E) as [Hy Hlt].
    pose proof (IH y Hy) as IHy. destruct (while_fuel p step y) as [r|z]; [done|].
    destruct IHy as [Hz Hle]. pose proof (IH z Hz) as IHz.
    destruct (while_fuel p step z) as [r|w]; [done|].
    destruct IHz as [Hw Hle']. split; [done|lia].
  - pose proof (IH x Hx) as IHx. destruct (while_fuel p step x) as [r|y]; [done|].
    destruct IHx as [Hy Hle]. pose proof (IH y Hy) as IHy.
    destruct (while_fuel p step y) as [r|z]; [done|].
    destruct IHy as [Hz Hle']. split; [done|lia].
  - destruct (step x) as [r|y] eqn:E; [done|].
    destruct (Hstep x y Hx E) as [Hy Hlt]. split; [done|lia].
Qed.

(** What the loop returns satisfies an invariant that its steps keep. *)
Lemma while_fuel_invariant {A : Type} (I : A -> Prop) (step : A -> A + A)
    (p : positive) (x r : A) :
  (forall y y', I y -> step y = inr y' -> I y') ->
  (forall y y', I y -> step y = inl y' -> I y') ->
  I x -> while_fuel p step x = inl r -> I r.
Proof.
  intros Hr Hl. revert x r.
  assert (Hboth : forall p x, I x ->
            match while_fuel p step x with inl r => I r | inr y => I y end).
  { clear p. intros p. induction p as [p IH|p IH|]; intros x Hx; cbn [while_fuel].
    - destruct (step x) as [r|y] eqn:E; [by eapply Hl|].
      pose proof (IH y (Hr _ _ Hx E)) as IHy.
      destruct (while_fuel p step y) as [r|z]; [done|]. apply IH, IHy.
    - pose proof (IH x Hx) as IHx.
      destruct (while_fuel p step x) as [r|y]; [done|]. apply IH, IHx.
    - destruct (step x) as [r|y] eqn:E; [by eapply Hl|by eapply Hr]. }
  intros x r Hx Hres. specialize (Hboth p x Hx). by rewrite Hres in Hboth.
Qed.

End LoopTermination.

Section VoiceTermination.
Context {core : ModalCore}.

Lemma updateModal_timing (v : ModalVoice.t) :
  ModalVoice.samples_per_update_ (ModalVoice.updateModal v)
  = ModalVoice.samples_per_update_ v
  /\ (ModalVoice.isActive v = false /\ ModalVoice.updateModal v = v
      \/ ModalVoice.isActive v = true
         /\ ModalVoice.isActive (ModalVoice.updateModal v) = true
         /\ ModalVoice.samples_since_update_ (ModalVoice.updateModal v)
            = ModalVoice.samples_since_update_ v
      \/ ModalVoice.isActive v = true
         /\ ModalVoice.isActive (ModalVoice.updateModal v) = false
         /\ ModalVoice.samples_since_update_ (ModalVoice.updateModal v) = 0).
Proof.
  unfold ModalVoice.updateModal, ModalVoice.updateState, ModalVoice.isActive.
  destruct (ModalVoice.state_ v) eqn:Hst; cbn; rewrite ?Hst.
  - split; [done|]. by left.
  - destruct (personality _); cbn; rewrite ?Hst; split; try done;
      right; left; done.
  - cbn. rewrite ?Hst. split; [done|]. right; left; done.
  - destruct (flt _ _); cbn; rewrite ?Hst; split; try done.
    + right; right; done.
    + right; left; done.
Qed.

Lemma control_loop_step_decreases (v v' : ModalVoice.t) :
  voice_timed v -> ModalVoice.control_loop_step v = inr v' ->
  voice_timed v' /\ control_loop_measure v' < control_loop_measure v.
Proof.
  unfold voice_timed, ModalVoice.control_loop_step, control_loop_measure, UINT32_MAX.
  intros [Hspu Hssu].
  destruct (Z.leb_spec (ModalVoice.samples_per_update_ v)
              (ModalVoice.samples_since_update_ v)) as [Hle|]; [|done].
  intros Heq. injection Heq as <-.
  replace (ModalVoice.isActive (ModalVoice.set_samples_since_update _ _))
    with (ModalVoice.isActive (ModalVoice.updateModal v)) by reflexivity.
  cbn [ModalVoice.samples_per_update_ ModalVoice.samples_since_update_
       ModalVoice.set_samples_since_update].
  destruct (updateModal_timing v) as [Hp Hs]. rewrite Hp.
  assert (Hmod : forall z, 0 <= to_uint32 z <= 2 ^ 32 - 1).
  { intros z. unfold to_uint32. pose proof (Z.mod_pos_bound z (2 ^ 32)). lia. }
  split; [split; [lia|apply Hmod]|].
  destruct Hs as [[Hin ->] | [(Hact & Hact' & ->) | (Hact & Hact' & ->)]].
  - rewrite to_uint32_id by (unfold UINT32_MAX; lia). rewrite Hin. lia.
  - rewrite to_uint32_id by (unfold UINT32_MAX; lia). rewrite Hact, Hact'. lia.
  - rewrite Hact, Hact'. unfold to_uint32.
    replace ((0 - ModalVoice.samples_per_update_ v) mod 2 ^ 32)
      with (2 ^ 32 - ModalVoice.samples_per_update_ v); [lia|].
    apply Z.mod_unique_pos with (q := -1); lia.
Qed.

Lemma control_loop_step_exit (v v' : ModalVoice.t) :
  voice_timed v -> ModalVoice.control_loop_step v = inl v' -> voice_timed v'.
Proof.
  unfold ModalVoice.control_loop_step. intros Hv.
  destruct (_ <=? _); [done|]. intros Heq. by injection Heq as <-.
Qed.

(** The control loop of [renderAudio] ends on every voice with a positive
    control period, and [renderAudio] returns. *)
Lemma voice_renderAudio_returns (v : ModalVoice.t) (outL outR : list float)
    (num_frames : Z) :
  voice_timed v ->
  exists v' l r,
    ModalVoice.renderAudio v outL outR num_frames = Some (v', l, r)
    /\ voice_timed v'.
Proof.
  intros Hv. unfold ModalVoice.renderAudio.
  set (v0 := ModalVoice.set_samples_since_update v
               (to_uint32 (ModalVoice.samples_since_update_ v + num_frames))).
  assert (Hv0 : voice_timed v0).
  { destruct Hv as [Hspu _]. split; [exact Hspu|]. cbn. unfold to_uint32, UINT32_MAX.
    pose proof (Z.mod_pos_bound (ModalVoice.samples_since_update_ v + num_frames)
                  (2 ^ 32)). lia. }
  assert (Hloop : exists v1, while_fuel ModalVoice.LOOP_BUDGET
                               ModalVoice.control_loop_step v0 = inl v1
                             /\ voice_timed v1).
  { pose proof (while_fuel_measure voice_timed control_loop_measure
                  ModalVoice.control_loop_step ModalVoice.LOOP_BUDGET v0
                  control_loop_step_decreases Hv0) as Hm.
    destruct (while_fuel ModalVoice.LOOP_BUDGET ModalVoice.control_loop_step v0)
      as [v1|v1] eqn:E.
    - exists v1. split; [done|].
      eapply (while_fuel_invariant voice_timed); [| |exact Hv0|exact E].
      + intros y y' Hy Hs. by apply (control_loop_step_decreases y y').
      + apply control_loop_step_exit.
    - exfalso. destruct Hm as [[_ Hssu] Hle].
      destruct Hv0 as [_ Hssu0].
      unfold control_loop_measure, ModalVoice.LOOP_BUDGET, UINT32_MAX in *.
      destruct (ModalVoice.isActive v1); destruct (ModalVoice.isActive v0); lia. }
  destruct Hloop as (v1 & Hloop & Hv1).
  destruct (ModalVoice.state_ v) eqn:Hst.
  - by exists v, (memset_zero outL 0 num_frames), (memset_zero outR 0 num_frames).
  - fold v0. rewrite Hloop.
    destruct (audio_synth_render _ _ _ _ _) as [[s l] r].
    by exists (ModalVoice.set_synth v1 s), l, r.
  - fold v0. rewrite Hloop.
    destruct (audio_synth_render _ _ _ _ _) as [[s l] r].
    by exists (ModalVoice.set_synth v1 s), l, r.
  - fold v0. rewrite Hloop.
    destruct (audio_synth_render _ _ _ _ _) as [[s l] r].
    by exists (ModalVoice.set_synth v1 s), l, r.
Qed.

End VoiceTermination.

Section ManagerTermination.
Context {core : ModalCore}.
Import NodeManager.

(** A voice method that keeps the control period and keeps or clears the
    counter keeps the timing fields well-formed. *)
Lemma timing_kept (f : ModalVoice.t -> ModalVoice.t) :
  (forall v, ModalVoice.samples_per_update_ (f v) = ModalVoice.samples_per_update_ v
             /\ (ModalVoice.samples_since_update_ (f v)
                 = ModalVoice.samples_since_update_ v
                 \/ ModalVoice.samples_since_update_ (f v) = 0)) ->
  forall v, voice_timed v -> voice_timed (f v).
Proof.
  intros Hf v [Hspu Hssu]. destruct (Hf v) as [Hp Hs]. unfold voice_timed.
  rewrite Hp. split; [done|]. destruct Hs as [-> | ->]; [done|].
  unfold UINT32_MAX. lia.
Qed.

Lemma on_node_timed (nm : NodeManager.t) (i : Z) (f : ModalVoice.t -> ModalVoice.t) :
  (forall v, voice_timed v -> voice_timed (f v)) ->
  Forall voice_timed (nodes_ nm) -> Forall voice_timed (nodes_ (on_node nm i f)).
Proof.
  intros Hf Hnm. cbn [on_node set_nodes nodes_].
  apply Forall_alter; [done|]. intros x _. apply Hf.
Qed.

Lemma noteOff_timed (v : ModalVoice.t) :
  voice_timed v -> voice_timed (ModalVoice.noteOff v).
Proof.
  apply (timing_kept ModalVoice.noteOff). intros x. unfold ModalVoice.noteOff.
  destruct (ModalVoice.state_ x); split; auto.
Qed.

Lemma reset_timed (v : ModalVoice.t) :
  voice_timed v -> voice_timed (ModalVoice.reset v).
Proof. apply (timing_kept ModalVoice.reset). intros x. split; [done|by right]. Qed.

Lemma updateModal_timed (v : ModalVoice.t) :
  voice_timed v -> voice_timed (ModalVoice.updateModal v).
Proof.
  apply (timing_kept ModalVoice.updateModal). intros x.
  destruct (updateModal_timing x) as [Hp Hs].
  split; [done|].
  destruct Hs as [[_ ->] | [(_ & _ & ->) | (_ & _ & ->)]]; auto.
Qed.

Lemma setPitchBend_timed (bend : float) (v : ModalVoice.t) :
  voice_timed v -> voice_timed (ModalVoice.setPitchBend v bend).
Proof.
  apply (timing_kept (fun v => ModalVoice.setPitchBend v bend)).
  intros x. split; [done|by left].
Qed.

Lemma excite_voice_timed c pb midi_note velocity (v : ModalVoice.t) :
  voice_timed v -> voice_timed (excite_voice c pb midi_note velocity v).
Proof.
  apply (timing_kept (excite_voice c pb midi_note velocity)).
  intros x. split; [done|by left].
Qed.

Lemma exciteNode_timed (nm : NodeManager.t) (node_idx midi_note : Z) (velocity : float) :
  Forall voice_timed (nodes_ nm) ->
  Forall voice_timed (nodes_ (exciteNode nm node_idx midi_note velocity)).
Proof.
  intros Hnm. unfold exciteNode.
  destruct (_ <=? _); [done|].
  destruct (current_characters_ nm !! Z.to_nat node_idx) as [c|]; [|done].
  apply on_node_timed; [|done].
  apply (excite_voice_timed c (pitch_bend_ nm) midi_note velocity).
Qed.

Lemma noteOn_timed (nm : NodeManager.t) (midi_note : Z) (velocity : float)
    (midi_channel : Z) :
  Forall voice_timed (nodes_ nm) ->
  Forall voice_timed (nodes_ (noteOn nm midi_note velocity midi_channel)).
Proof.
  intros Hnm. unfold noteOn.
  destruct (negb (initialized_ nm) || (127 <? midi_note)); [done|].
  destruct (routeNoteToNodes _ _ _ _) as [tn num].
  assert (Hloop : forall body_nm,
            Forall voice_timed (nodes_ body_nm) ->
            Forall voice_timed
              (nodes_ (for_range num
                 (fun i nm0 =>
                    let node_idx := default 0 (tn !! Z.to_nat i) in
                    let node_is_active := node_isActive nm0 node_idx in
                    let nm1 :=
                      match multi_excite_mode_ nm0 with
                      | ReTrigger =>
                          if node_is_active then on_node nm0 node_idx ModalVoice.reset
                          else nm0
                      | Accumulate => nm0
                      end in
                    exciteNode nm1 node_idx midi_note velocity) body_nm))).
  { intros body_nm Hb.
    apply (for_range_preserves (fun nm0 => Forall voice_timed (nodes_ nm0))); [done|].
    intros i s Hs. cbv zeta. apply exciteNode_timed.
    destruct (multi_excite_mode_ s); [|done].
    destruct (node_isActive s _); [|done].
    apply on_node_timed; [apply reset_timed|done]. }
  specialize (Hloop nm Hnm).
  by destruct (0 <? num).
Qed.

Lemma manager_noteOff_timed (nm : NodeManager.t) (midi_note : Z) :
  Forall voice_timed (nodes_ nm) ->
  Forall voice_timed (nodes_ (NodeManager.noteOff nm midi_note)).
Proof.
  intros Hnm. unfold NodeManager.noteOff.
  destruct (127 <? midi_note); [done|].
  destruct (_ <? NUM_NETWORK_NODES); [|done].
  cbn [set_note_maps nodes_]. apply on_node_timed; [apply noteOff_timed|done].
Qed.

Lemma manager_setPitchBend_timed (nm : NodeManager.t) (bend : float) :
  Forall voice_timed (nodes_ nm) ->
  Forall voice_timed (nodes_ (NodeManager.setPitchBend nm bend)).
Proof.
  intros Hnm. unfold NodeManager.setPitchBend.
  apply (for_range_preserves (fun nm0 => Forall voice_timed (nodes_ nm0)));
    [by destruct nm|].
  intros i s Hs. destruct (node_isActive s i); [|done].
  apply on_node_timed; [apply setPitchBend_timed|done].
Qed.

Lemma updateNodes_timed (nm : NodeManager.t) :
  Forall voice_timed (nodes_ nm) -> Forall voice_timed (nodes_ (updateNodes nm)).
Proof.
  intros Hnm. unfold updateNodes. destruct (negb _); [done|].
  apply (for_range_preserves (fun nm0 => Forall voice_timed (nodes_ nm0))); [done|].
  intros i s Hs. destruct (node_isActive s i); [|done].
  apply on_node_timed; [apply updateModal_timed|done].
Qed.

Lemma for_range_opt_returns {S : Type} (P : S -> Prop) (n : Z)
    (body : Z -> S -> option S) (s : S) :
  P s -> (forall i s, P s -> exists s', body i s = Some s' /\ P s') ->
  exists s', for_range_opt n body s = Some s' /\ P s'.
Proof.
  intros Hs Hbody. unfold for_range_opt. generalize (seq 0 (Z.to_nat n)). intros idxs.
  revert s Hs. induction idxs as [|i idxs IH]; intros s Hs; cbn [foldl].
  - by exists s.
  - cbn [mbind option_bind]. destruct (Hbody (Z.of_nat i) s Hs) as (s' & -> & Hs').
    by apply IH.
Qed.

(** [renderAudio] of the node manager returns when every voice has a
    positive control period. *)
Lemma manager_renderAudio_returns (nm : NodeManager.t) (mem : list float)
    (outL outR num_frames : Z) :
  Forall voice_timed (nodes_ nm) ->
  exists nm' mem',
    renderAudio nm mem outL outR num_frames = Some (nm', mem')
    /\ Forall voice_timed (nodes_ nm').
Proof.
  intros Hnm. unfold renderAudio.
  destruct (negb (initialized_ nm)); [by eexists _, _|].
  cbv zeta.
  match goal with
  | |- context [for_range_opt ?n ?body ?s0] =>
      destruct (for_range_opt_returns
                  (fun st : NodeManager.t * list float =>
                     Forall voice_timed (nodes_ (fst st))) n body s0)
        as ([nm' mem'] & Hres & Hnm')
  end.
  - done.
  - intros i [nm0 mem0] Hs. cbn [fst] in Hs.
    destruct (nodes_ nm0 !! Z.to_nat i) as [v|] eqn:Hv; [|by eexists].
    destruct (negb (ModalVoice.isActive v)); [by eexists|].
    pose proof (Forall_lookup_1 _ _ _ _ Hs Hv) as Hvt.
    match goal with
    | |- context [ModalVoice.renderAudio v ?l ?r ?k] =>
        destruct (voice_renderAudio_returns v l r k Hvt) as (v' & l' & r' & -> & Hv')
    end.
    cbn [mbind option_bind]. eexists. split; [reflexivity|].
    cbn [fst set_temp_buffers set_nodes nodes_]. by apply Forall_insert.
  - by exists nm', mem'.
Qed.

End ManagerTermination.

Section EngineTermination.
Context {core : ModalCore} {topo : Topology}.
Import SynthEngine.

Lemma processEvent_timed (e : SynthEngine.t) (event : SynthEvent) :
  engine_timed e -> engine_timed (processEvent e event).
Proof.
  unfold engine_timed, processEvent. intros He.
  destruct (data event); cbn [set_nodeManager nodeManager_].
  - by apply noteOn_timed.
  - by apply manager_noteOff_timed.
  - done.
  - by apply manager_setPitchBend_timed.
  - unfold setParameter. repeat (destruct (_ =? _); [done|]). done.
Qed.

Lemma renderSlice_returns (e : SynthEngine.t) (mem : list float)
    (outL outR start frames : Z) :
  coupling_keeps_timing topo -> engine_timed e ->
  exists e' mem',
    renderSlice e mem outL outR start frames = Some (e', mem') /\ engine_timed e'.
Proof.
  intros Htopo He. unfold renderSlice. cbv zeta.
  match goal with
  | |- context [NodeManager.renderAudio (nodeManager_ ?e0) ?m ?l ?r ?k] =>
      assert (He0 : engine_timed e0); [|
        destruct (manager_renderAudio_returns (nodeManager_ e0) m l r k He0)
          as (nm' & mem' & -> & Hnm')]
  end.
  - destruct (CONTROL_RATE_SAMPLES <=? _); [|done].
    unfold engine_timed, updateControlRate in *.
    cbn [set_controlRateCounter nodeManager_ controlRateCounter_ couplingMode_
         topologyEngine_].
    pose proof (updateNodes_timed _ He) as Hupd.
    destruct (Htopo (topologyEngine_ e)
                (NodeManager.nodes_ (NodeManager.updateNodes (nodeManager_ e))) 5 Hupd)
      as [Hmag Hcpx].
    destruct (couplingMode_ e).
    + destruct (updateCouplingComplex _ _ _) as [te nodes]. by destruct (NodeManager.updateNodes _).
    + destruct (updateCoupling _ _ _) as [te nodes]. by destruct (NodeManager.updateNodes _).
  - cbn [mbind option_bind]. by eexists _, _.
Qed.

Lemma run_schedule_returns (outL outR : Z) (acts : list action)
    (e : SynthEngine.t) (mem : list float) :
  coupling_keeps_timing topo -> engine_timed e ->
  exists e' mem',
    run_schedule outL outR acts (e, mem) = Some (e', mem') /\ engine_timed e'.
Proof.
  intros Htopo. unfold run_schedule. revert e mem.
  induction acts as [|act acts IH]; intros e mem He; cbn [foldl].
  - by exists e, mem.
  - destruct act as [start frames|event]; cbn [run_action mbind option_bind].
    + destruct (renderSlice_returns e mem (outL + start) (outR + start) start frames
                  Htopo He) as (e1 & mem1 & -> & He1).
      by apply IH.
    + apply IH. by apply processEvent_timed.
Qed.

(** On an initialized engine whose voices have a positive control period,
    and with a topology engine that leaves the voices' timing alone,
    [render] returns. *)
Lemma render_returns (e : SynthEngine.t) (mem : list float) (events : EventQueue.t)
    (outL outR frameCount : Z) :
  initialized_ e = true -> 0 <= frameCount <= INT32_MAX ->
  coupling_keeps_timing topo -> engine_timed e ->
  exists e' mem',
    render e mem events outL outR frameCount = Some (e', mem') /\ engine_timed e'.
Proof.
  intros Hinit Hn Htopo He. rewrite render_runs_schedule by done.
  by apply run_schedule_returns.
Qed.

End EngineTermination.

(** ** The scheduler, in full *)

(** ** Output buffers *)

Section BufferFacts.

Lemma zero_fill_length (buf : list float) (p k : nat) :
  length (foldl (fun b j => <[(p + j)%nat := 0%Q]> b) buf (seq 0 k)) = length buf.
Proof.
  generalize (seq 0 k) as js. intros js.
  revert buf. induction js as [|j js IH]; intros buf; [done|].
  cbn [foldl]. rewrite IH. apply length_insert.
Qed.

Lemma zero_fill_lookup (buf : list float) (p k j : nat) :
  foldl (fun b j => <[(p + j)%nat := 0%Q]> b) buf (seq 0 k) !! j
  = if decide (p <= j < p + k)%nat then (fun _ => 0%Q) <$> (buf !! j)
    else buf !! j.
Proof.
  induction k as [|k IH].
  { cbn [seq foldl]. case_decide; [exfalso; lia|done]. }
  rewrite seq_S, foldl_app. cbn [foldl]. rewrite Nat.add_0_l.
  destruct (decide (j = p + k)%nat) as [->|Hne].
  - clear IH. rewrite decide_True by lia.
    destruct (decide (p + k < length buf)%nat) as [Hlt|Hge].
    + rewrite list_lookup_insert_eq by (rewrite zero_fill_length; lia).
      by destruct (lookup_lt_is_Some_2 buf (p + k) Hlt) as [x ->].
    + rewrite (lookup_ge_None_2 buf) by lia.
      apply lookup_ge_None_2. rewrite length_insert, zero_fill_length. lia.
  - rewrite list_lookup_insert_ne by done. etrans; [exact IH|].
    clear IH. repeat case_decide; try (exfalso; lia); done.
Qed.

Lemma memset_zero_length (buf : list float) (p n : Z) :
  length (memset_zero buf p n) = length buf.
Proof. apply zero_fill_length. Qed.

Lemma memset_zero_lookup (buf : list float) (p n : Z) (j : nat) :
  0 <= p ->
  memset_zero buf p n !! j
  = if decide (in_frames p n j) then (fun _ => 0%Q) <$> (buf !! j) else buf !! j.
Proof.
  intros Hp. unfold memset_zero, in_frames. rewrite zero_fill_lookup.
  repeat case_decide; try (exfalso; lia); done.
Qed.

Lemma add_at_length (buf : list float) (p : nat) (x : float) :
  length (add_at buf p x) = length buf.
Proof. apply length_insert. Qed.

Lemma add_at_lookup_ne (buf : list float) (p j : nat) (x : float) :
  p <> j -> add_at buf p x !! j = buf !! j.
Proof. intros Hne. unfold add_at. by rewrite list_lookup_insert_ne. Qed.

Lemma mix_into_length (buf : list float) (pL pR : Z) (srcL srcR : list float) (n : Z) :
  length (mix_into buf pL pR srcL srcR n) = length buf.
Proof.
  unfold mix_into. generalize (seq 0 (Z.to_nat n)). intros js.
  revert buf. induction js as [|j js IH]; intros buf; [done|].
  cbn [foldl]. by rewrite IH, !add_at_length.
Qed.

(** Mixing [n] frames into the two buffers leaves everything outside these
    frames as it is. *)
Lemma mix_into_lookup_outside (buf : list float) (pL pR : Z) (srcL srcR : list float)
    (n : Z) (j : nat) :
  0 <= pL -> 0 <= pR ->
  ~ in_frames pL n j -> ~ in_frames pR n j ->
  mix_into buf pL pR srcL srcR n !! j = buf !! j.
Proof.
  intros HL HR HjL HjR. unfold mix_into, in_frames in *.
  assert (Hjs : forall k, In k (seq 0 (Z.to_nat n)) -> Z.of_nat k < n)
    by (intros k Hk; apply in_seq in Hk; lia).
  revert Hjs. generalize (seq 0 (Z.to_nat n)). intros js.
  revert buf. induction js as [|k js IH]; intros buf Hjs; [done|].
  cbn [foldl]. rewrite IH by (intros; apply Hjs; by right).
  assert (Hk : Z.of_nat k < n) by (apply Hjs; by left).
  rewrite !add_at_lookup_ne by lia. done.
Qed.

End BufferFacts.

(** ** Rendering in the node manager *)

Section ManagerRender.
Context {core : ModalCore}.
Import NodeManager.

(** What [renderAudio] of the node manager does: the frames of both buffers
    are zeroed; every sounding node below the active count is rendered for
    the first [k] frames, [k] the frame count limited to the size of the
    temporary buffers, and mixed into these frames; nothing else changes. *)
Lemma manager_renderAudio_spec (nm nm' : NodeManager.t) (mem mem' : list float)
    (pL pR n : Z) :
  0 <= pL -> 0 <= pR ->
  renderAudio nm mem pL pR n = Some (nm', mem') ->
  let k := if max_buffer_size_ nm <? n then max_buffer_size_ nm else n in
  let mem0 := memset_zero (memset_zero mem pL n) pR n in
  set_temp_buffers (set_nodes nm (nodes_ nm')) (temp_buffer_L_ nm') (temp_buffer_R_ nm') = nm'
  /\ length (nodes_ nm') = length (nodes_ nm)
  /\ length mem' = length mem
  /\ (forall j, ~ in_frames pL k j -> ~ in_frames pR k j -> mem' !! j = mem0 !! j)
  /\ (forall i v, nodes_ nm !! i = Some v ->
        if initialized_ nm && ModalVoice.isActive v && (Z.of_nat i <? active_node_count_ nm)
        then exists l r v' l' r',
               ModalVoice.renderAudio v l r k = Some (v', l', r')
               /\ nodes_ nm' !! i = Some v'
        else nodes_ nm' !! i = Some v).
Proof.
  intros HL HR Hloop k mem0. unfold renderAudio in Hloop.
  destruct (initialized_ nm) eqn:Hinit; cbn [negb andb] in *.
  2:{ injection Hloop as <- <-.
      split; [by destruct nm|]. split; [done|]. split; [by rewrite !memset_zero_length|].
      split; [done|]. intros i v Hv. done. }
  cbv zeta in Hloop. fold k mem0 in Hloop.
  pose (P := fun (i : Z) (st : NodeManager.t * list float) =>
    set_temp_buffers (set_nodes nm (nodes_ (fst st))) (temp_buffer_L_ (fst st))
      (temp_buffer_R_ (fst st)) = fst st
    /\ length (nodes_ (fst st)) = length (nodes_ nm)
    /\ length (snd st) = length mem
    /\ (forall j, ~ in_frames pL k j -> ~ in_frames pR k j -> snd st !! j = mem0 !! j)
    /\ (forall idx v, nodes_ nm !! idx = Some v ->
          if ModalVoice.isActive v && (Z.of_nat idx <? i)
          then exists l r v' l' r',
                 ModalVoice.renderAudio v l r k = Some (v', l', r')
                 /\ nodes_ (fst st) !! idx = Some v'
          else nodes_ (fst st) !! idx = Some v)).
  apply (for_range_opt_invariant P) in Hloop.
  - destruct Hloop as (Hf & Hnlen & Hlen & Hout & Hnodes). cbn [fst snd] in *.
    split; [done|]. split; [done|]. split; [done|]. split; [done|].
    intros i v Hv. specialize (Hnodes i v Hv).
    destruct (ModalVoice.isActive v); cbn [andb] in *; [|done].
    destruct (Z.ltb_spec (Z.of_nat i) (active_node_count_ nm)) as [Hlt|Hge];
      [destruct (Z.ltb_spec (Z.of_nat i) (Z.max 0 (active_node_count_ nm))); [done|lia]|].
    destruct (Z.ltb_spec (Z.of_nat i) (Z.max 0 (active_node_count_ nm))); [lia|done].
  - unfold P. cbn [fst snd]. split; [by destruct nm|]. split; [done|].
    split; [unfold mem0; by rewrite !memset_zero_length|]. split; [done|].
    intros idx v Hv. destruct (Z.ltb_spec (Z.of_nat idx) 0); [lia|].
    by rewrite andb_false_r.
  - intros i [nmi memi] [nmj memj] Hi (Hf & Hnlen & Hlen & Hout & Hnodes) Hbody.
    unfold P. cbn [fst snd] in *.
    assert (Hkeep : forall idx v, nodes_ nm !! idx = Some v -> idx <> Z.to_nat i ->
              if ModalVoice.isActive v && (Z.of_nat idx <? i + 1)
              then exists l r v' l' r',
                     ModalVoice.renderAudio v l r k = Some (v', l', r')
                     /\ nodes_ nmi !! idx = Some v'
              else nodes_ nmi !! idx = Some v).
    { intros idx v Hv Hne. specialize (Hnodes idx v Hv).
      destruct (Z.ltb_spec (Z.of_nat idx) i), (Z.ltb_spec (Z.of_nat idx) (i + 1));
        try lia; done. }
    assert (Hcur : nodes_ nmi !! Z.to_nat i = nodes_ nm !! Z.to_nat i).
    { destruct (nodes_ nm !! Z.to_nat i) as [v|] eqn:Hv.
      - specialize (Hnodes _ _ Hv).
        destruct (Z.ltb_spec (Z.of_nat (Z.to_nat i)) i); [lia|].
        by rewrite andb_false_r in Hnodes.
      - apply lookup_ge_None in Hv. apply lookup_ge_None. lia. }
    rewrite Hcur in Hbody.
    destruct (nodes_ nm !! Z.to_nat i) as [v|] eqn:Hv.
    2:{ injection Hbody as <- <-. split; [done|]. split; [done|]. split; [done|].
        split; [done|]. intros idx v Hidx.
        apply Hkeep; [done|]. intros ->. by rewrite Hv in Hidx. }
    destruct (ModalVoice.isActive v) eqn:Hact; cbn [negb] in Hbody.
    2:{ injection Hbody as <- <-. split; [done|]. split; [done|]. split; [done|].
        split; [done|]. intros idx v0 Hidx.
        destruct (decide (idx = Z.to_nat i)) as [->|Hne]; [|by apply Hkeep].
        rewrite Hv in Hidx. injection Hidx as <-. rewrite Hact. cbn [andb].
        by rewrite Hcur. }
    destruct (ModalVoice.renderAudio v (temp_buffer_L_ nmi) (temp_buffer_R_ nmi) k)
      as [[[v' l'] r']|] eqn:Hrender; cbn [mbind option_bind] in Hbody; [|done].
    injection Hbody as <- <-.
    cbn [nodes_ set_temp_buffers set_nodes temp_buffer_L_ temp_buffer_R_].
    split; [by rewrite <- Hf|]. split; [by rewrite length_insert|].
    split; [by rewrite mix_into_length|].
    split; [intros j HjL HjR; rewrite mix_into_lookup_outside by done; by apply Hout|].
    intros idx v0 Hidx.
    destruct (decide (idx = Z.to_nat i)) as [->|Hne].
    + rewrite Hv in Hidx. injection Hidx as <-. rewrite Hact. cbn [andb].
      destruct (Z.ltb_spec (Z.of_nat (Z.to_nat i)) (i + 1)); [|lia].
      eexists _, _, _, _, _. split; [exact Hrender|].
      apply list_lookup_insert_eq. apply lookup_lt_Some in Hv. lia.
    + rewrite list_lookup_insert_ne by done. by apply Hkeep.
Qed.

(** With no sounding node below the active count, [renderAudio] writes
    silence and leaves the manager as it is. *)
Lemma manager_renderAudio_idle (nm : NodeManager.t) (mem : list float) (pL pR n : Z) :
  manager_idle nm ->
  renderAudio nm mem pL pR n
  = Some (nm, memset_zero (memset_zero mem pL n) pR n).
Proof.
  intros Hidle. unfold renderAudio.
  destruct (negb (initialized_ nm)); [done|]. cbv zeta.
  apply for_range_opt_fixed. intros i Hi.
  destruct (nodes_ nm !! Z.to_nat i) as [v|] eqn:Hv; [|done].
  rewrite (Hidle _ _ Hv) by lia. done.
Qed.

End ManagerRender.

(** ** What the events do *)

Section ManagerEvents.
Context {core : ModalCore}.
Import NodeManager.

(** A loop that calls [f] on every sounding node below [n]. *)
Lemma for_range_active_nodes (n : Z) (f : ModalVoice.t -> ModalVoice.t)
    (nm : NodeManager.t) :
  for_range n (fun i nm => if node_isActive nm i then on_node nm i f else nm) nm
  = set_nodes nm
      (for_range n
         (fun i l => alter (fun v => if ModalVoice.isActive v then f v else v)
                       (Z.to_nat i) l)
         (nodes_ nm)).
Proof.
  rewrite <- (set_nodes_eta nm) at 1.
  apply (for_range_on_nodes_inv _ _
           (fun i v => if ModalVoice.isActive v then f v else v)).
  intros i ns Hi. unfold node_isActive, on_node. cbn [nodes_ set_nodes].
  destruct (ns !! Z.to_nat i) as [v|] eqn:Hv.
  - destruct (ModalVoice.isActive v) eqn:Hact.
    + f_equal. apply list_eq. intros k.
      destruct (decide (k = Z.to_nat i)) as [->|Hk].
      * rewrite !list_lookup_alter_eq, Hv. cbn. by rewrite Hact.
      * by rewrite !list_lookup_alter_ne.
    + rewrite alter_fixpoint; [by destruct nm|].
      intros x Hx. rewrite Hv in Hx. injection Hx as <-. by rewrite Hact.
  - rewrite alter_fixpoint; [by destruct nm|]. intros x Hx. by rewrite Hv in Hx.
Qed.

Lemma setPitchBend_nodes (nm : NodeManager.t) (bend : float) (j : nat) :
  nodes_ (setPitchBend nm bend) !! j
  = (fun v => if ModalVoice.isActive v && (Z.of_nat j <? NUM_NETWORK_NODES)
              then ModalVoice.setPitchBend v bend else v) <$> (nodes_ nm !! j).
Proof.
  unfold setPitchBend. cbv zeta.
  rewrite (for_range_active_nodes _ (fun v => ModalVoice.setPitchBend v bend)).
  cbn [nodes_ set_nodes set_pitch_bend]. rewrite for_range_alter_lookup.
  destruct (Z.ltb_spec (Z.of_nat j) NUM_NETWORK_NODES); case_decide; try lia.
  - destruct (nodes_ nm !! j) as [v|]; [|done]. cbn. by rewrite andb_true_r.
  - destruct (nodes_ nm !! j) as [v|]; [|done]. cbn. by rewrite andb_false_r.
Qed.

Lemma setPitchBend_rest (nm : NodeManager.t) (bend : float) :
  set_nodes (set_pitch_bend nm bend) (nodes_ (setPitchBend nm bend))
  = setPitchBend nm bend.
Proof.
  unfold setPitchBend. cbv zeta.
  rewrite (for_range_active_nodes _ (fun v => ModalVoice.setPitchBend v bend)).
  reflexivity.
Qed.

Lemma voice_setPitchBend_fields (v : ModalVoice.t) (bend : float) :
  ModalVoice.pitch_bend_ (ModalVoice.setPitchBend v bend) = bend
  /\ ModalVoice.state_ (ModalVoice.setPitchBend v bend) = ModalVoice.state_ v.
Proof. split; reflexivity. Qed.

Lemma noteOn_midi_channel (nm : NodeManager.t) (midi_note : Z) (velocity : float)
    (midi_channel : Z) :
  initialized_ nm = true -> routing_mode_ nm = MidiChannel ->
  1 <= active_node_count_ nm <= NUM_NETWORK_NODES ->
  length (current_characters_ nm) = Z.to_nat NUM_NETWORK_NODES ->
  0 <= midi_note <= 127 -> 0 <= midi_channel ->
  let i := midi_channel mod active_node_count_ nm in
  noteOn nm midi_note velocity midi_channel
  = set_note_maps
      (set_nodes nm
         (alter (note_on_voice nm midi_note velocity i) (Z.to_nat i) (nodes_ nm)))
      (<[Z.to_nat midi_note := i]> (note_to_node_ nm))
      (<[Z.to_nat midi_note := midi_channel]> (note_to_channel_ nm)).
Proof.
  intros Hinit Hmode Hcount Hchars Hnote Hch i. unfold noteOn.
  rewrite Hinit. cbn [negb orb].
  destruct (Z.ltb_spec 127 midi_note); [lia|].
  unfold routeNoteToNodes. rewrite Hmode.
  assert (Hi : 0 <= i < active_node_count_ nm) by (apply Z.mod_pos_bound; lia).
  assert (Hu : to_uint8 i = i).
  { unfold to_uint8. apply Z.mod_small. unfold NUM_NETWORK_NODES in *. lia. }
  fold i. rewrite Hu.
  cbv beta iota zeta.
  change (for_range 1 ?body nm) with (body 0 nm).
  cbv beta iota zeta.
  change (Z.to_nat 0) with 0%nat.
  change (default 0 (<[0%nat:=i]> (replicate (Z.to_nat NUM_NETWORK_NODES) 0)
                       !! 0%nat)) with i.
  change (0 <? 1) with true. cbv iota.
  destruct (lookup_lt_is_Some_2 (current_characters_ nm) (Z.to_nat i)
              ltac:(unfold NUM_NETWORK_NODES in *; lia)) as [c Hc].
  unfold note_on_voice. rewrite Hc.
  assert (Hex : forall ns',
            exciteNode (set_nodes nm ns') i midi_note velocity
            = set_nodes nm
                (alter (excite_voice c (pitch_bend_ nm) midi_note velocity)
                   (Z.to_nat i) ns')).
  { intros ns'. rewrite (exciteNode_unfold _ _ _ _ c);
      [by destruct nm | unfold NUM_NETWORK_NODES in *; lia | by destruct nm]. }
  assert (Hex0 : exciteNode nm i midi_note velocity
                 = set_nodes nm
                     (alter (excite_voice c (pitch_bend_ nm) midi_note velocity)
                        (Z.to_nat i) (nodes_ nm))).
  { rewrite <- (Hex (nodes_ nm)). by rewrite set_nodes_eta. }
  destruct (multi_excite_mode_ nm) eqn:Em.
  - unfold node_isActive.
    destruct (nodes_ nm !! Z.to_nat i) as [v|] eqn:Ev.
    + destruct (ModalVoice.isActive v) eqn:Hact.
      * unfold on_node. rewrite Hex, list_alter_alter_eq.
        replace (alter (excite_voice c (pitch_bend_ nm) midi_note velocity ∘ ModalVoice.reset)
                   (Z.to_nat i) (nodes_ nm))
          with (alter (fun v => excite_voice c (pitch_bend_ nm) midi_note velocity
                                  (if ModalVoice.isActive v then ModalVoice.reset v else v))
                  (Z.to_nat i) (nodes_ nm)); [by destruct nm|].
        apply list_alter_ext; [|done].
        intros x Hx. rewrite Ev in Hx. injection Hx as <-. cbn. by rewrite Hact.
      * rewrite Hex0.
        replace (alter (excite_voice c (pitch_bend_ nm) midi_note velocity)
                   (Z.to_nat i) (nodes_ nm))
          with (alter (fun v => excite_voice c (pitch_bend_ nm) midi_note velocity
                                  (if ModalVoice.isActive v then ModalVoice.reset v else v))
                  (Z.to_nat i) (nodes_ nm)); [by destruct nm|].
        apply list_alter_ext; [|done].
        intros x Hx. rewrite Ev in Hx. injection Hx as <-. by rewrite Hact.
    + rewrite Hex0.
      replace (alter (excite_voice c (pitch_bend_ nm) midi_note velocity)
                 (Z.to_nat i) (nodes_ nm))
        with (alter (fun v => excite_voice c (pitch_bend_ nm) midi_note velocity
                                (if ModalVoice.isActive v then ModalVoice.reset v else v))
                (Z.to_nat i) (nodes_ nm)); [by destruct nm|].
      apply list_alter_ext; [|done]. intros x Hx. by rewrite Ev in Hx.
  - rewrite Hex0. by destruct nm.
Qed.


End ManagerEvents.

Section EventEffects.
Context {core : ModalCore} {topo : Topology}.
Import SynthEngine.

Lemma noteOn_applied (nm : NodeManager.t) (note : Z) (velocity : float) (chan : Z) :
  manager_ready nm -> 0 <= note <= 127 -> 0 <= chan ->
  let nm' := NodeManager.noteOn nm note velocity chan in
  NodeManager.note_to_node_ nm' !! Z.to_nat note = Some (first_target nm chan)
  /\ NodeManager.note_to_channel_ nm' !! Z.to_nat note = Some chan
  /\ forall j v, NodeManager.nodes_ nm !! j = Some v ->
       exists v', NodeManager.nodes_ nm' !! j = Some v'
         /\ if note_target nm chan j
            then v' = note_on_voice nm note velocity (Z.of_nat j) v
                 /\ ModalVoice.state_ v' = ModalVoice.Attack
                 /\ ModalVoice.midi_note_ v' = note
            else v' = v.
Proof.
  intros (Hinit & Hcount & Hchars & Hmap & Hchan) Hnote Hch nm'.
  unfold first_target, note_target. unfold NodeManager.NUM_NETWORK_NODES in *.
  assert (Hstate : forall j v, Z.of_nat j < NodeManager.active_node_count_ nm ->
            ModalVoice.state_ (note_on_voice nm note velocity (Z.of_nat j) v)
            = ModalVoice.Attack
            /\ ModalVoice.midi_note_ (note_on_voice nm note velocity (Z.of_nat j) v) = note).
  { intros j v Hj. apply note_on_voice_state. apply lookup_lt_is_Some_2. lia. }
  destruct (NodeManager.routing_mode_ nm) eqn:Hmode.
  - pose proof (noteOn_midi_channel nm note velocity chan Hinit Hmode Hcount Hchars
                  Hnote Hch) as Heq.
    cbv zeta in Heq. fold nm' in Heq.
    set (i := chan mod NodeManager.active_node_count_ nm) in *.
    assert (Hi : 0 <= i < NodeManager.active_node_count_ nm)
      by (apply Z.mod_pos_bound; lia).
    rewrite Heq.
    cbn [NodeManager.note_to_node_ NodeManager.note_to_channel_ NodeManager.nodes_
         NodeManager.set_note_maps NodeManager.set_nodes].
    split; [apply list_lookup_insert_eq; lia|].
    split; [apply list_lookup_insert_eq; lia|].
    intros j v Hv. case_bool_decide as Hj.
    + exists (note_on_voice nm note velocity (Z.of_nat j) v).
      split; [|split; [done|apply Hstate; lia]].
      rewrite <- Hj, Nat2Z.id, list_lookup_alter_eq, Hv. done.
    + exists v. split; [|done]. rewrite list_lookup_alter_ne by lia. done.
  - pose proof (noteOn_all_nodes nm note velocity chan Hinit Hmode Hcount Hchars Hnote)
      as Heq.
    fold nm' in Heq. rewrite Heq.
    cbn [NodeManager.note_to_node_ NodeManager.note_to_channel_ NodeManager.nodes_
         NodeManager.set_note_maps NodeManager.set_nodes].
    split; [apply list_lookup_insert_eq; lia|].
    split; [apply list_lookup_insert_eq; lia|].
    intros j v Hv. rewrite for_range_alter_lookup, Hv.
    case_bool_decide as Hj; case_decide; try lia.
    + eexists. split; [reflexivity|]. split; [done|by apply Hstate].
    + by exists v.
Qed.

Lemma noteOff_applied (nm : NodeManager.t) (note i : Z) :
  0 <= note <= 127 -> 0 <= i ->
  NodeManager.note_to_node_ nm !! Z.to_nat note = Some i ->
  let nm' := NodeManager.noteOff nm note in
  if i <? NodeManager.NUM_NETWORK_NODES then
    NodeManager.note_to_node_ nm' = <[Z.to_nat note := 255]> (NodeManager.note_to_node_ nm)
    /\ forall j v, NodeManager.nodes_ nm !! j = Some v ->
         NodeManager.nodes_ nm' !! j
         = Some (if bool_decide (Z.of_nat j = i) && ModalVoice.isActive v
                 then ModalVoice.set_state v ModalVoice.Release else v)
  else nm' = nm.
Proof.
  intros Hnote Hi Hmap nm'. unfold nm', NodeManager.noteOff.
  destruct (Z.ltb_spec 127 note); [lia|].
  rewrite Hmap. cbn [default from_option id].
  destruct (i <? NodeManager.NUM_NETWORK_NODES); [|done].
  cbn [NodeManager.note_to_node_ NodeManager.nodes_ NodeManager.set_note_maps
       NodeManager.set_nodes NodeManager.on_node].
  split; [done|]. intros j v Hv.
  case_bool_decide as Hj; cbn [andb].
  - rewrite <- Hj, Nat2Z.id, list_lookup_alter_eq, Hv. cbn.
    by rewrite noteOff_set_state.
  - rewrite list_lookup_alter_ne by lia. done.
Qed.

Lemma processEvent_applied (e : SynthEngine.t) (event : SynthEvent) :
  event_applied e event (processEvent e event).
Proof.
  unfold event_applied, processEvent. cbv zeta.
  destruct (data event) as [note velocity chan|note|cc v|value|paramId value].
  - cbn [nodeManager_ set_nodeManager]. split; [done|]. apply noteOn_applied.
  - cbn [nodeManager_ set_nodeManager]. split; [done|].
    intros i Hnote Hi Hmap. by apply noteOff_applied.
  - done.
  - cbn [nodeManager_ set_nodeManager]. split; [done|].
    split; [by rewrite <- setPitchBend_rest|].
    intros j v Hv. rewrite setPitchBend_nodes, Hv. cbn.
    eexists. split; [reflexivity|].
    destruct (ModalVoice.isActive v && _); [|done].
    split; [done|]. apply voice_setPitchBend_fields.
  - unfold setParameter, getParameter, defined_param,
      kParam_BodySize, kParam_Material, kParam_Excite, kParam_Morph, kParam_Mix.
    repeat case_match; cbn; repeat split; try done;
      try (intros; repeat case_match; lia || done).
Qed.

End EventEffects.

(** ** What a slice does *)

Section SliceEffects.
Context {core : ModalCore} {topo : Topology}.
Import SynthEngine.

Lemma updateNodes_rest (nm : NodeManager.t) :
  NodeManager.set_nodes nm (NodeManager.nodes_ (NodeManager.updateNodes nm))
  = NodeManager.updateNodes nm.
Proof.
  unfold NodeManager.updateNodes.
  destruct (negb _); [apply set_nodes_eta|].
  by rewrite (for_range_active_nodes _ ModalVoice.updateModal).
Qed.

(** The control-rate update changes the nodes and the topology engine
    only. *)
Lemma updateControlRate_rest (e : SynthEngine.t) :
  updateControlRate e
  = set_topologyEngine
      (set_nodeManager e
         (NodeManager.set_nodes (nodeManager_ e)
            (NodeManager.nodes_ (nodeManager_ (updateControlRate e)))))
      (topologyEngine_ (updateControlRate e)).
Proof.
  unfold updateControlRate.
  destruct (match couplingMode_ e with
            | ModalVoice.ComplexDiffusion => _
            | ModalVoice.MagnitudePressure => _
            end) as [te nodes].
  cbn [nodeManager_ topologyEngine_ set_topologyEngine set_nodeManager
       NodeManager.nodes_ NodeManager.set_nodes].
  rewrite <- updateNodes_rest. reflexivity.
Qed.

Lemma updateControlRate_counter (e : SynthEngine.t) (c : Z) :
  updateControlRate (set_controlRateCounter e c)
  = set_controlRateCounter (updateControlRate e) c.
Proof.
  unfold updateControlRate.
  cbn [nodeManager_ topologyEngine_ couplingMode_ set_controlRateCounter].
  destruct (match couplingMode_ e with
            | ModalVoice.ComplexDiffusion => _
            | ModalVoice.MagnitudePressure => _
            end) as [te nodes].
  reflexivity.
Qed.

Lemma renderSlice_rendered (e e' : SynthEngine.t) (mem mem' : list float)
    (pL pR start frames : Z) :
  0 <= pL -> 0 <= pR ->
  renderSlice e mem pL pR start frames = Some (e', mem') ->
  slice_rendered e mem pL pR frames e' mem'.
Proof.
  intros HL HR Hslice. unfold slice_rendered. cbv zeta.
  set (counter := to_uint32 (controlRateCounter_ e + frames)) in *.
  set (e1 := if CONTROL_RATE_SAMPLES <=? counter then updateControlRate e else e).
  unfold renderSlice in Hslice. cbv zeta in Hslice.
  cbn [controlRateCounter_ set_controlRateCounter] in Hslice. fold counter in Hslice.
  assert (He1 : exists nodes1 te1,
            e1 = set_topologyEngine
                   (set_nodeManager e (NodeManager.set_nodes (nodeManager_ e) nodes1)) te1).
  { unfold e1. destruct (CONTROL_RATE_SAMPLES <=? counter).
    - eexists _, _. apply updateControlRate_rest.
    - exists (NodeManager.nodes_ (nodeManager_ e)), (topologyEngine_ e).
      rewrite set_nodes_eta. by destruct e. }
  set (e2 := if CONTROL_RATE_SAMPLES <=? counter
             then set_controlRateCounter
                    (updateControlRate (set_controlRateCounter e counter)) 0
             else set_controlRateCounter e counter) in *.
  assert (He2 : e2 = set_controlRateCounter e1
                       (if CONTROL_RATE_SAMPLES <=? counter then 0 else counter)).
  { unfold e2, e1. destruct (CONTROL_RATE_SAMPLES <=? counter); [|done].
    by rewrite updateControlRate_counter. }
  clearbody e2. subst e2.
  cbn [nodeManager_ set_controlRateCounter] in Hslice.
  destruct (NodeManager.renderAudio (nodeManager_ e1) mem pL pR frames)
    as [[nm' m']|] eqn:Hrender; cbn [mbind option_bind] in Hslice; [|done].
  injection Hslice as <- <-.
  cbn [controlRateCounter_ initialized_ topologyEngine_ nodeManager_
       set_nodeManager set_controlRateCounter].
  destruct He1 as (nodes1 & te1 & He1).
  assert (Hmax : NodeManager.max_buffer_size_ (nodeManager_ e1)
                 = NodeManager.max_buffer_size_ (nodeManager_ e)) by by rewrite He1.
  assert (Hinit : NodeManager.initialized_ (nodeManager_ e1)
                  = NodeManager.initialized_ (nodeManager_ e)) by by rewrite He1.
  assert (Hcount : NodeManager.active_node_count_ (nodeManager_ e1)
                   = NodeManager.active_node_count_ (nodeManager_ e)) by by rewrite He1.
  pose proof (manager_renderAudio_spec _ _ _ _ _ _ _ HL HR Hrender) as Hspec.
  cbv zeta in Hspec. rewrite Hmax, Hinit, Hcount in Hspec.
  destruct Hspec as (_ & _ & Hlen & Hout & Hnodes).
  set (k := Z.min frames (NodeManager.max_buffer_size_ (nodeManager_ e))).
  assert (Hk : (if NodeManager.max_buffer_size_ (nodeManager_ e) <? frames
                then NodeManager.max_buffer_size_ (nodeManager_ e) else frames) = k).
  { unfold k. destruct (Z.ltb_spec (NodeManager.max_buffer_size_ (nodeManager_ e)) frames);
      lia. }
  rewrite Hk in Hout, Hnodes.
  assert (Hzero : forall j,
            memset_zero (memset_zero mem pL frames) pR frames !! j
            = if decide (in_frames pL frames j \/ in_frames pR frames j)
              then (fun _ => 0%Q) <$> (mem !! j) else mem !! j).
  { intros j. rewrite !memset_zero_lookup by done.
    repeat case_decide; try tauto; by destruct (mem !! j). }
  split; [done|].
  split; [intros paramId; rewrite He1; by destruct e|].
  split; [rewrite He1; by destruct e|].
  split; [done|]. split; [done|].
  split.
  { intros j HjL HjR. rewrite Hout, Hzero.
    - case_decide; [tauto|done].
    - unfold in_frames, k in *. lia.
    - unfold in_frames, k in *. lia. }
  split.
  { intros j Hin HjL HjR. rewrite Hout, Hzero by done. by rewrite decide_True. }
  split; [|exact Hnodes].
  intros Hidle. rewrite manager_renderAudio_idle in Hrender by done.
  injection Hrender as <- <-. split; [done|].
  intros j Hin. by rewrite Hzero, decide_True.
Qed.

End SliceEffects.

(** ** Runs of a schedule *)

Section SchedulerRuns.
Context {core : ModalCore} {topo : Topology}.
Import SynthEngine.

Lemma spec_schedule_starts (events : list SynthEvent) (prev frameCount : Z) :
  0 <= prev -> slice_starts (spec_schedule prev events frameCount).
Proof.
  revert prev. induction events as [|ev events IH]; intros prev Hprev;
    cbn [spec_schedule].
  - destruct (prev <? frameCount); by repeat constructor.
  - apply Forall_app. split.
    + destruct (prev <? _); by repeat constructor.
    + constructor; [done|]. apply IH. unfold clamp_offset. lia.
Qed.

(** A run of the code on a schedule is a run of the schedule as the
    specification words it. *)
Lemma run_schedule_runs (outL outR : Z) (acts : list action)
    (s s' : SynthEngine.t * list float) :
  0 <= outL -> 0 <= outR -> slice_starts acts ->
  run_schedule outL outR acts s = Some s' ->
  schedule_runs outL outR acts s s'.
Proof.
  intros HL HR Hstarts. unfold run_schedule. revert s.
  induction Hstarts as [|act acts Hact Hstarts IH]; intros [e mem]; cbn [foldl].
  - intros Heq. injection Heq as <-. constructor.
  - destruct act as [start frames|event]; cbn [run_action mbind option_bind].
    + destruct (renderSlice e mem (outL + start) (outR + start) start frames)
        as [[e1 mem1]|] eqn:Hslice; [|by rewrite run_action_None].
      intros Hrun. eapply runs_slice; [|by apply IH].
      eapply renderSlice_rendered; [lia|lia|exact Hslice].
    + intros Hrun. eapply runs_event; [apply processEvent_applied|by apply IH].
Qed.

End SchedulerRuns.


(** ** Frame counts beyond the range of the offsets, engines not prepared *)

Section WrapFacts.
Context {core : ModalCore} {topo : Topology}.
Import SynthEngine.

(** At 2^31 frames the frame count is negative as an [int32_t]: every
    offset is clamped to it, no slice is rendered before an event, and
    [lastOffset] ends at 2^31. *)
Lemma render_events_wrap (events : list SynthEvent) (outL outR : Z)
    (e : SynthEngine.t) (mem : list float) (lastOffset : Z) :
  lastOffset = 0 \/ lastOffset = 2 ^ 31 ->
  render_events events outL outR (2 ^ 31) e mem lastOffset
  = Some (foldl processEvent e events, mem,
          match events with [] => lastOffset | _ => 2 ^ 31 end).
Proof.
  revert e lastOffset. induction events as [|ev events IH]; intros e lastOffset Hlast;
    [done|].
  cbn [render_events foldl].
  assert (Hw : to_int32 (2 ^ 31) = - 2 ^ 31) by (vm_compute; reflexivity).
  rewrite Hw.
  assert (Hoff : (let offset := if sampleOffset ev <? 0 then 0 else sampleOffset ev in
                  if - 2 ^ 31 <? offset then - 2 ^ 31 else offset) = - 2 ^ 31).
  { cbv zeta. destruct (Z.ltb_spec (sampleOffset ev) 0);
      match goal with |- context [- 2 ^ 31 <? ?x] => destruct (Z.ltb_spec (- 2 ^ 31) x) end;
      lia. }
  cbv zeta in Hoff |- *. rewrite Hoff.
  assert (Hnone : (to_int32 lastOffset <? - 2 ^ 31) = false).
  { destruct Hlast as [-> | ->]; [|rewrite Hw]; vm_compute; reflexivity. }
  rewrite Hnone. cbn [mbind option_bind].
  assert (Hu : to_uint32 (- 2 ^ 31) = 2 ^ 31) by (vm_compute; reflexivity).
  rewrite Hu, IH by (by right). by destruct events.
Qed.

(** So a block of 2^31 frames with events applies the events and renders
    nothing: the memory is returned as it was. *)
Lemma render_wrap (e : SynthEngine.t) (mem : list float) (events : EventQueue.t)
    (outL outR : Z) :
  initialized_ e = true -> EventQueue.contents events <> [] ->
  render e mem events outL outR (2 ^ 31)
  = Some (foldl processEvent e (EventQueue.contents events), mem).
Proof.
  intros Hinit Hne. unfold render. rewrite Hinit. cbn [negb].
  rewrite render_events_wrap by (by left).
  cbn [mbind option_bind].
  destruct (EventQueue.contents events); [done|].
  by rewrite Z.ltb_irrefl.
Qed.

(** A slice without a control update on an engine whose nodes are silent:
    the counter advances and the frames are zeroed. *)
Lemma renderSlice_idle (e : SynthEngine.t) (mem : list float) (pL pR start frames : Z) :
  to_uint32 (controlRateCounter_ e + frames) < CONTROL_RATE_SAMPLES ->
  manager_idle (nodeManager_ e) ->
  renderSlice e mem pL pR start frames
  = Some (set_controlRateCounter e (to_uint32 (controlRateCounter_ e + frames)),
          memset_zero (memset_zero mem pL frames) pR frames).
Proof.
  intros Hc Hidle. unfold renderSlice. cbv zeta.
  cbn [controlRateCounter_ set_controlRateCounter].
  destruct (Z.leb_spec CONTROL_RATE_SAMPLES (to_uint32 (controlRateCounter_ e + frames)));
    [lia|].
  cbn [nodeManager_ set_controlRateCounter].
  rewrite manager_renderAudio_idle by done. cbn [mbind option_bind].
  by destruct e.
Qed.

(** The schedule of the same block renders its first slice: with silent
    nodes and no control update due, the first sample of the left buffer is
    zeroed by the first slice and not written again, while [render] leaves
    it as it was. *)
Lemma render_wrap_differs (e : SynthEngine.t) (events : EventQueue.t)
    (event : SynthEvent) (mem : list float) (outL outR : Z) (x : float) :
  initialized_ e = true -> manager_idle (nodeManager_ e) ->
  EventQueue.contents events = [event] ->
  0 < sampleOffset event < 2 ^ 31 ->
  to_uint32 (controlRateCounter_ e + sampleOffset event) < CONTROL_RATE_SAMPLES ->
  0 <= outL <= outR -> mem !! Z.to_nat outL = Some x -> x <> 0%Q ->
  render e mem events outL outR (2 ^ 31)
  <> run_schedule outL outR (spec_schedule 0 (EventQueue.contents events) (2 ^ 31))
       (e, mem).
Proof.
  intros Hinit Hidle Hq Hoff Hc Hout Hx Hx0 Heq.
  rewrite render_wrap in Heq by (by rewrite ?Hq).
  rewrite Hq in Heq. cbn [spec_schedule foldl] in Heq.
  assert (Hclamp : clamp_offset (2 ^ 31) (sampleOffset event) = sampleOffset event)
    by (unfold clamp_offset; lia).
  rewrite Hclamp in Heq.
  destruct (Z.ltb_spec 0 (sampleOffset event)); [|lia].
  destruct (Z.ltb_spec (sampleOffset event) (2 ^ 31)); [|lia].
  unfold run_schedule in Heq.
  cbn [app foldl run_action mbind option_bind] in Heq.
  rewrite Z.sub_0_r in Heq.
  rewrite renderSlice_idle in Heq by done.
  cbn [mbind option_bind] in Heq. symmetry in Heq.
  assert (HL : 0 <= outL + sampleOffset event) by lia.
  assert (HR : 0 <= outR + sampleOffset event) by lia.
  pose proof (renderSlice_rendered _ _ _ _ _ _ _ _ HL HR Heq) as Hr.
  destruct Hr as (_ & _ & _ & _ & _ & Hout3 & _).
  assert (Hm : mem !! Z.to_nat outL
               = memset_zero (memset_zero mem (outL + 0) (sampleOffset event))
                   (outR + 0) (sampleOffset event) !! Z.to_nat outL)
    by (apply Hout3; unfold in_frames; lia).
  clear - Hm Hx Hx0 Hout Hoff.
  rewrite !memset_zero_lookup in Hm by lia.
  rewrite (decide_True (P := in_frames (outL + 0) (sampleOffset event) (Z.to_nat outL)))
    in Hm by (unfold in_frames; lia).
  rewrite Hx in Hm. apply Hx0.
  by destruct (decide (in_frames (outR + 0) (sampleOffset event) (Z.to_nat outL)));
    cbn in Hm; injection Hm.
Qed.

(** An engine that is not initialized writes silence and applies no
    event: it is returned as it was. *)
Lemma render_uninitialized (e : SynthEngine.t) (mem : list float)
    (events : EventQueue.t) (outL outR numFrames : Z) :
  initialized_ e = false ->
  exists mem', render e mem events outL outR numFrames = Some (e, mem').
Proof. intros Hinit. unfold render. rewrite Hinit. cbn [negb]. by eexists. Qed.

End WrapFacts.
Section SchedulerTheorem.
Context {core : ModalCore} {topo : Topology}.
Import SynthEngine.

(** C2 (amended). On an initialized engine and for a frame count of at most
    2^31 - 1, [render] runs exactly the schedule of the specification on the
    events of the queue: the events are applied in arrival order, each
    offset clamped to [0, frameCount]; before an event the slice from the
    previous offset up to the event's offset is rendered; the event is
    applied at that boundary; after the last event the tail up to
    [frameCount] is rendered. For time-ordered events the frames rendered
    before an event are exactly those before its clamped offset, and the
    block renders [frameCount] frames in all. The call returns whenever the
    voices have a positive control period and the coupling update leaves
    their timing alone. What it returns is a run of the schedule in which
    every slice is rendered ([slice_rendered]: the control counter advances,
    only the frames of the slice are written, at most the first 2048 of them
    synthesized) and every event applied ([event_applied]: the note, pitch
    bend or parameter change takes effect on the engine). *)
Theorem render_follows_schedule (e : SynthEngine.t) (mem : list float)
    (events : EventQueue.t) (outL outR frameCount : Z) :
  initialized_ e = true ->
  0 <= frameCount <= INT32_MAX ->
  let schedule := spec_schedule 0 (EventQueue.contents events) frameCount in
  render e mem events outL outR frameCount = run_schedule outL outR schedule (e, mem)
  /\ applied_events schedule = EventQueue.contents events
  /\ (time_ordered 0 (EventQueue.contents events) ->
        rendered_frames schedule = frameCount
        /\ forall before event after,
             schedule = before ++ ApplyEvent event :: after ->
             rendered_frames before = clamp_offset frameCount (sampleOffset event))
  /\ (coupling_keeps_timing topo -> engine_timed e ->
        is_Some (render e mem events outL outR frameCount))
  /\ (0 <= outL -> 0 <= outR ->
      forall result, render e mem events outL outR frameCount = Some result ->
        schedule_runs outL outR schedule (e, mem) result).
Proof.
  intros Hinit Hn schedule. split; [|split; [|split; [|split]]].
  - by apply render_runs_schedule.
  - apply spec_schedule_applied.
  - intros Hord.
    destruct (spec_schedule_position (EventQueue.contents events) frameCount 0
                ltac:(lia) Hord) as [Htotal Hpos].
    split; [fold schedule in Htotal; lia|].
    intros before event after Heq. specialize (Hpos before event after Heq). lia.
  - intros Htopo He.
    destruct (render_returns e mem events outL outR frameCount Hinit Hn Htopo He)
      as (e' & mem' & -> & _).
    by eexists.
  - intros HL HR result Hrender.
    rewrite render_runs_schedule in Hrender by done.
    apply run_schedule_runs; [done|done| |done].
    by apply spec_schedule_starts.
Qed.

End SchedulerTheorem.

Section SchedulerTheoremExamples.
#[local] Existing Instance Reference.core.
#[local] Existing Instance Reference.topology.
Import SynthEngine.

Lemma reference_coupling_keeps_timing : coupling_keeps_timing Reference.topology.
Proof. intros te voices n Hv. by split. Qed.

Lemma prepared_engine_timed : engine_timed prepared_engine.
Proof.
  unfold engine_timed.
  assert (Hall : forallb
            (fun v => (0 <? ModalVoice.samples_per_update_ v)
                      && (ModalVoice.samples_per_update_ v <=? UINT32_MAX)
                      && (0 <=? ModalVoice.samples_since_update_ v)
                      && (ModalVoice.samples_since_update_ v <=? UINT32_MAX))
            (NodeManager.nodes_ (nodeManager_ prepared_engine)) = true)
    by (vm_compute; reflexivity).
  rewrite forallb_forall in Hall. apply Forall_forall. intros v Hv.
  apply list_elem_of_In, Hall in Hv.
  rewrite !andb_true_iff in Hv. destruct Hv as [[[H1 H2] H3] H4].
  apply Z.ltb_lt in H1. apply Z.leb_le in H2, H3, H4. by repeat split.
Qed.

Lemma prepared_engine_idle : manager_idle (nodeManager_ prepared_engine).
Proof.
  assert (Hall : forallb (fun v => negb (ModalVoice.isActive v))
                   (NodeManager.nodes_ (nodeManager_ prepared_engine)) = true)
    by (vm_compute; reflexivity).
  rewrite forallb_forall in Hall. intros i v Hv _.
  apply negb_true_iff, Hall, list_elem_of_In. by eapply list_elem_of_lookup_2.
Qed.

(** C2 (counterexample). The scheduling does not hold for every frame count
    and every engine. With 2^31 frames the frame count is negative as an
    [int32_t]: for a queue holding one note-on at offset 100 the schedule of
    the specification is slice, event, slice, but [render] applies the event
    and returns the memory as it was, not one frame rendered; it differs
    from the run of the schedule on every memory whose first left sample is
    not already zero. And an engine that was not prepared returns as it was:
    the parameter event of the queue is not applied. *)
Lemma render_skips_block_at_int32_wrap :
  let frames := 2 ^ 31 in
  let event := mkSynthEvent 100 (noteOn_data 60 0.8%Q 0) in
  let q := queue_of [event] in
  let schedule := spec_schedule 0 (EventQueue.contents q) frames in
  let change := mkSynthEvent 0 (parameter_data kParam_Mix 0.9%Q) in
  (initialized_ prepared_engine = true /\ 0 <= frames <= UINT32_MAX)
  /\ schedule = [RenderSlice 0 100; ApplyEvent event; RenderSlice 100 (frames - 100)]
  /\ (forall (mem : list float) (outL outR : Z),
        render prepared_engine mem q outL outR frames
        = Some (processEvent prepared_engine event, mem))
  /\ (forall (mem : list float) (outL outR : Z) (x : float),
        0 <= outL <= outR -> mem !! Z.to_nat outL = Some x -> x <> 0%Q ->
        render prepared_engine mem q outL outR frames
        <> run_schedule outL outR schedule (prepared_engine, mem))
  /\ initialized_ unprepared_engine = false
  /\ applied_events (spec_schedule 0 (EventQueue.contents (queue_of [change])) 64)
     = [change]
  /\ getParameter unprepared_engine kParam_Mix = 0.5%Q
  /\ getParameter (processEvent unprepared_engine change) kParam_Mix = 0.9%Q
  /\ (forall (mem : list float) (outL outR : Z),
        exists mem', render unprepared_engine mem (queue_of [change]) outL outR 64
                     = Some (unprepared_engine, mem')).
Proof.
  intros frames event q schedule change.
  assert (Hinit : initialized_ prepared_engine = true) by reflexivity.
  assert (Hq : EventQueue.contents q = [event]) by (vm_compute; reflexivity).
  split; [split; [exact Hinit|unfold frames, UINT32_MAX; lia]|].
  split; [unfold schedule; rewrite Hq; vm_compute; reflexivity|].
  split.
  { intros mem outL outR. unfold frames.
    rewrite render_wrap; [|exact Hinit|by rewrite Hq]. by rewrite Hq. }
  split.
  { intros mem outL outR x Hout Hx Hx0.
    apply (render_wrap_differs prepared_engine q event mem outL outR x);
      [exact Hinit|apply prepared_engine_idle|exact Hq|vm_compute; done
      |vm_compute; reflexivity|exact Hout|exact Hx|exact Hx0]. }
  split; [reflexivity|]. split; [vm_compute; reflexivity|].
  split; [reflexivity|]. split; [reflexivity|].
  intros mem outL outR. by apply render_uninitialized.
Qed.

(** The specification's example, two events at offset 5 and one at offset 40
    in a block of 64 frames, on buffers at the addresses 4 and 68 of a
    memory filled with 7: the first five frames of both buffers are silence,
    the note sounds from frame 5 on, the memory around the buffers is
    untouched, and at the end node 0 is released with the pitch bend 0.25
    and the note unmapped. *)
Lemma render_follows_schedule_witness :
  let q := queue_of (example_head ++ example_tail) in
  let mem := replicate 136 7%Q in
  let schedule := spec_schedule 0 (EventQueue.contents q) 64 in
  (initialized_ prepared_engine = true /\ 0 <= 64 <= INT32_MAX)
  /\ manager_ready (nodeManager_ prepared_engine)
  /\ manager_idle (nodeManager_ prepared_engine)
  /\ schedule
     = [RenderSlice 0 5;
        ApplyEvent (mkSynthEvent 5 (noteOn_data 60 0.8%Q 0));
        ApplyEvent (mkSynthEvent 5 (pitchBend_data 0.25%Q));
        RenderSlice 5 35;
        ApplyEvent (mkSynthEvent 40 (noteOff_data 60));
        RenderSlice 40 24]
  /\ render prepared_engine mem q 4 68 64
     = run_schedule 4 68 schedule (prepared_engine, mem)
  /\ applied_events schedule = EventQueue.contents q
  /\ exists e' mem',
       render prepared_engine mem q 4 68 64 = Some (e', mem')
       /\ schedule_runs 4 68 schedule (prepared_engine, mem) (e', mem')
       /\ controlRateCounter_ e' = 64
       /\ (ModalVoice.state_ <$> NodeManager.nodes_ (nodeManager_ e'))
          = [ModalVoice.Release; ModalVoice.Inactive; ModalVoice.Inactive;
             ModalVoice.Inactive; ModalVoice.Inactive]
       /\ (ModalVoice.pitch_bend_ <$> NodeManager.nodes_ (nodeManager_ e') !! 0%nat)
          = Some 0.25%Q
       /\ NodeManager.note_to_node_ (nodeManager_ e') !! 60%nat = Some 255
       /\ samples mem' 0 4 = replicate 4 7%Q
       /\ samples mem' 4 64 = replicate 5 0%Q ++ replicate 59 1%Q
       /\ samples mem' 68 64 = replicate 5 0%Q ++ replicate 59 1%Q
       /\ samples mem' 132 4 = replicate 4 7%Q.
Proof.
  intros q mem schedule.
  assert (H1 : initialized_ prepared_engine = true) by reflexivity.
  assert (H2 : 0 <= 64 <= INT32_MAX) by (unfold INT32_MAX; lia).
  split; [exact (conj H1 H2)|].
  split.
  { split; [reflexivity|]. split; [split; vm_compute; discriminate|].
    repeat split; vm_compute; reflexivity. }
  split; [exact prepared_engine_idle|].
  split; [vm_compute; reflexivity|].
  pose proof (render_follows_schedule prepared_engine mem q 4 68 64 H1 H2) as Hspec.
  cbv zeta in Hspec.
  destruct Hspec as (Hrun & Happlied & _ & Hreturns & Hruns).
  split; [exact Hrun|]. split; [exact Happlied|].
  destruct (Hreturns reference_coupling_keeps_timing prepared_engine_timed)
    as [[e' mem'] Hresult].
  exists e', mem'. split; [exact Hresult|].
  split; [exact (Hruns ltac:(lia) ltac:(lia) _ Hresult)|].
  assert (Hvalues :
            match render prepared_engine mem q 4 68 64 with
            | Some (e', mem') =>
                controlRateCounter_ e' = 64
                /\ (ModalVoice.state_ <$> NodeManager.nodes_ (nodeManager_ e'))
                   = [ModalVoice.Release; ModalVoice.Inactive; ModalVoice.Inactive;
                      ModalVoice.Inactive; ModalVoice.Inactive]
                /\ (ModalVoice.pitch_bend_ <$> NodeManager.nodes_ (nodeManager_ e') !! 0%nat)
                   = Some 0.25%Q
                /\ NodeManager.note_to_node_ (nodeManager_ e') !! 60%nat = Some 255
                /\ samples mem' 0 4 = replicate 4 7%Q
                /\ samples mem' 4 64 = replicate 5 0%Q ++ replicate 59 1%Q
                /\ samples mem' 68 64 = replicate 5 0%Q ++ replicate 59 1%Q
                /\ samples mem' 132 4 = replicate 4 7%Q
            | None => False
            end)
    by (vm_compute; repeat split; reflexivity).
  rewrite Hresult in Hvalues. exact Hvalues.
Defined.

End SchedulerTheoremExamples.
